(** * Transfer scheduling on a demand multigraph: scheduler.py

    A shallow embedding of the scheduling strategies of [scheduler.py]
    (InOrder, EdgeRanking, FlattenAndColor, Bipartite, Greedy) together with
    the part of networkx's MultiGraph / DiGraph interface they call, and the
    properties of the specification checked against it.

    Conventions.
    - Python exceptions are values of [error]; a function that may raise
      returns a [result].
    - A [Disk] object is identified by a natural number; its attributes
      [cv] and [avail] live in a [store] that is threaded explicitly.
    - An [Alias] object is identified by the serial number of its creation.
    - Python integers are [Z].  The float quotient inside [ceil(a / b)] is
      followed where it can change the result for a graph in memory: a
      capacity so large that the quotient underflows gives 0.  Where the
      source halves a capacity through a float, the exact half is taken
      and the properties are stated for capacities up to 2^53 (module
      [Exact]), where the two agree. *)

From Stdlib Require Import List ZArith Lia Bool Arith PeanoNat Permutation.
From Stdlib Require Import Sorting.Sorted Relations.Relation_Operators.
Import ListNotations.

Set Implicit Arguments.
Open Scope Z_scope.

(* ================================================================== *)
(** ** Exceptions *)

Inductive error : Type :=
| ZeroDivisionError      (* ceil(d / 0) *)
| ValueError             (* max([]) *)
| IndexError             (* new_edge[1] on a one-element list *)
| KeyError               (* lookup of a missing dict key *)
| NetworkXError          (* remove_edge of an absent edge, no Euler circuit *)
| AttributeError         (* a method called on None *)
| ContractViolation.     (* acquire on a disk with no free slot *)

Inductive result (A : Type) : Type :=
| Ok (a : A)
| Raise (e : error).
Arguments Ok {A} a.
Arguments Raise {A} e.

Definition bind {A B} (r : result A) (k : A -> result B) : result B :=
  match r with
  | Ok a => k a
  | Raise e => Raise e
  end.

Notation "x <- r ;; k" := (bind r (fun x => k))
  (at level 61, r at next level, right associativity).
Notation "' p <- r ;; k" := (bind r (fun p => k))
  (at level 61, p pattern, r at next level, right associativity).

(** [for x in l: st = f(st, x)] where the body may raise. *)
Fixpoint foldM {A S} (f : S -> A -> result S) (l : list A) (st : S) : result S :=
  match l with
  | [] => Ok st
  | x :: l' => st' <- f st x ;; foldM f l' st'
  end.

(* ================================================================== *)
(** ** Object identity *)

Class EqDec (A : Type) := {
  eqb : A -> A -> bool;
  eqb_eq : forall x y, eqb x y = true <-> x = y
}.

#[export] Instance nat_EqDec : EqDec nat :=
  {| eqb := Nat.eqb; eqb_eq := Nat.eqb_eq |}.

Definition mem {A} `{EqDec A} (x : A) (l : list A) : bool := existsb (eqb x) l.

(** first occurrences, in order *)
Fixpoint dedup {A} `{EqDec A} (l : list A) : list A :=
  match l with
  | [] => []
  | x :: l' => x :: filter (fun y => negb (eqb y x)) (dedup l')
  end.

(** [collections.Counter(l)]: the distinct elements in order of first
    occurrence, each with its number of occurrences. *)
Definition occurrences {A} `{EqDec A} (x : A) (l : list A) : nat :=
  length (filter (eqb x) l).

Definition Counter {A} `{EqDec A} (l : list A) : list (A * nat) :=
  map (fun x => (x, occurrences x l)) (dedup l).

#[export] Instance pair_EqDec {A B} `{EqDec A} `{EqDec B} : EqDec (A * B).
Proof.
  refine {| eqb := fun p q => eqb (fst p) (fst q) && eqb (snd p) (snd q) |}.
  intros [a b] [c d]; simpl. rewrite andb_true_iff, !eqb_eq.
  split; [intros [-> ->]; reflexivity | intros E; inversion E; auto].
Defined.

(* ================================================================== *)
(** ** networkx.MultiGraph

    The graph keeps its nodes in insertion order and its edges in the order
    they were added; an edge remembers its two endpoints, is undirected and
    may be repeated.  Only the methods [scheduler.py] calls are modelled. *)

Module MultiGraph.
Section Ops.
Context {A : Type} `{EqDec A}.

Record t : Type := mk { nodes : list A; links : list (A * A) }.

Definition empty : t := mk [] [].

(** does the stored edge [e] join [u] and [v] (in either direction)? *)
Definition joins (u v : A) (e : A * A) : bool :=
  (eqb (fst e) u && eqb (snd e) v) || (eqb (fst e) v && eqb (snd e) u).

Definition incident (n : A) (e : A * A) : bool :=
  eqb (fst e) n || eqb (snd e) n.

(** the endpoint of [e] that is not [n] ([n] itself for a self-loop) *)
Definition other (n : A) (e : A * A) : A :=
  if eqb (fst e) n then snd e else fst e.

Definition add_node (g : t) (n : A) : t :=
  if mem n (nodes g) then g else mk (nodes g ++ [n]) (links g).

Definition add_nodes_from (g : t) (ns : list A) : t :=
  fold_left add_node ns g.

(** [G.add_edge(u, v)]: both endpoints become nodes, a new parallel edge
    is added even when [u] and [v] are already joined. *)
Definition add_edge (g : t) (u v : A) : t :=
  let g1 := add_node (add_node g u) v in
  mk (nodes g1) (links g1 ++ [(u, v)]).

Definition add_edges_from (g : t) (es : list (A * A)) : t :=
  fold_left (fun g e => add_edge g (fst e) (snd e)) es g.

Definition has_edge (g : t) (u v : A) : bool :=
  existsb (joins u v) (links g).

(** number of parallel edges between [u] and [v] *)
Definition mult (ls : list (A * A)) (u v : A) : nat :=
  length (filter (joins u v) ls).

(** drop the most recently added element satisfying [p] *)
Fixpoint remove_last (p : A * A -> bool) (l : list (A * A))
  : option (list (A * A)) :=
  match l with
  | [] => None
  | x :: l' =>
      match remove_last p l' with
      | Some r => Some (x :: r)
      | None => if p x then Some l' else None
      end
  end.

(** [G.remove_edge(u, v)]: removes one edge between [u] and [v], the one
    added last; raises when there is none. *)
Definition remove_edge (g : t) (u v : A) : result t :=
  match remove_last (joins u v) (links g) with
  | Some ls => Ok (mk (nodes g) ls)
  | None => Raise NetworkXError
  end.

(** [G.remove_edges_from(es)]: like [remove_edge] for each element, but
    an absent edge is ignored. *)
Definition remove_edges_from (g : t) (es : list (A * A)) : t :=
  fold_left (fun g e =>
               match remove_edge g (fst e) (snd e) with
               | Ok g' => g'
               | Raise _ => g
               end) es g.

Definition clear (g : t) : t := empty.

(** [G.degree(n)]: every incident edge counts once, a self-loop twice. *)
Definition degree (g : t) (n : A) : Z :=
  fold_right (fun e acc =>
                (if eqb (fst e) n then 1 else 0)
                + (if eqb (snd e) n then 1 else 0) + acc) 0 (links g).

(** [G.degree()]: the (node, degree) pairs in node order *)
Definition degree_view (g : t) : list (A * Z) :=
  map (fun n => (n, degree g n)) (nodes g).

(** the neighbours of [n], in the order their first edge was added *)
Definition nbrs (ls : list (A * A)) (n : A) : list A :=
  dedup (map (other n) (filter (incident n) ls)).

(** the edges reported at node [n] when the nodes in [seen] have been
    visited: [(n, nbr)] once per parallel edge, neighbour by neighbour *)
Definition edges_at (ls : list (A * A)) (seen : list A) (n : A)
  : list (A * A) :=
  flat_map (fun nbr =>
              if mem nbr seen then []
              else repeat (n, nbr) (mult ls n nbr)) (nbrs ls n).

Fixpoint edges_from (ls : list (A * A)) (seen ns : list A)
  : list (A * A) :=
  match ns with
  | [] => []
  | n :: ns' => edges_at ls seen n ++ edges_from ls (n :: seen) ns'
  end.

(** [G.edges()]: every edge once, reported from its endpoint that comes
    first in node order. *)
Definition edges (g : t) : list (A * A) :=
  edges_from (links g) [] (nodes g).

(** [G.edges(n)]: the edges at the single node [n] *)
Definition edges_of (g : t) (n : A) : list (A * A) :=
  edges_at (links g) [] n.

(** every endpoint is a node and no node is listed twice *)
Definition wf (g : t) : Prop :=
  NoDup (nodes g) /\
  forall e, In e (links g) -> In (fst e) (nodes g) /\ In (snd e) (nodes g).
End Ops.
Arguments t A : clear implicits.
End MultiGraph.

Module MG := MultiGraph.

(* ================================================================== *)
(** ** Disk objects *)

(** A Disk is named by its index among the disks of the run. *)
Abbreviation disk := nat (only parsing).

(** A demand edge as the strategies see it: the tuple [(e[0], e[1])]. *)
Abbreviation edge := (disk * disk)%type (only parsing).

(** The demand graph of the driver: a MultiGraph whose nodes are Disks. *)
Abbreviation graph := (MG.t disk) (only parsing).

(** The attributes of all Disk objects: [d.cv] and [d.avail]. *)
Record store : Type := mkStore { cv : disk -> Z; avail : disk -> Z }.

Definition set_avail (s : store) (d : disk) (a : Z) : store :=
  mkStore (cv s) (fun d' => if Nat.eqb d' d then a else avail s d').

Definition set_cv (s : store) (d : disk) (c : Z) : store :=
  mkStore (fun d' => if Nat.eqb d' d then c else cv s d') (avail s).

(** Modelled from the spec: [Disk.acquire] of the absent [disk.py].
    "acquire requires availability > 0 and decrements it by one"; a call
    that breaks the requirement is a contract violation (spec, section 7). *)
Definition acquire (s : store) (d : disk) : result store :=
  if 0 <? avail s d then Ok (set_avail s d (avail s d - 1))
  else Raise ContractViolation.

(* ================================================================== *)
(** ** InOrder *)

Module InOrder.

(** [gen_edges]: [[e for e in graph.edges()]] *)
Definition gen_edges (g : graph) : list edge := MG.edges g.

(** The state of one [do_work] pass: the graph and the disks it mutates,
    the local list [working], and the transfer lines printed so far. *)
Record pass : Type := mkPass {
  p_graph : graph;
  p_store : store;
  p_working : list disk;
  p_printed : list edge
}.

(** The body of [for e in queue]. *)
Definition step (st : pass) (e : edge) : result pass :=
  let u := fst e in
  let v := snd e in
  if (0 <? avail (p_store st) u) && (0 <? avail (p_store st) v)
     && MG.has_edge (p_graph st) u v
  then
    if negb (Nat.eqb u v) then
      s1 <- acquire (p_store st) u ;;
      s2 <- acquire s1 v ;;
      g' <- MG.remove_edge (p_graph st) u v ;;
      Ok (mkPass g' s2 (p_working st ++ [u; v]) (p_printed st ++ [(u, v)]))
    else
      s1 <- acquire (p_store st) u ;;
      g' <- MG.remove_edge (p_graph st) u v ;;
      Ok (mkPass g' s1 (p_working st ++ [u]) (p_printed st ++ [(u, v)]))
  else Ok st.

Section DoWork.
(** [Disk.free] belongs to the absent [disk.py]; the pass is stated for any
    implementation of it. *)
Variable free : store -> disk -> store.

(** [for w in working: w.free()] *)
Definition release (s : store) (working : list disk) : store :=
  fold_left free working s.

(** [do_work(graph, queue)]: the graph and the disks after the pass, and
    the transfers it printed. *)
Definition do_work (g : graph) (s : store) (queue : list edge)
  : result (graph * store * list edge) :=
  st <- foldM step queue (mkPass g s [] []) ;;
  Ok (p_graph st, release (p_store st) (p_working st), p_printed st).

End DoWork.
End InOrder.

(* ================================================================== *)
(** ** Python built-ins used by the strategies *)

(** [a / b] is the float nearest to the quotient: a positive quotient of
    at most 2^-1075, half the smallest positive float, rounds to [0.0]. *)
Definition underflows (a b : Z) : bool :=
  (0 <? a) && (a * 2 ^ 1075 <=? b).

(** the value of [ceil(a / b)] for [b <> 0]: 0 when the float quotient
    underflows, else the ceiling of the quotient.  This is the value of the
    float expression for 0 <= a <= 2^53 and every [b]; for a larger [a]
    (here [a] is a degree: more edges at a node than a graph in memory
    holds) the float may round the quotient across an integer, which is
    not modelled. *)
Definition ceil_quot (a b : Z) : Z :=
  if underflows a b then 0 else - ((- a) / b).

(** [ceil(a / b)] *)
Definition ceil_div (a b : Z) : result Z :=
  if b =? 0 then Raise ZeroDivisionError else Ok (ceil_quot a b).

(** [max(l)] *)
Definition py_max (l : list Z) : result Z :=
  match l with
  | [] => Raise ValueError
  | x :: l' => Ok (fold_left Z.max l' x)
  end.

(** a list comprehension whose element expression may raise *)
Fixpoint mapM {A B} (f : A -> result B) (l : list A) : result (list B) :=
  match l with
  | [] => Ok []
  | x :: l' => y <- f x ;; ys <- mapM f l' ;; Ok (y :: ys)
  end.

(** [d[k]] on a dict kept as an association list *)
Fixpoint lookup {K V} `{EqDec K} (k : K) (d : list (K * V)) : result V :=
  match d with
  | [] => Raise KeyError
  | (k', v) :: d' => if eqb k k' then Ok v else lookup k d'
  end.

(** [sorted(l, key=key)]: Python's sort is stable, so the result is the one
    list that is ordered by key and keeps equal keys in their input order;
    insertion before the first element that is not smaller computes it. *)
Fixpoint insert_sorted {X} (key : X -> Z) (x : X) (l : list X) : list X :=
  match l with
  | [] => [x]
  | y :: l' => if key x <=? key y then x :: y :: l'
               else y :: insert_sorted key x l'
  end.

Fixpoint sorted {X} (key : X -> Z) (l : list X) : list X :=
  match l with
  | [] => []
  | x :: l' => insert_sorted key x (sorted key l')
  end.

(* ================================================================== *)
(** ** Scheduler: the helper shared by all strategies *)

Module Scheduler.

(** the value [ceil(d[1] / d[0].cv)] at the node [d] *)
Definition ratio (g : graph) (s : store) (d : disk) : Z :=
  ceil_quot (MG.degree g d) (cv s d).

(** [max_d(graph)] *)
Definition max_d (g : graph) (s : store) : result Z :=
  degrees <- mapM (fun d => ceil_div (snd d) (cv s (fst d))) (MG.degree_view g) ;;
  py_max degrees.

End Scheduler.

(* ================================================================== *)
(** ** EdgeRanking *)

Module EdgeRanking.

(** [dv_cv(graph)]: the dict from each disk to ceil(degree / cv) *)
Definition dv_cv (g : graph) (s : store) : result (list (disk * Z)) :=
  mapM (fun d => w <- ceil_div (snd d) (cv s (fst d)) ;; Ok (fst d, w))
       (MG.degree_view g).

(** [gen_edges(graph)] *)
Definition gen_edges (g : graph) (s : store) : result (list edge) :=
  degrees <- dv_cv g s ;;
  weighted <- mapM (fun e : edge =>
                      a <- lookup (fst e) degrees ;;
                      b <- lookup (snd e) degrees ;;
                      Ok (a + b, e)) (MG.edges g) ;;
  Ok (map snd (sorted fst weighted)).

End EdgeRanking.

(* ================================================================== *)
(** ** Alias objects *)

(** A node of a derived graph: a Disk, or the [k]-th Alias object created,
    standing for the node it was built from. *)
Inductive node : Type :=
| Disk (d : disk)
| Alias (k : nat) (x : node).

(** Modelled from the spec: the [org] attribute of the absent [disk.py].
    An Alias resolves transitively to its backing Disk; a Disk is its own
    origin. *)
Fixpoint org (n : node) : disk :=
  match n with
  | Disk d => d
  | Alias _ x => org x
  end.

Fixpoint node_eqb (a b : node) : bool :=
  match a, b with
  | Disk d, Disk d' => Nat.eqb d d'
  | Alias k x, Alias k' x' => Nat.eqb k k' && node_eqb x x'
  | _, _ => false
  end.

Lemma node_eqb_eq (a b : node) : node_eqb a b = true <-> a = b.
Proof.
  revert b. induction a as [d|k x IH]; intros [d'|k' x']; simpl;
    try (split; discriminate).
  - rewrite Nat.eqb_eq. split; [intros ->; reflexivity|intros E; now inversion E].
  - rewrite andb_true_iff, Nat.eqb_eq, IH.
    split; [intros [-> ->]; reflexivity|intros E; inversion E; auto].
Defined.

#[export] Instance node_EqDec : EqDec node :=
  {| eqb := node_eqb; eqb_eq := node_eqb_eq |}.

(** serial numbers of the Alias objects a node is built from *)
Fixpoint serials (n : node) : list nat :=
  match n with
  | Disk _ => []
  | Alias k x => k :: serials x
  end.

(** a graph whose nodes may be Disks or Aliases *)
Abbreviation agraph := (MG.t node) (only parsing).

(* ================================================================== *)
(** ** Scheduler.mg_split *)

Module Split.

(** The [while n > 1] loop for one key [e] of the counter; [n] is the
    number of iterations left, [k] the serial of the next Alias. *)
Fixpoint split_edge (n : nat) (e : node * node) (st : agraph * nat)
  : result (agraph * nat) :=
  match n with
  | O => Ok st
  | S n' =>
      let g1 := MG.add_edge (fst st) (Alias (snd st) (fst e)) (snd e) in
      g2 <- MG.remove_edge g1 (fst e) (snd e) ;;
      split_edge n' e (g2, S (snd st))
  end.

(** [mg_split(graph)]; [k] is the serial of the next Alias object. *)
Definition mg_split (g : agraph) (k : nat) : result (agraph * nat) :=
  foldM (fun st en => split_edge (snd en - 1)%nat (fst en) st)
        (Counter (MG.edges g)) (g, k).

End Split.

(* ================================================================== *)
(** ** FlattenAndColor *)

Module FlattenAndColor.

(** The body of [for d in graph.nodes()] in [alias_graph]: a fresh Alias of
    [d], then one fresh Alias per edge reported at [d]. *)
Definition alias_node (g : graph) (st : agraph * nat) (d : disk)
  : agraph * nat :=
  let k := snd st in
  let disk_alias := Alias k (Disk d) in
  let es := MG.edges_of g d in
  let alias_edges :=
    map (fun ie => (disk_alias, Alias (S k + fst ie) (Disk (snd (snd ie)))))
        (combine (seq 0 (length es)) es) in
  (MG.add_edges_from (MG.add_node (fst st) disk_alias) alias_edges,
   (S k + length es)%nat).

(** [alias_graph(graph)] *)
Definition alias_graph (g : graph) (k : nat) : agraph * nat :=
  fold_left (alias_node g) (MG.nodes g) (MG.empty, k).

(** [for i in range(1, d.org.cv - 1)]: each turn makes a fresh Alias and
    overwrites [new_edges]. *)
Fixpoint clone_loop (n : nat) (a : agraph) (d : node)
  (st : list (node * node) * nat) : list (node * node) * nat :=
  match n with
  | O => st
  | S n' =>
      let new_d := Alias (snd st) (Disk (org d)) in
      clone_loop n' a d
        (map (fun e => (new_d, snd e)) (MG.edges_of a d), S (snd st))
  end.

(** [split(graph)] *)
Definition split (g : graph) (s : store) (k : nat) : agraph * nat :=
  let '(a, k1) := alias_graph g k in
  let '(new_edges, k2) :=
    fold_left (fun st d =>
                 if 1 <? cv s (org d)
                 then clone_loop (Z.to_nat (cv s (org d) - 2)) a d st
                 else st) (MG.nodes a) ([], k1) in
  (MG.add_edges_from (MG.add_nodes_from a []) new_edges, k2).

(** the dict [e_colors], in insertion order *)
Definition coloring : Type := list ((node * node) * nat).

Definition has_key (c : coloring) (e : node * node) : bool :=
  existsb (fun kv => eqb (fst kv) e) c.

(** The body of [for e in graph.edges(d)]; the state is [e_colors] and the
    local [color]. *)
Definition color_edge (st : coloring * nat) (e : node * node)
  : coloring * nat :=
  if has_key (fst st) e then st
  else (fst st ++ [(e, snd st)], S (snd st)).

(** [greedy_color(graph)] *)
Definition greedy_color (a : agraph) : coloring :=
  fold_left (fun c d => fst (fold_left color_edge (MG.edges_of a d) (c, O)))
            (MG.nodes a) [].

(** The fields [a_graph] and [e_colors] of the strategy object. *)
Record cache : Type := mkCache {
  a_graph : option agraph;
  e_colors : coloring
}.

Definition init : cache := mkCache None [].

(** [not self.a_graph]: None, or a graph without nodes *)
Definition falsy (a : option agraph) : bool :=
  match a with
  | None => true
  | Some g => match MG.nodes g with [] => true | _ => false end
  end.

(** [gen_edges(graph)]: the queue, the updated cache and Alias counter *)
Definition gen_edges (c : cache) (g : graph) (s : store) (k : nat)
  : list edge * cache * nat :=
  let '(c', k') :=
    if falsy (a_graph c) then
      let '(a, k1) := split g s k in
      (mkCache (Some a) (greedy_color a), k1)
    else (c, k) in
  (map (fun kv => (org (fst (fst kv)), org (snd (fst kv))))
       (sorted (fun kv => Z.of_nat (snd kv)) (e_colors c')),
   c', k').

End FlattenAndColor.

(* ================================================================== *)
(** ** Greedy *)

Module Greedy.

(** [do_work(graph, queue)]: the graph after the call and the transfers
    printed. *)
Definition do_work (g : graph) (queue : list edge) : graph * list edge :=
  match queue with
  | [] => (MG.clear g, [])
  | _ => (g, queue)
  end.

Section GenEdges.
(** [nx.maximal_matching]: some list of edges of the alias graph.  The
    call is taken to return; a networkx whose [maximal_matching] refuses a
    MultiGraph raises in every [gen_edges], and the properties of Greedy
    are stated for the runs in which the call returned. *)
Variable maximal_matching : agraph -> list (node * node).

(** [gen_edges(graph)]; the state is the field [a_graph]. *)
Definition gen_edges (a : option agraph) (g : graph) (s : store) (k : nat)
  : list edge * option agraph * nat :=
  let '(a1, k1) :=
    if FlattenAndColor.falsy a then FlattenAndColor.split g s k
    else (match a with Some x => x | None => MG.empty end, k) in
  let queue := maximal_matching a1 in
  (map (fun e => (org (fst e), org (snd e))) queue,
   Some (MG.remove_edges_from a1 queue), k1).
End GenEdges.

End Greedy.

(* ================================================================== *)
(** ** networkx.DiGraph with a [capacity] attribute: the flow network *)

(** The nodes of the flow network: a Disk [d] itself, the Alias [v_in[d]]
    made for it, and the strings ['s'] and ['t']. *)
Inductive fnode : Type :=
| FOut (d : disk)
| FIn (d : disk)
| FS
| FT.

Definition fnode_eqb (a b : fnode) : bool :=
  match a, b with
  | FOut d, FOut d' => Nat.eqb d d'
  | FIn d, FIn d' => Nat.eqb d d'
  | FS, FS => true
  | FT, FT => true
  | _, _ => false
  end.

Lemma fnode_eqb_eq (a b : fnode) : fnode_eqb a b = true <-> a = b.
Proof.
  destruct a, b; simpl; try rewrite Nat.eqb_eq;
    split; intros E; try discriminate; try reflexivity;
    try (now subst); now inversion E.
Defined.

#[export] Instance fnode_EqDec : EqDec fnode :=
  {| eqb := fnode_eqb; eqb_eq := fnode_eqb_eq |}.

(** [n.org] for a node that is a Disk or an Alias of one; the strings have
    no such attribute. *)
Definition forg (n : fnode) : result disk :=
  match n with
  | FOut d => Ok d
  | FIn d => Ok d
  | FS => Raise AttributeError
  | FT => Raise AttributeError
  end.

Definition is_terminal (n : fnode) : bool :=
  match n with
  | FS => true
  | FT => true
  | _ => false
  end.

Module DiGraph.

(** The arcs in insertion order, each with its capacity; an arc occurs at
    most once. *)
Definition t : Type := list ((fnode * fnode) * Z).

(** [b.add_edge(u, v, capacity=c)]: a second call for the same arc only
    overwrites the attribute. *)
Fixpoint add_edge (b : t) (u v : fnode) (c : Z) : t :=
  match b with
  | [] => [((u, v), c)]
  | a :: b' => if eqb (fst a) (u, v) then ((u, v), c) :: b'
               else a :: add_edge b' u v c
  end.

(** [b.remove_edges_from(es)]: arcs not present are ignored. *)
Definition remove_edges_from (b : t) (es : list (fnode * fnode)) : t :=
  filter (fun a => negb (mem (fst a) es)) b.

End DiGraph.

(** The value [flow_dict] of [nx.maximum_flow]: for every node the flow on
    each of its outgoing arcs. *)
Definition flow_dict : Type := list (fnode * list (fnode * Z)).

(* ================================================================== *)
(** ** Bipartite *)

Module Bipartite.

(** The fields [normalized] and [b] of the strategy object. *)
Record state : Type := mkState {
  normalized : bool;
  b : option DiGraph.t
}.

Definition init : state := mkState false None.

(** [for d in graph: if d.cv % 2: d.cv -= 1; d.avail -= 1] *)
Definition relax_disk (s : store) (d : disk) : store :=
  if cv s d mod 2 =? 0 then s
  else set_avail (set_cv s d (cv s d - 1)) d (avail s d - 1).

Definition relax (g : graph) (s : store) : store :=
  fold_left relax_disk (MG.nodes g) s.

(** [while graph.degree(d) < target - 1: graph.add_edge(d, d)], run for at
    most [fuel] turns. *)
Fixpoint pad (fuel : nat) (g : graph) (d : disk) (target : Z) : graph :=
  match fuel with
  | O => g
  | S fuel' =>
      if MG.degree g d <? target - 1
      then pad fuel' (MG.add_edge g d d) d target
      else g
  end.

(** The body of [for d in graph.nodes()] in [normalize]; the state is the
    graph and the list [spares].  Each turn of the loop raises the degree
    by two, so [target - degree] turns are never used up. *)
Definition pad_node (delta_prime : Z) (s : store)
  (st : graph * list disk) (d : disk) : graph * list disk :=
  let target := delta_prime * cv s d in
  let g' := pad (Z.to_nat (target - MG.degree (fst st) d)) (fst st) d target in
  (g', if MG.degree g' d =? target - 1 then snd st ++ [d] else snd st).

(** [while spares: new_edge = spares[:2]; spares = spares[2:];
    graph.add_edge(new_edge[0], new_edge[1])] *)
Fixpoint pair_spares (g : graph) (spares : list disk) : result graph :=
  match spares with
  | [] => Ok g
  | [_] => Raise IndexError
  | x :: y :: spares' => pair_spares (MG.add_edge g x y) spares'
  end.

(** [normalize(graph)] *)
Definition normalize (g : graph) (s : store) : result graph :=
  delta_prime <- Scheduler.max_d g s ;;
  let st := fold_left (pad_node delta_prime s) (MG.nodes g) (g, []) in
  pair_spares (fst st) (snd st).

(** [loops]: the edges of [graph.edges()] with [e[0].org is e[1].org] *)
Definition loops (g : graph) : list edge :=
  filter (fun e => Nat.eqb (fst e) (snd e)) (MG.edges g).

(** [for e in ec: self.b.add_edge(e[0], v_in[e[1]], capacity=1)]; the dict
    [v_in] has the nodes of the graph as keys. *)
Definition add_circuit (g : graph) (ec : list edge) (b0 : DiGraph.t)
  : result DiGraph.t :=
  foldM (fun b e =>
           if mem (snd e) (MG.nodes g)
           then Ok (DiGraph.add_edge b (FOut (fst e)) (FIn (snd e)) 1)
           else Raise KeyError) ec b0.

(** [ceil(d.cv / 2)]; the float quotient of the source is exact for a
    capacity up to 2^53. *)
Definition half (c : Z) : Z := - ((- c) / 2).

(** The flow network built on the first call. *)
Definition build (g : graph) (s : store) (ec : list edge)
  : result DiGraph.t :=
  b1 <- add_circuit g ec [] ;;
  let b2 := fold_left (fun b d => DiGraph.add_edge b (FIn d) FT (half (cv s d)))
                      (MG.nodes g) b1 in
  Ok (fold_left (fun b d => DiGraph.add_edge b FS (FOut d) (half (cv s d)))
                (MG.nodes g) b2).

(** [flow]: the arcs with positive flow that touch neither ['s'] nor ['t'] *)
Definition active (fd : flow_dict) : list (fnode * fnode) :=
  flat_map (fun d =>
              flat_map (fun d2 =>
                          if (0 <? snd d2) && negb (is_terminal (fst d))
                             && negb (is_terminal (fst d2))
                          then [(fst d, fst d2)] else [])
                       (snd d)) fd.

(** [[(e[0].org, e[1].org) for e in flow if e[0].org is not e[1].org]] *)
Definition reassociate (flow : list (fnode * fnode)) : result (list edge) :=
  pairs <- mapM (fun e => u <- forg (fst e) ;; v <- forg (snd e) ;; Ok (u, v))
                flow ;;
  Ok (filter (fun e => negb (Nat.eqb (fst e) (snd e))) pairs).

Section GenEdges.
(** [nx.eulerian_circuit] is a generator: it looks at the graph when the
    loop [for e in ec] asks for the first edge, that is after the
    self-loops were removed.  [nx.maximum_flow] is given the network and
    the two terminals.  Both belong to networkx and are parameters here. *)
Variable eulerian_circuit : graph -> result (list edge).
Variable maximum_flow : DiGraph.t -> flow_dict.

(** The branch [if not self.normalized] up to the removal of self-loops:
    the demand graph and the disks it leaves behind. *)
Definition prepare (g : graph) (s : store) : result (graph * store) :=
  let s1 := relax g s in
  g1 <- normalize g s1 ;;
  Ok (MG.remove_edges_from g1 (loops g1), s1).

(** [gen_edges(graph)]: the queue, the strategy object, the graph and the
    disks after the call. *)
Definition gen_edges (st : state) (g : graph) (s : store)
  : result (list edge * state * graph * store) :=
  '(net, g', s') <-
     (if negb (normalized st) then
        '(g2, s1) <- prepare g s ;;
        ec <- eulerian_circuit g2 ;;
        net <- build g2 s1 ec ;;
        Ok (net, g2, s1)
      else
        match b st with
        | Some net => Ok (net, g, s)
        | None => Raise AttributeError
        end) ;;
  let flow := active (maximum_flow net) in
  queue <- reassociate flow ;;
  Ok (queue, mkState true (Some (DiGraph.remove_edges_from net flow)), g', s').
End GenEdges.

End Bipartite.

(* ================================================================== *)
(** ** The commit pass in the words of the specification *)

Module CommitSpec.

(** reserve one slot of [d] *)
Definition reserve (s : store) (d : disk) : store :=
  set_avail s d (avail s d - 1).

(** the edge is still present and its endpoints have a free slot; for a
    self-pair only the one endpoint is looked at *)
Definition admissible (g : graph) (s : store) (e : edge) : bool :=
  MG.has_edge g (fst e) (snd e)
  && (0 <? avail s (fst e))
  && (if Nat.eqb (fst e) (snd e) then true else 0 <? avail s (snd e)).

(** take one edge between [u] and [v] out of the graph *)
Definition remove_one (g : graph) (u v : disk) : graph :=
  match MG.remove_last (MG.joins u v) (MG.links g) with
  | Some ls => MG.mk (MG.nodes g) ls
  | None => g
  end.

(** the endpoints an applied edge makes active *)
Definition endpoints (e : edge) : list disk :=
  if Nat.eqb (fst e) (snd e) then [fst e] else [fst e; snd e].

Record outcome : Type := mkOutcome {
  o_graph : graph;
  o_store : store;
  o_active : list disk;
  o_records : list edge
}.

(** the queue is walked in order; an admissible edge is applied, any other
    edge is skipped and changes nothing *)
Fixpoint commit (g : graph) (s : store) (queue : list edge) : outcome :=
  match queue with
  | [] => mkOutcome g s [] []
  | e :: queue' =>
      if admissible g s e then
        let o := commit (remove_one g (fst e) (snd e))
                        (fold_left reserve (endpoints e) s) queue' in
        mkOutcome (o_graph o) (o_store o)
                  (endpoints e ++ o_active o) (e :: o_records o)
      else commit g s queue'
  end.

End CommitSpec.

(* ================================================================== *)
(** ** The driver loop for the strategies that commit with InOrder.do_work *)

Module Driver.
Section Rounds.
Variable free : store -> disk -> store.

(** [q = sched.gen_edges(g); sched.do_work(g, q)] round after round, for
    the queues [qs] a selection that leaves the graph alone hands over;
    the result collects the transfers printed in all rounds. *)
Fixpoint rounds (g : graph) (s : store) (qs : list (list edge))
  : result (graph * store * list edge) :=
  match qs with
  | [] => Ok (g, s, [])
  | q :: qs' =>
      r1 <- InOrder.do_work free g s q ;;
      r2 <- rounds (fst (fst r1)) (snd (fst r1)) qs' ;;
      Ok (fst (fst r2), snd (fst r2), snd r1 ++ snd r2)
  end.
End Rounds.
End Driver.

(** an undirected pair, smaller endpoint first *)
Definition norm_edge (e : edge) : edge :=
  if (fst e <=? snd e)%nat then e else (snd e, fst e).

(* ================================================================== *)
(** ** Small demand graphs used as test inputs *)

Module Inputs.

(** every disk with capacity [c] and all of it free *)
Definition uniform (c : Z) : store := mkStore (fun _ => c) (fun _ => c).

(** increment-by-one reading of [Disk.free], used to run examples *)
Definition free_one (s : store) (d : disk) : store :=
  set_avail s d (avail s d + 1).

(** disks A = 0, B = 1, C = 2 *)
Definition triangle : graph :=
  MG.mk [0; 1; 2]%nat [(0, 1); (1, 2); (0, 2)]%nat.

Definition path3 : graph :=
  MG.mk [0; 1; 2]%nat [(0, 1); (1, 2)]%nat.

Definition one_edge : graph := MG.mk [0; 1]%nat [(0, 1)]%nat.

Definition two_parallel : graph :=
  MG.mk [0; 1]%nat [(0, 1); (0, 1)]%nat.

(** the complete graph on four disks, as [nx.complete_graph(4)] lists it *)
Definition k4 : graph :=
  MG.mk [0; 1; 2; 3]%nat
        [(0, 1); (0, 2); (0, 3); (1, 2); (1, 3); (2, 3)]%nat.

(** a star: disk 0 joined to disks 1, 2, 3 *)
Definition star4 : graph :=
  MG.mk [0; 1; 2; 3]%nat [(0, 1); (0, 2); (0, 3)]%nat.

(** a triangle 0-2-3 with the pendant disk 1 at disk 0 *)
Definition paw : graph :=
  MG.mk [0; 1; 2; 3]%nat [(0, 1); (0, 2); (0, 3); (2, 3)]%nat.

(** five disks with the edges 0-1, 1-4 and 2-3, added in that order *)
Definition three_edges : graph :=
  MG.mk [0; 1; 2; 3; 4]%nat [(0, 1); (1, 4); (2, 3)]%nat.

(** disk 0 with capacity 10^400, every other disk with capacity 1 *)
Definition one_huge : store :=
  mkStore (fun d => if Nat.eqb d 0 then 10 ^ 400 else 1)
          (fun d => if Nat.eqb d 0 then 10 ^ 400 else 1).

(** a walk and a flow that both use a self-loop at disk 1 *)
Definition circuit_with_loop (_ : graph) : result (list edge) :=
  Ok [(0, 1); (1, 1); (1, 0)]%nat.

Definition flow_with_loop (_ : DiGraph.t) : flow_dict :=
  [(FS, [(FOut 0%nat, 1); (FOut 1%nat, 2)]);
   (FOut 0%nat, [(FIn 1%nat, 1)]);
   (FOut 1%nat, [(FIn 1%nat, 1); (FIn 0%nat, 1)]);
   (FIn 0%nat, [(FT, 1)]);
   (FIn 1%nat, [(FT, 2)])].

(** [k4] after the first part of Bipartite.gen_edges with capacity 3: the
    capacities drop to 2, every disk is a spare, 0-1 and 2-3 get paired *)
Definition k4_prepared : graph :=
  MG.mk [0; 1; 2; 3]%nat
        [(0, 1); (0, 2); (0, 3); (1, 2); (1, 3); (2, 3); (0, 1); (2, 3)]%nat.

(** a closed walk over every edge of [k4_prepared] *)
Definition k4_circuit : list edge :=
  [(0, 1); (1, 2); (2, 3); (3, 0); (0, 2); (2, 3); (3, 1); (1, 0)]%nat.

(** a maximum flow on the network of that walk: one unit along
    0 -> 1, 1 -> 2, 2 -> 3 and 3 -> 0 *)
Definition k4_flow (_ : DiGraph.t) : flow_dict :=
  [(FS, [(FOut 0%nat, 1); (FOut 1%nat, 1); (FOut 2%nat, 1); (FOut 3%nat, 1)]);
   (FOut 0%nat, [(FIn 1%nat, 1); (FIn 2%nat, 0)]);
   (FOut 1%nat, [(FIn 2%nat, 1); (FIn 0%nat, 0)]);
   (FOut 2%nat, [(FIn 3%nat, 1)]);
   (FOut 3%nat, [(FIn 0%nat, 1); (FIn 1%nat, 0)]);
   (FIn 0%nat, [(FT, 1)]);
   (FIn 1%nat, [(FT, 1)]);
   (FIn 2%nat, [(FT, 1)]);
   (FIn 3%nat, [(FT, 1)]);
   (FT, [])].

End Inputs.

(** is [v] met strictly before [u] when walking [ns]? *)
Fixpoint precedes {A} `{EqDec A} (ns : list A) (v u : A) : bool :=
  match ns with
  | [] => false
  | n :: ns' => if eqb n u then false else eqb n v || precedes ns' v u
  end.

(* ================================================================== *)
(** ** The ranking of EdgeRanking in the words of the specification *)

Module RankSpec.

(** w(d) = ceil(degree(d) / capacity(d)) on the graph as it is *)
Definition weight (g : graph) (s : store) (d : disk) : Z :=
  - ((- MG.degree g d) / cv s d).

(** the score of the edge (u, v) is w(u) + w(v) *)
Definition score (g : graph) (s : store) (e : edge) : Z :=
  weight g s (fst e) + weight g s (snd e).

End RankSpec.

(* ================================================================== *)
(** ** Graph notions used to state the properties *)

(** what one stored edge adds to the degree of [n] *)
Definition ends_at {A} `{EqDec A} (n : A) (e : A * A) : Z :=
  (if eqb (fst e) n then 1 else 0) + (if eqb (snd e) n then 1 else 0).

Definition sumZ {X} (f : X -> Z) (l : list X) : Z :=
  fold_right (fun x acc => f x + acc) 0 l.

(** [u] and [v] are the two ends of some edge *)
Definition adjacent (g : graph) (u v : disk) : Prop :=
  MG.has_edge g u v = true.

(** [nx.is_connected]: there is a node, and a walk between any two nodes *)
Definition connected (g : graph) : Prop :=
  MG.nodes g <> [] /\
  forall u v, In u (MG.nodes g) -> In v (MG.nodes g) ->
              clos_refl_trans disk (adjacent g) u v.

(** [nx.is_eulerian] for an undirected graph: every degree is even and the
    graph is connected *)
Definition is_eulerian (g : graph) : Prop :=
  (forall d, In d (MG.nodes g) -> Z.even (MG.degree g d) = true)
  /\ connected g.

(* ================================================================== *)
(** ** Notions used to state what mg_split and greedy_color produce *)

Module SplitSpec.

(** every Alias the node is built from was created before serial [k] *)
Definition bounded (k : nat) (n : node) : Prop :=
  Forall (fun j => (j < k)%nat) (serials n).

(** no node of the graph holds an Alias with serial [k] or later: the
    Alias objects made from now on are new to the graph *)
Definition fresh_for (k : nat) (g : agraph) : Prop :=
  forall n, In n (MG.nodes g) -> bounded k n.

(** the stored edge joins [v] to an Alias of [u] created with a serial in
    [lo, hi) *)
Definition is_alias_edge (lo hi : nat) (u v : node) (l : node * node) : bool :=
  match fst l with
  | Alias j x => (lo <=? j)%nat && (j <? hi)%nat && eqb x u && eqb (snd l) v
  | Disk _ => false
  end.

(** the edges made by [n] turns of the loop that starts at serial [ki] *)
Definition new_edges (u v : node) (ki n : nat) : list (node * node) :=
  map (fun j => (Alias j u, v)) (seq ki n).

(** no stored edge touches an Alias of serial [k] or later *)
Definition links_bounded (k : nat) (ls : list (node * node)) : Prop :=
  forall l, In l ls -> bounded k (fst l) /\ bounded k (snd l).

(** number of such edges *)
Definition alias_edges (lo hi : nat) (u v : node) (ls : list (node * node))
  : nat :=
  length (filter (is_alias_edge lo hi u v) ls).

End SplitSpec.

Module ColorSpec.

Definition share_endpoint (e1 e2 : node * node) : bool :=
  eqb (fst e1) (fst e2) || eqb (fst e1) (snd e2)
  || eqb (snd e1) (fst e2) || eqb (snd e1) (snd e2).

(** a proper edge coloring: two keys that stand for different edges and
    share an endpoint never carry the same color *)
Definition proper (c : FlattenAndColor.coloring) : bool :=
  forallb (fun kv1 =>
             forallb (fun kv2 =>
                        MG.joins (fst (fst kv1)) (snd (fst kv1)) (fst kv2)
                        || negb (share_endpoint (fst kv1) (fst kv2))
                        || negb (Nat.eqb (snd kv1) (snd kv2))) c) c.

End ColorSpec.

(** number of stored edges whose first end is the Alias of serial [j] *)
Definition carried_by (j : nat) (ls : list (node * node)) : nat :=
  length (filter (fun l => match fst l with
                           | Alias i _ => Nat.eqb i j
                           | Disk _ => false
                           end) ls).

(* ================================================================== *)
(** ** What networkx promises about its two routines *)

Module FlowSpec.

(** each edge of the walk starts where the one before it ends *)
Fixpoint chained (c : list edge) : Prop :=
  match c with
  | [] => True
  | e :: c' => match c' with
               | [] => True
               | e' :: _ => snd e = fst e'
               end /\ chained c'
  end.

(** [nx.eulerian_circuit]: a closed walk that uses every edge of the graph
    exactly once, in one direction or the other *)
Definition euler_circuit (g : graph) (c : list edge) : Prop :=
  Permutation (map norm_edge c) (map norm_edge (MG.links g))
  /\ chained c
  /\ match c with
     | [] => True
     | e :: _ => snd (last c e) = fst e
     end.



End FlowSpec.


(** the part of [flow] a row contributes *)
Definition row_arcs (d : fnode * list (fnode * Z)) : list (fnode * fnode) :=
  flat_map (fun d2 =>
              if (0 <? snd d2) && negb (is_terminal (fst d))
                 && negb (is_terminal (fst d2))
              then [(fst d, fst d2)] else []) (snd d).

(** the disk behind a node of the network that is not a terminal *)
Definition disk_of (n : fnode) : disk :=
  match n with
  | FOut d => d
  | FIn d => d
  | FS => O
  | FT => O
  end.

(* ================================================================== *)
(** ** simulator.py: the loop of [main] *)

Module Simulator.
Section Loop.
(** A strategy object: its fields and its two methods.  [gen_edges] hands
    back the queue, the fields, the graph and the disks; [do_work] the graph,
    the disks and the lines it printed. *)
Variable strategy : Type.
Variable gen_edges :
  strategy -> graph -> store -> result (list edge * strategy * graph * store).
Variable do_work :
  graph -> store -> list edge -> result (graph * store * list edge).

(** [while g.edges(): q = sched.gen_edges(g); sched.do_work(g, q);
    rounds += 1], run for at most [fuel] rounds.  The result is [None] when
    the loop is still running after [fuel] rounds, otherwise the lines
    printed round by round with the graph and the disks at the end. *)
Fixpoint loop (fuel : nat) (st : strategy) (g : graph) (s : store)
  : result (option (list (list edge) * graph * store)) :=
  match MG.edges g with
  | [] => Ok (Some ([], g, s))
  | _ :: _ =>
      match fuel with
      | O => Ok None
      | S fuel' =>
          r1 <- gen_edges st g s ;;
          r2 <- do_work (snd (fst r1)) (snd r1) (fst (fst (fst r1))) ;;
          r3 <- loop fuel' (snd (fst (fst r1))) (fst (fst r2)) (snd (fst r2)) ;;
          Ok (option_map
                (fun r => (snd r2 :: fst (fst r), snd (fst r), snd r)) r3)
      end
  end.

(** [main] from [rounds = 1] on: [d_prime = sched.max_d(g)], the loop, and
    the two numbers of the last line, [rounds - 1] and [d_prime]. *)
Definition main (fuel : nat) (st : strategy) (g : graph) (s : store)
  : result (option (nat * Z)) :=
  d_prime <- Scheduler.max_d g s ;;
  r <- loop fuel st g s ;;
  Ok (option_map (fun r => (length (fst (fst r)), d_prime)) r).
End Loop.

(** [sched = InOrder()] *)
Definition inorder_gen_edges (st : unit) (g : graph) (s : store)
  : result (list edge * unit * graph * store) :=
  Ok (InOrder.gen_edges g, st, g, s).

(** [sched = EdgeRanking()] *)
Definition edge_ranking_gen_edges (st : unit) (g : graph) (s : store)
  : result (list edge * unit * graph * store) :=
  q <- EdgeRanking.gen_edges g s ;;
  Ok (q, st, g, s).

(** [sched = FlattenAndColor()]: the two cached fields and the serial of
    the next Alias object *)
Definition flatten_and_color_gen_edges (st : FlattenAndColor.cache * nat)
  (g : graph) (s : store)
  : result (list edge * (FlattenAndColor.cache * nat) * graph * store) :=
  let r := FlattenAndColor.gen_edges (fst st) g s (snd st) in
  Ok (fst (fst r), (snd (fst r), snd r), g, s).

(** [sched = Greedy()]: the field [a_graph] and the serial of the next
    Alias object *)
Definition greedy_gen_edges (maximal_matching : agraph -> list (node * node))
  (st : option agraph * nat) (g : graph) (s : store)
  : result (list edge * (option agraph * nat) * graph * store) :=
  let r := Greedy.gen_edges maximal_matching (fst st) g s (snd st) in
  Ok (fst (fst r), (snd (fst r), snd r), g, s).

Definition greedy_do_work (g : graph) (s : store) (q : list edge)
  : result (graph * store * list edge) :=
  let r := Greedy.do_work g q in
  Ok (fst r, s, snd r).

End Simulator.

(* ================================================================== *)
(** ** Notions used to state the shape of the alias graph *)

Module AliasSpec.

(** every edge joins the Alias of a disk to an Alias of its own: the
    serials lie in [k0, k), the first endpoint was made before the second,
    no two edges share their second endpoint, and no second endpoint is the
    first endpoint of an edge *)
Definition stars (k0 k : nat) (ls : list (node * node)) : Prop :=
  (forall e, In e ls ->
     exists i j d v,
       e = (Alias i (Disk d), Alias j (Disk v))
       /\ (k0 <= i)%nat /\ (i < j)%nat /\ (j < k)%nat)
  /\ NoDup (map snd ls)
  /\ (forall e e', In e ls -> In e' ls -> snd e <> fst e').

(** the demand pair behind an edge between Aliases *)
Definition org_edge (e : node * node) : edge := (org (fst e), org (snd e)).

End AliasSpec.

(* ================================================================== *)
(** ** What [nx.maximal_matching] promises *)

Module MatchingSpec.

(** the two edges have no endpoint in common *)
Definition apart {A} (e e' : A * A) : Prop :=
  fst e <> fst e' /\ fst e <> snd e' /\ snd e <> fst e' /\ snd e <> snd e'.

(** [q] is a matching of [a]: edges of the graph, no two of them meeting *)
Definition matching (a : agraph) (q : list (node * node)) : Prop :=
  (forall e, In e q -> MG.has_edge a (fst e) (snd e) = true)
  /\ ForallOrdPairs apart q.

(** a maximal matching is a matching, and it is not empty when the graph
    has an edge between two different nodes *)
Definition maximal (mm : agraph -> list (node * node)) : Prop :=
  forall a,
    matching a (mm a)
    /\ ((exists e, In e (MG.links a) /\ fst e <> snd e) -> mm a <> []).

End MatchingSpec.

(* ================================================================== *)
(** ** A matching routine used to run examples *)

Module Oracles.

(** first fit: walk the edges and keep each one whose two ends are
    different and still unmatched *)
Fixpoint first_fit (ls : list (node * node)) (used : list node)
  : list (node * node) :=
  match ls with
  | [] => []
  | e :: ls' =>
      if negb (eqb (fst e) (snd e))
         && negb (mem (fst e) used) && negb (mem (snd e) used)
      then e :: first_fit ls' (fst e :: snd e :: used)
      else first_fit ls' used
  end.

Definition first_fit_matching (a : agraph) : list (node * node) :=
  first_fit (MG.links a) [].

End Oracles.

(* ================================================================== *)
(** ** simulator.py: the disks of a run *)

Module Setup.

(** the truth value of an optional integer argument: [None] and [0] are
    false *)
Definition truthy (o : option Z) : bool :=
  match o with
  | Some v => negb (v =? 0)
  | None => false
  end.

Definition value (o : option Z) : Z :=
  match o with
  | Some v => v
  | None => 0
  end.

Section Random.
(** the number drawn by the [i]-th call of [random.randint(a, b)] *)
Variable randint : nat -> Z -> Z -> Z.

(** [random.randint(a, b)] raises ValueError on an empty range *)
Definition py_randint (i : nat) (a b : Z) : result Z :=
  if b <? a then Raise ValueError else Ok (randint i a b).

(** the first argument of [Disk(..., 0)] in turn [i] of the loop;
    [floor(even_cv / 2)] goes through a float in the source, which is exact
    for an [even_cv] between -2^53 and 2^53 *)
Definition new_disk (rand_cv static_cv even_cv : option Z) (i : nat)
  : result Z :=
  if truthy rand_cv then py_randint i 1 (value rand_cv)
  else if truthy static_cv then Ok (value static_cv)
  else if truthy even_cv then
    r <- py_randint i 1 (value even_cv / 2) ;; Ok (r * 2)
  else Ok 1.

(** [generate_disks(n, rand_cv, static_cv, even_cv)]: the capacities the
    disks are made with, in order *)
Definition generate_disks (n : Z) (rand_cv static_cv even_cv : option Z)
  : result (list Z) :=
  mapM (new_disk rand_cv static_cv even_cv) (seq 0 (Z.to_nat n)).
End Random.

End Setup.

(* ================================================================== *)
(** ** One commit pass, in the words of the specification *)

(** The pass as the specification describes it, as a relation between the
    state before and after.  It is written without the operations of the
    code: an edge is present when some stored edge joins its endpoints, a
    removal is a split of the edge list, a reservation is a change of the
    availability read disk by disk. *)

Module PassSpec.

(** the stored edge [x] joins [u] and [v], in either direction *)
Definition joins (u v : disk) (x : edge) : Prop :=
  x = (u, v) \/ x = (v, u).

(** the edge (u, v) is still present in the graph *)
Definition present (g : graph) (u v : disk) : Prop :=
  exists x, In x (MG.links g) /\ joins u v x.

(** availability(u) > 0 and availability(v) > 0, only u being checked
    when u = v *)
Definition slots (s : store) (u v : disk) : Prop :=
  0 < avail s u /\ (u <> v -> 0 < avail s v).

(** [g1] is [g] without one edge between [u] and [v]: the nodes stay, and
    one stored edge joining [u] and [v] is taken out of the edge list, the
    one added last *)
Definition removed (g : graph) (u v : disk) (g1 : graph) : Prop :=
  MG.nodes g1 = MG.nodes g /\
  exists l1 x l2,
    MG.links g = l1 ++ x :: l2 /\ MG.links g1 = l1 ++ l2 /\
    joins u v x /\ forall y, In y l2 -> ~ joins u v y.

(** [s1] is [s] with both endpoints reserved, by one reservation when
    u = v: [u] and [v] have one free slot less (a disk that is both has
    one less, not two), no other availability and no capacity changes *)
Definition reserved (s : store) (u v : disk) (s1 : store) : Prop :=
  (forall d, cv s1 d = cv s d) /\
  (forall d, (d = u \/ d = v) -> avail s1 d = avail s d - 1) /\
  (forall d, d <> u -> d <> v -> avail s1 d = avail s d).

(** the endpoints an applied edge makes active *)
Definition active (u v : disk) : list disk :=
  if Nat.eqb u v then [u] else [u; v].

(** [pass g s queue g' s' act rec]: walking [queue] in order from the
    graph [g] and the disks [s] ends in [g'] and [s'], has made the
    endpoints [act] active and has emitted the records [rec] *)
Inductive pass : graph -> store -> list edge ->
                 graph -> store -> list disk -> list edge -> Prop :=
| pass_end (g : graph) (s : store) :
    pass g s [] g s [] []
| pass_applied (g : graph) (s : store) (u v : disk) (queue : list edge)
    (g1 : graph) (s1 : store) (g' : graph) (s' : store)
    (act : list disk) (rec : list edge) :
    present g u v -> slots s u v ->
    removed g u v g1 -> reserved s u v s1 ->
    pass g1 s1 queue g' s' act rec ->
    pass g s ((u, v) :: queue) g' s' (active u v ++ act) ((u, v) :: rec)
| pass_skipped (g : graph) (s : store) (u v : disk) (queue : list edge)
    (g' : graph) (s' : store) (act : list disk) (rec : list edge) :
    ~ (present g u v /\ slots s u v) ->
    pass g s queue g' s' act rec ->
    pass g s ((u, v) :: queue) g' s' act rec.

(** [released free s act s']: every disk of [act] is released, in order *)
Inductive released (free : store -> disk -> store) :
  store -> list disk -> store -> Prop :=
| released_end (s : store) : released free s [] s
| released_next (s : store) (d : disk) (act : list disk) (s' : store) :
    released free (free s d) act s' ->
    released free s (d :: act) s'.

End PassSpec.

(* ================================================================== *)
(** ** The range in which the float quotients of the source are exact *)

(** The source takes [ceil(a / b)] and [floor(a / 2)] of Python integers,
    where [a / b] is the float nearest to the quotient.  A float carries 53
    bits: for 0 <= a <= 2^53 and 0 < b <= 2^53 a quotient that is an
    integer is represented, and one that is not cannot round onto an
    integer below it, so the ceiling (and the floor of a half) of the float
    is the one of the exact quotient.  Outside this range the float may
    round across an integer (a above 2^53), underflow to 0.0 (b above about
    1e323) or overflow (OverflowError above about 1.8e308).  [ceil_div]
    follows the underflow; [Bipartite.half] and [Setup.new_disk] compute
    with exact integers, and so agree with the source within the range.
    The properties that depend on the value of such a quotient are stated
    within it. *)

Module Exact.

Definition bound : Z := 2 ^ 53.

(** every capacity is positive and at most 2^53, every degree at most
    2^53 *)
Definition in_range (g : graph) (s : store) : Prop :=
  forall d, In d (MG.nodes g) ->
            0 < cv s d <= bound /\ MG.degree g d <= bound.

End Exact.

(* ================================================================== *)
(** * Properties *)

(** ** Identity tests *)

Section EqDecFacts.
Context {A : Type} `{EqDec A}.

Lemma eqb_refl (x : A) : eqb x x = true.
Proof. now apply eqb_eq. Qed.

Lemma eqb_neq (x y : A) : eqb x y = false <-> x <> y.
Proof.
  split.
  - intros E Heq. apply eqb_eq in Heq. congruence.
  - intros N. destruct (eqb x y) eqn:E; [|reflexivity].
    apply eqb_eq in E. contradiction.
Qed.

Lemma eqb_sym (x y : A) : eqb x y = eqb y x.
Proof.
  destruct (eqb x y) eqn:E.
  - apply eqb_eq in E. subst. symmetry. apply eqb_refl.
  - apply eqb_neq in E. symmetry. apply eqb_neq. congruence.
Qed.

Lemma mem_In (x : A) l : mem x l = true <-> In x l.
Proof.
  unfold mem. rewrite existsb_exists. split.
  - intros [y [Hy E]]. apply eqb_eq in E. now subst.
  - intros Hx. exists x. split; [assumption|apply eqb_refl].
Qed.

Lemma mem_notIn (x : A) l : mem x l = false <-> ~ In x l.
Proof.
  rewrite <- mem_In. destruct (mem x l); split; congruence.
Qed.
End EqDecFacts.

(** ** Removing an edge *)

Section RemoveFacts.
Context {A : Type} `{EqDec A}.

Lemma remove_last_some (p : A * A -> bool) l :
  existsb p l = true -> exists r, MG.remove_last p l = Some r.
Proof.
  induction l as [|x l IH]; simpl; [discriminate|].
  intros E. destruct (MG.remove_last p l) as [r|] eqn:R.
  - eauto.
  - destruct (p x) eqn:Px; [eauto|].
    simpl in E. destruct (IH E) as [r Hr]. discriminate.
Qed.

Lemma remove_last_none (p : A * A -> bool) l :
  existsb p l = false -> MG.remove_last p l = None.
Proof.
  induction l as [|x l IH]; simpl; [reflexivity|].
  intros E. apply orb_false_iff in E as [Px E].
  now rewrite (IH E), Px.
Qed.

(** the list before the removal is the removed element put back *)
Lemma remove_last_perm (p : A * A -> bool) l r :
  MG.remove_last p l = Some r ->
  exists x, p x = true /\ Permutation l (x :: r).
Proof.
  revert r. induction l as [|y l IH]; simpl; [discriminate|].
  intros r. destruct (MG.remove_last p l) as [r'|] eqn:R.
  - intros E. inversion E; subst. destruct (IH r' eq_refl) as [x [Px P]].
    exists x. split; [assumption|].
    rewrite P. apply perm_swap.
  - destruct (p y) eqn:Py; [|discriminate].
    intros E. inversion E; subst. exists y. split; [assumption|reflexivity].
Qed.
End RemoveFacts.

(** ** InOrder.do_work against the commit of the specification *)

Section CommitFacts.
Import InOrder CommitSpec.

Lemma acquire_ok (s : store) (d : disk) :
  0 < avail s d -> acquire s d = Ok (reserve s d).
Proof.
  intros Hd. unfold acquire. apply Z.ltb_lt in Hd. now rewrite Hd.
Qed.

Lemma avail_reserve_other (s : store) (d d' : disk) :
  d' <> d -> avail (reserve s d) d' = avail s d'.
Proof.
  intros N. simpl. apply Nat.eqb_neq in N. now rewrite N.
Qed.

Lemma avail_reserve_same (s : store) (d : disk) :
  avail (reserve s d) d = avail s d - 1.
Proof. simpl. now rewrite Nat.eqb_refl. Qed.

(** the test of the source and the test of the specification agree *)
Lemma admissible_test (g : graph) (s : store) (e : edge) :
  (0 <? avail s (fst e)) && (0 <? avail s (snd e))
  && MG.has_edge g (fst e) (snd e) = admissible g s e.
Proof.
  unfold admissible. destruct e as [u v]; simpl.
  destruct (Nat.eqb u v) eqn:E.
  - apply Nat.eqb_eq in E. subst v.
    destruct (0 <? avail s u), (MG.has_edge g u u); reflexivity.
  - destruct (0 <? avail s u), (0 <? avail s v), (MG.has_edge g u v);
      reflexivity.
Qed.

(** an admissible edge is applied: no call of the body raises *)
Lemma step_applied (st : pass) (e : edge) :
  admissible (p_graph st) (p_store st) e = true ->
  step st e =
  Ok (mkPass (remove_one (p_graph st) (fst e) (snd e))
             (fold_left reserve (endpoints e) (p_store st))
             (p_working st ++ endpoints e)
             (p_printed st ++ [e])).
Proof.
  intros Adm. unfold step. rewrite admissible_test, Adm.
  unfold admissible in Adm. destruct e as [u v]; simpl in *.
  apply andb_true_iff in Adm as [Adm Hv].
  apply andb_true_iff in Adm as [He Hu].
  apply Z.ltb_lt in Hu.
  destruct (remove_last_some _ _ He) as [r Hr].
  unfold MG.remove_edge, remove_one, endpoints; simpl. rewrite Hr.
  destruct (Nat.eqb u v) eqn:E; simpl.
  - rewrite (acquire_ok _ _ Hu). reflexivity.
  - rewrite (acquire_ok _ _ Hu); simpl.
    apply Z.ltb_lt in Hv. apply Nat.eqb_neq in E.
    rewrite acquire_ok; [reflexivity|].
    rewrite avail_reserve_other; [assumption|congruence].
Qed.

(** any other edge is skipped and nothing changes *)
Lemma step_skipped (st : pass) (e : edge) :
  admissible (p_graph st) (p_store st) e = false -> step st e = Ok st.
Proof.
  intros Adm. unfold step. now rewrite admissible_test, Adm.
Qed.

Lemma pass_commit (queue : list edge) :
  forall g s w p,
    foldM step queue (mkPass g s w p) =
    Ok (mkPass (o_graph (commit g s queue)) (o_store (commit g s queue))
               (w ++ o_active (commit g s queue))
               (p ++ o_records (commit g s queue))).
Proof.
  induction queue as [|e queue IH]; intros g s w p; simpl.
  - now rewrite !app_nil_r.
  - destruct (admissible g s e) eqn:Adm.
    + rewrite step_applied by exact Adm. simpl. rewrite IH. simpl.
      now rewrite <- !app_assoc.
    + rewrite step_skipped by exact Adm. simpl. apply IH.
Qed.

End CommitFacts.

(** ** InOrder.do_work against the pass of the specification *)

Section PassSpecFacts.
Import InOrder CommitSpec.

Lemma joins_spec (u v : disk) (x : edge) :
  MG.joins u v x = true <-> PassSpec.joins u v x.
Proof.
  destruct x as [a b]. unfold MG.joins, PassSpec.joins. cbn [fst snd].
  rewrite orb_true_iff, !andb_true_iff, !eqb_eq.
  split; intros [E|E]; [left|right|left|right];
    solve [destruct E; subst; reflexivity | inversion E; auto].
Qed.

Lemma has_edge_present (g : graph) (u v : disk) :
  MG.has_edge g u v = true <-> PassSpec.present g u v.
Proof.
  unfold MG.has_edge, PassSpec.present. rewrite existsb_exists.
  split; intros [x [Hx J]]; exists x; (split; [exact Hx|]);
    now apply joins_spec.
Qed.

Lemma admissible_spec (g : graph) (s : store) (u v : disk) :
  admissible g s (u, v) = true
  <-> PassSpec.present g u v /\ PassSpec.slots s u v.
Proof.
  unfold admissible, PassSpec.slots. cbn [fst snd].
  rewrite !andb_true_iff, has_edge_present, Z.ltb_lt.
  destruct (Nat.eqb u v) eqn:E.
  - apply Nat.eqb_eq in E. subst v. intuition.
  - apply Nat.eqb_neq in E. rewrite Z.ltb_lt. intuition.
Qed.

(** the removal of the code takes out the last stored edge that joins the
    two endpoints *)
Lemma remove_last_split (p : edge -> bool) (l : list edge) :
  forall r,
    MG.remove_last p l = Some r ->
    exists l1 x l2,
      l = l1 ++ x :: l2 /\ r = l1 ++ l2 /\ p x = true /\
      forall y, In y l2 -> p y = false.
Proof.
  induction l as [|y l IH]; intros r R; cbn [MG.remove_last] in R;
    [discriminate|].
  destruct (MG.remove_last p l) as [r'|] eqn:R'.
  - inversion R; subst r.
    destruct (IH r' eq_refl) as [l1 [x [l2 [El [Er [Px N]]]]]].
    exists (y :: l1), x, l2. subst l r'. repeat split; assumption.
  - destruct (p y) eqn:Py; [|discriminate]. inversion R; subst r.
    exists [], y, l. repeat split; [exact Py|].
    intros z Hz. destruct (p z) eqn:Pz; [|reflexivity]. exfalso.
    assert (E : existsb p l = true)
      by (apply existsb_exists; exists z; now split).
    destruct (@remove_last_some disk p l E) as [r1 R1]. congruence.
Qed.

Lemma remove_one_removed (g : graph) (u v : disk) :
  PassSpec.present g u v ->
  PassSpec.removed g u v (remove_one g u v).
Proof.
  intros P. apply has_edge_present in P.
  destruct (@remove_last_some disk (MG.joins u v) (MG.links g) P) as [r R].
  unfold remove_one. rewrite R. split; [reflexivity|].
  destruct (@remove_last_split (MG.joins u v) (MG.links g) r R)
    as [l1 [x [l2 [El [Er [Px N]]]]]].
  exists l1, x, l2. cbn [MG.links]. repeat split; try assumption.
  - now apply joins_spec.
  - intros y Hy J. apply joins_spec in J. rewrite (N y Hy) in J.
    discriminate.
Qed.

Lemma reserve_reserved (s : store) (u v : disk) :
  PassSpec.reserved s u v (fold_left reserve (endpoints (u, v)) s).
Proof.
  unfold endpoints, PassSpec.reserved. cbn [fst snd].
  destruct (Nat.eqb u v) eqn:E; cbn [fold_left reserve set_avail cv avail].
  - apply Nat.eqb_eq in E. subst v. repeat split.
    + intros d [D|D]; subst d; now rewrite Nat.eqb_refl.
    + intros d Du _. apply Nat.eqb_neq in Du. now rewrite Du.
  - apply Nat.eqb_neq in E. repeat split.
    + intros d [D|D]; subst d.
      * rewrite Nat.eqb_refl.
        destruct (Nat.eqb u v) eqn:X;
          [apply Nat.eqb_eq in X; congruence|reflexivity].
      * rewrite Nat.eqb_refl.
        destruct (Nat.eqb v u) eqn:X;
          [apply Nat.eqb_eq in X; congruence|reflexivity].
    + intros d Du Dv. apply Nat.eqb_neq in Du, Dv. now rewrite Du, Dv.
Qed.

Lemma commit_pass (queue : list edge) :
  forall g s,
    PassSpec.pass g s queue
      (o_graph (commit g s queue)) (o_store (commit g s queue))
      (o_active (commit g s queue)) (o_records (commit g s queue)).
Proof.
  induction queue as [|[u v] queue IH]; intros g s; cbn [commit].
  - constructor.
  - destruct (admissible g s (u, v)) eqn:Adm.
    + apply admissible_spec in Adm as [P S].
      cbn [o_graph o_store o_active o_records fst snd].
      apply PassSpec.pass_applied
        with (g1 := remove_one g u v)
             (s1 := fold_left reserve (endpoints (u, v)) s).
      * exact P.
      * exact S.
      * now apply remove_one_removed.
      * apply reserve_reserved.
      * apply IH.
    + apply PassSpec.pass_skipped; [|apply IH].
      intros C. apply admissible_spec in C. congruence.
Qed.

Lemma release_released (free : store -> disk -> store) (act : list disk) :
  forall s, PassSpec.released free s act (release free s act).
Proof.
  induction act as [|d act IH]; intros s; cbn [release fold_left].
  - constructor.
  - constructor. apply IH.
Qed.

End PassSpecFacts.

(** C2. InOrder's commit walks the queue in order and never raises.  An
    edge (u, v) is applied exactly when it is still present in the graph
    and u and v have a free slot (only u being checked when u = v): then
    both endpoints are reserved (by one reservation when u = v), one edge
    between u and v leaves the graph and its transfer record is emitted.
    An edge failing a check is skipped: the graph and every availability
    stay as they are.  After the full pass every endpoint that became
    active is released, in the order it became active. *)
Theorem do_work_is_commit (free : store -> disk -> store)
  (g : graph) (s : store) (queue : list edge) :
  exists (g' : graph) (s1 s' : store) (act : list disk) (rec : list edge),
    InOrder.do_work free g s queue = Ok (g', s', rec)
    /\ PassSpec.pass g s queue g' s1 act rec
    /\ PassSpec.released free s1 act s'.
Proof.
  exists (CommitSpec.o_graph (CommitSpec.commit g s queue)),
         (CommitSpec.o_store (CommitSpec.commit g s queue)),
         (InOrder.release free
            (CommitSpec.o_store (CommitSpec.commit g s queue))
            (CommitSpec.o_active (CommitSpec.commit g s queue))),
         (CommitSpec.o_active (CommitSpec.commit g s queue)),
         (CommitSpec.o_records (CommitSpec.commit g s queue)).
  split; [|split].
  - unfold InOrder.do_work. rewrite pass_commit. reflexivity.
  - apply commit_pass.
  - apply release_released.
Qed.

(** ** What a pass does to the edges and to the free slots *)

Section PassFacts.
Import InOrder CommitSpec.

Lemma joins_norm (u v : disk) (x : edge) :
  MG.joins u v x = true -> norm_edge x = norm_edge (u, v).
Proof.
  destruct x as [a b]. unfold MG.joins, norm_edge; simpl.
  rewrite orb_true_iff, !andb_true_iff, !Nat.eqb_eq.
  intros [[-> ->]|[-> ->]]; [reflexivity|].
  destruct (v <=? u)%nat eqn:E1, (u <=? v)%nat eqn:E2; try reflexivity.
  - apply Nat.leb_le in E1, E2. assert (u = v) by lia. now subst.
  - apply Nat.leb_gt in E1, E2. lia.
Qed.

(** the edges before a pass are the transfers of the pass together with
    the edges it leaves, endpoint order aside *)
Lemma commit_conserves (queue : list edge) :
  forall g s,
    Permutation (map norm_edge (MG.links g))
                (map norm_edge (o_records (commit g s queue))
                 ++ map norm_edge (MG.links (o_graph (commit g s queue)))).
Proof.
  induction queue as [|e queue IH]; intros g s; simpl; [reflexivity|].
  destruct (admissible g s e) eqn:Adm; [|apply IH].
  simpl. unfold admissible in Adm.
  apply andb_true_iff in Adm as [Adm _].
  apply andb_true_iff in Adm as [He _].
  destruct (remove_last_some _ _ He) as [r Hr].
  destruct (remove_last_perm _ _ Hr) as [x [Jx P]].
  specialize (IH (remove_one g (fst e) (snd e))
                 (fold_left reserve (endpoints e) s)).
  unfold remove_one in *. rewrite Hr in *. simpl in IH.
  rewrite <- IH. rewrite (Permutation_map norm_edge P). simpl.
  rewrite (joins_norm _ _ _ Jx). destruct e; reflexivity.
Qed.

Lemma occurrences_app (d : disk) (l1 l2 : list disk) :
  occurrences d (l1 ++ l2) = (occurrences d l1 + occurrences d l2)%nat.
Proof. unfold occurrences. now rewrite filter_app, length_app. Qed.

(** the slots of [d] taken by applying [e] *)
Lemma reserve_endpoints (s : store) (e : edge) (d : disk) :
  avail (fold_left reserve (endpoints e) s) d =
  avail s d - Z.of_nat (occurrences d (endpoints e)).
Proof.
  destruct e as [u v]. unfold endpoints, occurrences; simpl.
  destruct (Nat.eqb u v) eqn:E; simpl.
  - destruct (Nat.eqb d u) eqn:Du; simpl; [|lia].
    apply Nat.eqb_eq in Du. subst. lia.
  - destruct (Nat.eqb d u) eqn:Du.
    + apply Nat.eqb_eq in Du. subst d. rewrite E. simpl. lia.
    + destruct (Nat.eqb d v) eqn:Dv; simpl; [|lia].
      apply Nat.eqb_eq in Dv. subst d. rewrite Nat.eqb_sym, E. lia.
Qed.

(** an applied edge finds a free slot on each endpoint it reserves *)
Lemma admissible_slots (g : graph) (s : store) (e : edge) (d : disk) :
  admissible g s e = true ->
  Z.of_nat (occurrences d (endpoints e)) <= Z.max 0 (avail s d) /\
  (occurrences d (endpoints e) <= 1)%nat.
Proof.
  unfold admissible. destruct e as [u v]; simpl.
  rewrite !andb_true_iff. intros [[_ Hu] Hv]. apply Z.ltb_lt in Hu.
  unfold endpoints, occurrences; simpl.
  destruct (Nat.eqb u v) eqn:E; simpl.
  - destruct (Nat.eqb d u) eqn:Du; simpl; [|lia].
    apply Nat.eqb_eq in Du. subst. lia.
  - apply Z.ltb_lt in Hv. apply Nat.eqb_neq in E.
    destruct (Nat.eqb d u) eqn:Du, (Nat.eqb d v) eqn:Dv; simpl;
      try rewrite Nat.eqb_eq in *; subst; try congruence; lia.
Qed.

(** the availability after the pass, before the release, is the one at the
    start less the reservations, and no more slots are reserved on a disk
    than it had free *)
Lemma commit_slots (queue : list edge) :
  forall g s d,
    avail (o_store (commit g s queue)) d =
    avail s d - Z.of_nat (occurrences d (o_active (commit g s queue))) /\
    Z.of_nat (occurrences d (o_active (commit g s queue)))
    <= Z.max 0 (avail s d).
Proof.
  induction queue as [|e queue IH]; intros g s d; simpl.
  - unfold occurrences; simpl. lia.
  - destruct (admissible g s e) eqn:Adm; [|apply IH].
    simpl. rewrite occurrences_app.
    destruct (IH (remove_one g (fst e) (snd e))
                 (fold_left reserve (endpoints e) s) d) as [E1 E2].
    rewrite reserve_endpoints in E1, E2.
    destruct (@admissible_slots g s e d Adm) as [B1 B2]. lia.
Qed.

Lemma step_no_slot (st : pass) (e : edge) :
  avail (p_store st) (fst e) <= 0 \/ avail (p_store st) (snd e) <= 0 ->
  step st e = Ok st.
Proof.
  intros Hno. apply step_skipped. unfold admissible.
  destruct e as [u v]; simpl in *.
  destruct (Nat.eqb u v) eqn:E.
  - apply Nat.eqb_eq in E. subst v.
    assert (Hu : (0 <? avail (p_store st) u) = false)
      by (apply Z.ltb_ge; lia).
    rewrite Hu. now rewrite andb_false_r.
  - destruct Hno as [Hu|Hv].
    + assert (Hu' : (0 <? avail (p_store st) u) = false)
        by (apply Z.ltb_ge; lia).
      rewrite Hu'. now rewrite andb_false_r.
    + assert (Hv' : (0 <? avail (p_store st) v) = false)
        by (apply Z.ltb_ge; lia).
      rewrite Hv'. now rewrite andb_false_r.
Qed.

End PassFacts.

(** C4, as stated, fails: a disk with two free slots is reserved twice in
    one pass.  On the triangle with capacity 2 the queue A-B, B-C, A-C is
    applied in full; B is already reserved by A-B when B-C arrives, and
    B-C passes the availability check all the same. *)
Lemma triangle_reserves_twice :
  exists st,
    foldM InOrder.step [(0, 1); (1, 2); (0, 2)]%nat
          (InOrder.mkPass Inputs.triangle (Inputs.uniform 2) [] []) = Ok st
    /\ InOrder.p_printed st = [(0, 1); (1, 2); (0, 2)]%nat
    /\ ~ (occurrences 1%nat (InOrder.p_working st) <= 1)%nat.
Proof.
  eexists. split; [reflexivity|]. split; [reflexivity|].
  vm_compute. intros Hle. apply Nat.leb_le in Hle. discriminate.
Qed.

(** C4, amended.  One pass of InOrder's commit never raises and reserves a
    disk at most as often as the disk has free slots when the pass starts
    (so at most once a disk with one free slot): the availability before
    the release is the one at the start less the reservations.  A queued
    edge touching a disk whose slots are used up fails the availability
    check and is left as it is. *)
Theorem pass_reserves_within_slots (g : graph) (s : store)
  (queue : list edge) :
  exists st,
    foldM InOrder.step queue (InOrder.mkPass g s [] []) = Ok st
    /\ (forall d,
          avail (InOrder.p_store st) d =
          avail s d - Z.of_nat (occurrences d (InOrder.p_working st))
          /\ Z.of_nat (occurrences d (InOrder.p_working st))
             <= Z.max 0 (avail s d))
    /\ (forall st' e,
          avail (InOrder.p_store st') (fst e) <= 0
          \/ avail (InOrder.p_store st') (snd e) <= 0 ->
          InOrder.step st' e = Ok st').
Proof.
  eexists. split; [apply pass_commit|]. split.
  - intros d. simpl. apply commit_slots.
  - intros st' e. apply step_no_slot.
Qed.

Lemma pass_reserves_within_slots_witness :
  exists st,
    foldM InOrder.step [(0, 1); (0, 1)]%nat
          (InOrder.mkPass Inputs.two_parallel (Inputs.uniform 1) [] [])
    = Ok st
    /\ Z.of_nat (occurrences 0%nat (InOrder.p_working st)) <= 1
    /\ InOrder.step st (0, 1)%nat = Ok st.
Proof.
  destruct (pass_reserves_within_slots Inputs.two_parallel
              (Inputs.uniform 1) [(0, 1); (0, 1)]%nat)
    as [st [Hst [Hslots Hdefer]]].
  exists st. split; [exact Hst|]. split.
  - destruct (Hslots 0%nat) as [_ Hle]. exact Hle.
  - apply Hdefer. left.
    rewrite pass_commit in Hst. inversion Hst; subst st. vm_compute.
    discriminate.
Defined.

(** ** Edge conservation over the rounds *)

(** C3, as stated, fails for two strategies.  Greedy's commit applies a
    non-empty queue without touching the graph: the transfer A-B is printed
    and the edge A-B is still there.  Bipartite's selection changes the
    demand before any commit: on the path A-B-C with capacity 2 the first
    [gen_edges] leaves an edge A-C in the graph that was never demanded. *)
Lemma commit_is_not_the_only_writer :
  (Greedy.do_work Inputs.one_edge [(0, 1)%nat]
   = (Inputs.one_edge, [(0, 1)%nat])
   /\ MG.has_edge Inputs.one_edge 0%nat 1%nat = true)
  /\ (exists q st g' s',
         Bipartite.gen_edges
           (fun _ => Ok [(0, 1); (1, 2); (2, 0)]%nat) (fun _ => [])
           Bipartite.init Inputs.path3 (Inputs.uniform 2)
         = Ok (q, st, g', s')
         /\ MG.has_edge Inputs.path3 0%nat 2%nat = false
         /\ MG.has_edge g' 0%nat 2%nat = true).
Proof.
  split.
  - split; reflexivity.
  - do 4 eexists. split; [reflexivity|]. split; reflexivity.
Qed.

Section RoundFacts.
Variable free : store -> disk -> store.

Lemma rounds_conserve (qs : list (list edge)) :
  forall g s,
  exists g' s' printed,
    Driver.rounds free g s qs = Ok (g', s', printed)
    /\ Permutation (map norm_edge (MG.links g))
                   (map norm_edge printed ++ map norm_edge (MG.links g')).
Proof.
  induction qs as [|q qs IH]; intros g s; simpl.
  - exists g, s, []. split; reflexivity.
  - unfold InOrder.do_work. rewrite pass_commit. simpl.
    destruct (IH (CommitSpec.o_graph (CommitSpec.commit g s q))
                 (InOrder.release free
                    (CommitSpec.o_store (CommitSpec.commit g s q))
                    (CommitSpec.o_active (CommitSpec.commit g s q))))
      as [g' [s' [printed [Hr P]]]].
    rewrite Hr. simpl. do 3 eexists. split; [reflexivity|].
    rewrite map_app, <- app_assoc, <- P.
    apply commit_conserves.
Qed.
End RoundFacts.

(** C3, amended.  For the strategies that commit with InOrder's do_work
    and whose selection leaves the demand graph alone (InOrder,
    EdgeRanking, FlattenAndColor), whatever queues the rounds are given:
    no round raises, and the edges at the start are, endpoint order aside,
    exactly the transfers printed in all rounds together with the edges
    still in the graph; each printed transfer took one edge out.  When the
    graph ends up empty the printed transfers are the original demand, each
    edge once. *)
Theorem rounds_conserve_edges (free : store -> disk -> store)
  (g : graph) (s : store) (qs : list (list edge)) :
  exists g' s' printed,
    Driver.rounds free g s qs = Ok (g', s', printed)
    /\ Permutation (map norm_edge (MG.links g))
                   (map norm_edge printed ++ map norm_edge (MG.links g'))
    /\ (MG.links g' = [] ->
        Permutation (map norm_edge printed) (map norm_edge (MG.links g))).
Proof.
  destruct (rounds_conserve free qs g s) as [g' [s' [printed [Hr P]]]].
  exists g', s', printed. split; [exact Hr|]. split; [exact P|].
  intros Hnil. rewrite Hnil in P. simpl in P. rewrite app_nil_r in P.
  symmetry. exact P.
Qed.

Lemma rounds_conserve_edges_witness :
  exists g' s' printed,
    Driver.rounds Inputs.free_one Inputs.two_parallel (Inputs.uniform 1)
                  [[(0, 1); (0, 1)]; [(1, 0)]]%nat
    = Ok (g', s', printed)
    /\ Permutation (map norm_edge printed)
                   (map norm_edge (MG.links Inputs.two_parallel)).
Proof.
  destruct (rounds_conserve_edges Inputs.free_one Inputs.two_parallel
              (Inputs.uniform 1) [[(0, 1); (0, 1)]; [(1, 0)]]%nat)
    as [g' [s' [printed [Hr [P Hend]]]]].
  exists g', s', printed. split; [exact Hr|].
  apply Hend. vm_compute in Hr. inversion Hr. reflexivity.
Defined.

(** ** Lists without repetition, and what [G.edges()] reports *)

Section DedupFacts.
Context {A : Type} `{EqDec A}.

Lemma dedup_In (x : A) (l : list A) : In x (dedup l) <-> In x l.
Proof.
  induction l as [|y l IH]; simpl; [tauto|].
  rewrite filter_In, IH. split.
  - intros [E|[Hx _]]; auto.
  - intros [E|Hx]; [now left|].
    destruct (eqb x y) eqn:E.
    + apply eqb_eq in E. now left.
    + right. split; [assumption|reflexivity].
Qed.

Lemma NoDup_filter (p : A -> bool) (l : list A) :
  NoDup l -> NoDup (filter p l).
Proof.
  induction 1 as [|x l Hx Hl IH]; simpl; [constructor|].
  destruct (p x); [|assumption].
  constructor; [|assumption]. rewrite filter_In. tauto.
Qed.

Lemma dedup_NoDup (l : list A) : NoDup (dedup l).
Proof.
  induction l as [|y l IH]; simpl; constructor.
  - rewrite filter_In. intros [_ E]. now rewrite eqb_refl in E.
  - now apply NoDup_filter.
Qed.

Lemma occurrences_notIn (x : A) (l : list A) :
  ~ In x l -> occurrences x l = O.
Proof.
  unfold occurrences. induction l as [|y l IH]; simpl; [reflexivity|].
  intros N. destruct (eqb x y) eqn:E.
  - apply eqb_eq in E. subst. tauto.
  - apply IH. tauto.
Qed.

Lemma occurrences_app_gen (x : A) (l1 l2 : list A) :
  occurrences x (l1 ++ l2) = (occurrences x l1 + occurrences x l2)%nat.
Proof. unfold occurrences. now rewrite filter_app, length_app. Qed.

Lemma occurrences_repeat (x y : A) (n : nat) :
  occurrences x (repeat y n) = if eqb x y then n else O.
Proof.
  unfold occurrences. induction n as [|n IH]; simpl.
  - now destruct (eqb x y).
  - destruct (eqb x y) eqn:E; simpl; rewrite IH; reflexivity.
Qed.

Lemma occurrences_pos (x : A) (l : list A) :
  In x l <-> (0 < occurrences x l)%nat.
Proof.
  unfold occurrences. induction l as [|y l IH]; simpl; [split; [tauto|lia]|].
  destruct (eqb x y) eqn:E; simpl.
  - apply eqb_eq in E. subst. split; [lia|auto].
  - apply eqb_neq in E. rewrite <- IH. split; [intros [?|?]; congruence|auto].
Qed.
End DedupFacts.

Section EdgesFacts.
Context {A : Type} `{EqDec A}.

Lemma joins_iff (u v : A) (e : A * A) :
  MG.joins u v e = true <-> e = (u, v) \/ e = (v, u).
Proof.
  destruct e as [a b]. unfold MG.joins; simpl.
  rewrite orb_true_iff, !andb_true_iff, !eqb_eq.
  split; intros [E|E]; [left|right|left|right];
    solve [destruct E; subst; reflexivity | inversion E; auto].
Qed.

Lemma joins_sym (u v : A) (e : A * A) : MG.joins u v e = MG.joins v u e.
Proof. unfold MG.joins. apply orb_comm. Qed.

Lemma mult_sym (ls : list (A * A)) (u v : A) : MG.mult ls u v = MG.mult ls v u.
Proof.
  unfold MG.mult. f_equal. apply filter_ext. intros e. apply joins_sym.
Qed.

Lemma mult_pos (ls : list (A * A)) (u v : A) :
  (0 < MG.mult ls u v)%nat <-> existsb (MG.joins u v) ls = true.
Proof.
  unfold MG.mult. induction ls as [|e ls IH]; simpl.
  - split; [lia|discriminate].
  - destruct (MG.joins u v e); simpl; [split; [reflexivity|lia]|exact IH].
Qed.

(** a neighbour of [n] is joined to [n] by a stored edge *)
Lemma nbrs_In (ls : list (A * A)) (n x : A) :
  In x (MG.nbrs ls n) <-> existsb (MG.joins n x) ls = true.
Proof.
  unfold MG.nbrs. rewrite dedup_In, in_map_iff, existsb_exists. split.
  - intros [e [Ho He]]. apply filter_In in He as [He Hi].
    exists e. split; [assumption|]. apply joins_iff.
    unfold MG.other, MG.incident in *. destruct e as [a b]; simpl in *.
    destruct (eqb a n) eqn:Ea.
    + apply eqb_eq in Ea. subst. now left.
    + simpl in Hi. apply eqb_eq in Hi. subst. now right.
  - intros [e [He J]]. apply joins_iff in J. exists e. split.
    + unfold MG.other. destruct J as [-> | ->]; simpl.
      * now rewrite eqb_refl.
      * destruct (eqb x n) eqn:E; [apply eqb_eq in E; now subst|reflexivity].
    + apply filter_In. split; [assumption|].
      unfold MG.incident. destruct J as [-> | ->]; simpl;
        rewrite eqb_refl; [reflexivity|apply orb_true_r].
Qed.

(** the pairs reported at [n] start at [n] and end at a neighbour that was
    not visited; each such pair comes once per parallel edge *)
Lemma occurrences_edges_at (ls : list (A * A)) (seen : list A) (n u v : A) :
  occurrences (u, v) (MG.edges_at ls seen n) =
  if eqb u n && negb (mem v seen) then MG.mult ls u v else O.
Proof.
  unfold MG.edges_at.
  assert (Hgen : forall l, NoDup l ->
            occurrences (u, v)
              (flat_map (fun nbr => if mem nbr seen then []
                                    else repeat (n, nbr) (MG.mult ls n nbr)) l)
            = if eqb u n && negb (mem v seen) && mem v l
              then MG.mult ls u v else O).
  { induction l as [|x l IH]; intros ND; simpl.
    - now rewrite andb_false_r.
    - inversion ND as [|? ? Hx ND']; subst.
      rewrite occurrences_app_gen, (IH ND').
      destruct (mem x seen) eqn:Sx.
      + change (occurrences (u, v) []) with O. simpl.
        destruct (eqb v x) eqn:Evx.
        * apply eqb_eq in Evx. subst x. rewrite Sx. simpl.
          now rewrite andb_false_r.
        * reflexivity.
      + rewrite occurrences_repeat. simpl.
        rewrite (eqb_sym u n).
        destruct (eqb n u) eqn:Enu; simpl.
        * apply eqb_eq in Enu. subst u.
          destruct (eqb v x) eqn:Evx; simpl.
          -- apply eqb_eq in Evx. subst x. rewrite Sx. simpl.
             apply mem_notIn in Hx. rewrite Hx. simpl. lia.
          -- reflexivity.
        * reflexivity. }
  rewrite (Hgen (MG.nbrs ls n)) by (unfold MG.nbrs; apply dedup_NoDup).
  destruct (eqb u n) eqn:Eu; simpl; [|reflexivity].
  destruct (mem v seen); simpl; [reflexivity|].
  apply eqb_eq in Eu. subst u.
  destruct (mem v (MG.nbrs ls n)) eqn:M; [reflexivity|].
  apply mem_notIn in M. rewrite nbrs_In in M.
  destruct (MG.mult ls n v) eqn:Em; [reflexivity|].
  exfalso. apply M. apply mult_pos. lia.
Qed.

End EdgesFacts.

Section EdgesViewFacts.
Context {A : Type} `{EqDec A}.

Lemma occurrences_edges_from (ls : list (A * A)) (u v : A) (ns : list A) :
  forall seen,
    NoDup ns ->
    occurrences (u, v) (MG.edges_from ls seen ns) =
    if mem u ns && negb (mem v seen) && negb (precedes ns v u)
    then MG.mult ls u v else O.
Proof.
  induction ns as [|n ns IH]; intros seen ND; simpl; [reflexivity|].
  inversion ND as [|? ? Hn ND']; subst.
  rewrite occurrences_app_gen, occurrences_edges_at, (IH _ ND'). simpl.
  rewrite (eqb_sym n u).
  destruct (eqb u n) eqn:Eun; simpl.
  - apply eqb_eq in Eun. subst n. apply mem_notIn in Hn. rewrite Hn. simpl.
    destruct (mem v seen); simpl; lia.
  - rewrite (eqb_sym n v).
    destruct (mem u ns), (eqb v n), (mem v seen), (precedes ns v u);
      simpl; reflexivity.
Qed.

(** a reported pair occurs as often as there are parallel edges *)
Lemma edges_occurrences (g : MG.t A) (u v : A) :
  NoDup (MG.nodes g) -> In (u, v) (MG.edges g) ->
  occurrences (u, v) (MG.edges g) = MG.mult (MG.links g) u v
  /\ In u (MG.nodes g)
  /\ precedes (MG.nodes g) v u = false
  /\ (0 < MG.mult (MG.links g) u v)%nat.
Proof.
  intros ND Hin. apply occurrences_pos in Hin.
  unfold MG.edges in *. rewrite occurrences_edges_from in * by exact ND.
  simpl in *. rewrite andb_true_r in *.
  destruct (mem u (MG.nodes g)) eqn:Mu; simpl in *; [|lia].
  destruct (precedes (MG.nodes g) v u); simpl in *; [lia|].
  apply mem_In in Mu. auto.
Qed.

Lemma precedes_total (ns : list A) (u v : A) :
  In u ns -> In v ns -> u <> v ->
  precedes ns v u = true \/ precedes ns u v = true.
Proof.
  induction ns as [|n ns IH]; simpl; [tauto|].
  intros Hu Hv N.
  destruct (eqb n u) eqn:Eu, (eqb n v) eqn:Ev; simpl;
    try rewrite eqb_eq in *; try rewrite eqb_neq in *.
  - congruence.
  - now right.
  - now left.
  - apply IH; [destruct Hu|destruct Hv|]; congruence.
Qed.

(** every stored edge is reported, from one of its endpoints *)
Lemma edges_complete (g : MG.t A) (u v : A) :
  MG.wf g -> MG.has_edge g u v = true ->
  In (u, v) (MG.edges g) \/ In (v, u) (MG.edges g).
Proof.
  intros [ND Hwf] He.
  assert (Hm : (0 < MG.mult (MG.links g) u v)%nat) by now apply mult_pos.
  unfold MG.has_edge in He. apply existsb_exists in He as [e [Hin J]].
  apply joins_iff in J. destruct (Hwf e Hin) as [H1 H2].
  assert (Hu : In u (MG.nodes g)) by (destruct J; subst; assumption).
  assert (Hv : In v (MG.nodes g)) by (destruct J; subst; assumption).
  rewrite !occurrences_pos. unfold MG.edges.
  rewrite !occurrences_edges_from by exact ND. simpl. rewrite !andb_true_r.
  apply mem_In in Hu, Hv. rewrite Hu, Hv. simpl.
  rewrite (mult_sym _ v u).
  destruct (precedes (MG.nodes g) v u) eqn:P1; simpl; [|now left].
  destruct (precedes (MG.nodes g) u v) eqn:P2; simpl; [|now right].
  exfalso. clear - P1 P2.
  induction (MG.nodes g) as [|n ns IH]; simpl in *; [discriminate|].
  destruct (eqb n u) eqn:Eu; [discriminate|].
  destruct (eqb n v) eqn:Ev; [discriminate|].
  simpl in *. auto.
Qed.

(** both endpoints of a reported pair are nodes *)
Lemma edges_endpoints (g : MG.t A) (u v : A) :
  MG.wf g -> In (u, v) (MG.edges g) ->
  In u (MG.nodes g) /\ In v (MG.nodes g).
Proof.
  intros [ND Hwf] Hin.
  destruct (edges_occurrences g u v ND Hin) as [_ [Hu [_ Hm]]].
  split; [assumption|].
  apply mult_pos, existsb_exists in Hm as [e [He J]].
  apply joins_iff in J. destruct (Hwf e He) as [H1 H2].
  destruct J; subst; assumption.
Qed.

(** the two directions of one edge are never both reported *)
Lemma edges_one_direction (g : MG.t A) (u v : A) :
  MG.wf g -> In (u, v) (MG.edges g) -> In (v, u) (MG.edges g) -> u = v.
Proof.
  intros W H1 H2. destruct W as [ND Hwf].
  destruct (edges_occurrences g u v ND H1) as [_ [Hu [P1 _]]].
  destruct (edges_occurrences g v u ND H2) as [_ [Hv [P2 _]]].
  destruct (eqb u v) eqn:E; [now apply eqb_eq in E|].
  apply eqb_neq in E.
  destruct (precedes_total _ Hu Hv E); congruence.
Qed.

End EdgesViewFacts.

(** ** Comprehensions, dicts and [sorted] *)

Section BuiltinFacts.

Lemma mapM_ok {X Y} (f : X -> result Y) (h : X -> Y) (l : list X) :
  (forall x, In x l -> f x = Ok (h x)) -> mapM f l = Ok (map h l).
Proof.
  induction l as [|x l IH]; intros Hf; simpl; [reflexivity|].
  rewrite (Hf x (or_introl eq_refl)). simpl.
  rewrite IH by (intros y Hy; apply Hf; now right). reflexivity.
Qed.

Lemma lookup_map {K V} `{EqDec K} (h : K -> V) (k : K) (ks : list K) :
  In k ks -> lookup k (map (fun n => (n, h n)) ks) = Ok (h k).
Proof.
  induction ks as [|n ks IH]; simpl; [tauto|].
  intros Hk. destruct (eqb k n) eqn:E.
  - apply eqb_eq in E. now subst.
  - apply eqb_neq in E. apply IH. destruct Hk; congruence.
Qed.

Context {X : Type} (key : X -> Z).

Lemma insert_sorted_perm (x : X) (l : list X) :
  Permutation (insert_sorted key x l) (x :: l).
Proof.
  induction l as [|y l IH]; simpl; [reflexivity|].
  destruct (key x <=? key y); [reflexivity|].
  rewrite IH. apply perm_swap.
Qed.

Lemma sorted_perm (l : list X) : Permutation (sorted key l) l.
Proof.
  induction l as [|x l IH]; simpl; [reflexivity|].
  rewrite insert_sorted_perm. now constructor.
Qed.

Lemma insert_sorted_ordered (x : X) (l : list X) :
  StronglySorted (fun a b => key a <= key b) l ->
  StronglySorted (fun a b => key a <= key b) (insert_sorted key x l).
Proof.
  induction 1 as [|y l Hl IH Hy]; simpl.
  - constructor; constructor.
  - destruct (key x <=? key y) eqn:E.
    + apply Z.leb_le in E. constructor.
      * now constructor.
      * constructor; [assumption|].
        eapply Forall_impl; [|exact Hy]. simpl. intros; lia.
    + apply Z.leb_gt in E. constructor; [assumption|].
      eapply Permutation_Forall; [symmetry; apply insert_sorted_perm|].
      constructor; [lia|assumption].
Qed.

Lemma sorted_ordered (l : list X) :
  StronglySorted (fun a b => key a <= key b) (sorted key l).
Proof.
  induction l as [|x l IH]; simpl; [constructor|].
  now apply insert_sorted_ordered.
Qed.

(** equal keys keep the order of the input *)
Lemma insert_sorted_stable (k : Z) (x : X) (l : list X) :
  filter (fun a => key a =? k) (insert_sorted key x l) =
  filter (fun a => key a =? k) (x :: l).
Proof.
  induction l as [|y l IH]; simpl; [reflexivity|].
  destruct (key x <=? key y) eqn:E; [reflexivity|].
  apply Z.leb_gt in E. simpl. rewrite IH. simpl.
  destruct (key x =? k) eqn:Ex, (key y =? k) eqn:Ey; try reflexivity.
  apply Z.eqb_eq in Ex, Ey. lia.
Qed.

Lemma sorted_stable (k : Z) (l : list X) :
  filter (fun a => key a =? k) (sorted key l) =
  filter (fun a => key a =? k) l.
Proof.
  induction l as [|x l IH]; simpl; [reflexivity|].
  rewrite insert_sorted_stable. simpl. now rewrite IH.
Qed.

End BuiltinFacts.

(** ** EdgeRanking.gen_edges *)

Section RankFacts.
Import RankSpec.

Lemma ceil_div_ok (a b : Z) : b <> 0 -> ceil_div a b = Ok (ceil_quot a b).
Proof.
  intros Hb. unfold ceil_div. apply Z.eqb_neq in Hb. now rewrite Hb.
Qed.

(** up to 2^53 no quotient underflows *)
Lemma no_underflow (a b : Z) : b <= Exact.bound -> underflows a b = false.
Proof.
  unfold underflows, Exact.bound. intros Hb.
  destruct (0 <? a) eqn:A; [|reflexivity]. apply Z.ltb_lt in A.
  cbn [andb]. apply Z.leb_gt.
  assert (P : 2 ^ 53 < 2 ^ 1075) by (apply Z.pow_lt_mono_r; lia).
  set (M := 2 ^ 1075) in *. set (N := 2 ^ 53) in *. nia.
Qed.

Lemma ceil_quot_exact (a b : Z) :
  b <= Exact.bound -> ceil_quot a b = - ((- a) / b).
Proof. intros Hb. unfold ceil_quot. now rewrite no_underflow. Qed.

(** the float quotient never lifts the ceiling *)
Lemma ceil_quot_le (a b : Z) : 0 < b -> ceil_quot a b <= - ((- a) / b).
Proof.
  intros Hb. unfold ceil_quot, underflows.
  destruct (0 <? a) eqn:A; cbn [andb]; [|lia].
  destruct (a * 2 ^ 1075 <=? b); [|lia].
  apply Z.ltb_lt in A.
  assert ((- a) / b < 0) by (apply Z.div_lt_upper_bound; lia). lia.
Qed.

Lemma ratio_exact (g : graph) (s : store) (d : disk) :
  cv s d <= Exact.bound -> Scheduler.ratio g s d = weight g s d.
Proof. intros Hb. unfold Scheduler.ratio, weight. now apply ceil_quot_exact. Qed.

Lemma ratio_le (g : graph) (s : store) (d : disk) :
  0 < cv s d -> Scheduler.ratio g s d <= weight g s d.
Proof. intros Hb. unfold Scheduler.ratio, weight. now apply ceil_quot_le. Qed.

Lemma dv_cv_ok (g : graph) (s : store) :
  (forall d, In d (MG.nodes g) -> cv s d <> 0) ->
  EdgeRanking.dv_cv g s
  = Ok (map (fun n => (n, Scheduler.ratio g s n)) (MG.nodes g)).
Proof.
  intros Hcv. unfold EdgeRanking.dv_cv, MG.degree_view.
  rewrite (mapM_ok _ (fun d => (fst d, ceil_quot (snd d) (cv s (fst d))))).
  - now rewrite map_map.
  - intros x Hx. apply in_map_iff in Hx as [n [<- Hn]]. simpl.
    now rewrite ceil_div_ok by auto.
Qed.

Lemma dv_cv_exact (g : graph) (s : store) :
  Exact.in_range g s ->
  EdgeRanking.dv_cv g s = Ok (map (fun n => (n, weight g s n)) (MG.nodes g)).
Proof.
  intros R. rewrite dv_cv_ok by (intros d Hd; destruct (R d Hd); lia).
  f_equal. apply map_ext_in. intros d Hd. f_equal.
  apply ratio_exact. destruct (R d Hd); lia.
Qed.

Lemma weighted_any (g : graph) (w : disk -> Z) :
  MG.wf g ->
  mapM (fun e : edge =>
          a <- lookup (fst e) (map (fun n => (n, w n)) (MG.nodes g)) ;;
          b <- lookup (snd e) (map (fun n => (n, w n)) (MG.nodes g)) ;;
          Ok (a + b, e)) (MG.edges g)
  = Ok (map (fun e => (w (fst e) + w (snd e), e)) (MG.edges g)).
Proof.
  intros W. apply mapM_ok. intros [u v] Hin.
  destruct (edges_endpoints u v W Hin) as [Hu Hv]. simpl.
  rewrite (lookup_map w u _ Hu). simpl.
  rewrite (lookup_map w v _ Hv). reflexivity.
Qed.

Lemma weighted_ok (g : graph) (s : store) :
  MG.wf g ->
  mapM (fun e : edge =>
          a <- lookup (fst e) (map (fun n => (n, weight g s n)) (MG.nodes g)) ;;
          b <- lookup (snd e) (map (fun n => (n, weight g s n)) (MG.nodes g)) ;;
          Ok (a + b, e)) (MG.edges g)
  = Ok (map (fun e => (score g s e, e)) (MG.edges g)).
Proof. intros W. exact (@weighted_any g (weight g s) W). Qed.

Lemma ranked_fst (g : graph) (s : store) (l : list edge) (p : Z * edge) :
  In p (sorted fst (map (fun e => (score g s e, e)) l)) ->
  fst p = score g s (snd p).
Proof.
  intros Hp.
  apply (Permutation_in _ (sorted_perm fst _)) in Hp.
  apply in_map_iff in Hp as [e [<- _]]. reflexivity.
Qed.

Lemma StronglySorted_map_snd (g : graph) (s : store) (l : list (Z * edge)) :
  (forall p, In p l -> fst p = score g s (snd p)) ->
  StronglySorted (fun a b => fst a <= fst b) l ->
  StronglySorted (fun a b => score g s a <= score g s b) (map snd l).
Proof.
  intros Hfst Hs. induction Hs as [|p l Hl IH Hp]; simpl; constructor.
  - apply IH. intros q Hq. apply Hfst. now right.
  - apply Forall_map. rewrite Forall_forall in *. intros q Hq.
    rewrite <- (Hfst p (or_introl eq_refl)), <- (Hfst q (or_intror Hq)).
    now apply Hp.
Qed.

Lemma filter_map_snd (g : graph) (s : store) (k : Z) (l : list (Z * edge)) :
  (forall p, In p l -> fst p = score g s (snd p)) ->
  filter (fun e => score g s e =? k) (map snd l) =
  map snd (filter (fun p => fst p =? k) l).
Proof.
  induction l as [|p l IH]; intros Hfst; simpl; [reflexivity|].
  rewrite <- (Hfst p (or_introl eq_refl)).
  rewrite IH by (intros q Hq; apply Hfst; now right).
  now destruct (fst p =? k).
Qed.

End RankFacts.

(** EdgeRanking within the exact range.  On a graph whose disks have a
    positive capacity, with capacities and degrees up to 2^53 (where the
    float quotient of dv_cv is exact), gen_edges returns the edges of the
    graph, each as often as [graph.edges()] lists it, in ascending order of
    the score w(u) + w(v) with w(d) = ceil(degree(d) / capacity(d)) taken
    on the graph as it is; edges of equal score keep the order of
    [graph.edges()]. *)
Theorem gen_edges_ranks (g : graph) (s : store) :
  MG.wf g ->
  Exact.in_range g s ->
  exists q,
    EdgeRanking.gen_edges g s = Ok q
    /\ Permutation q (MG.edges g)
    /\ StronglySorted
         (fun a b => RankSpec.score g s a <= RankSpec.score g s b) q
    /\ forall k,
         filter (fun e => RankSpec.score g s e =? k) q =
         filter (fun e => RankSpec.score g s e =? k) (MG.edges g).
Proof.
  intros W R. unfold EdgeRanking.gen_edges.
  rewrite (@dv_cv_exact g s R). simpl.
  rewrite (weighted_ok s W). simpl.
  eexists. split; [reflexivity|].
  set (weighted := map (fun e => (RankSpec.score g s e, e)) (MG.edges g)).
  assert (Hsnd : map snd weighted = MG.edges g).
  { unfold weighted. rewrite map_map. simpl. apply map_id. }
  split; [|split].
  - transitivity (map snd weighted); [|now rewrite Hsnd].
    apply Permutation_map, sorted_perm.
  - apply StronglySorted_map_snd.
    + intros p Hp. eapply ranked_fst. exact Hp.
    + apply sorted_ordered.
  - intros k. rewrite filter_map_snd.
    + rewrite sorted_stable.
      transitivity (filter (fun e => RankSpec.score g s e =? k)
                           (map snd weighted)); [|now rewrite Hsnd].
      symmetry. apply filter_map_snd.
      intros p Hp. apply in_map_iff in Hp as [e [<- _]]. reflexivity.
    + intros p Hp. eapply ranked_fst. exact Hp.
Qed.

(** on the paw with capacity 1 the scores of [graph.edges()] are 4, 5, 5
    and 4: the edge 2-3 moves before 0-2 and 0-3, which keep their order *)
Lemma gen_edges_ranks_witness :
  map (RankSpec.score Inputs.paw (Inputs.uniform 1)) (MG.edges Inputs.paw)
  = [4; 5; 5; 4]
  /\ EdgeRanking.gen_edges Inputs.paw (Inputs.uniform 1)
     = Ok [(0, 1); (2, 3); (0, 2); (0, 3)]%nat
  /\ exists q,
       EdgeRanking.gen_edges Inputs.paw (Inputs.uniform 1) = Ok q
       /\ Permutation q (MG.edges Inputs.paw)
       /\ StronglySorted
            (fun a b => RankSpec.score Inputs.paw (Inputs.uniform 1) a
                        <= RankSpec.score Inputs.paw (Inputs.uniform 1) b) q
       /\ forall k,
            filter (fun e => RankSpec.score Inputs.paw (Inputs.uniform 1) e
                             =? k) q =
            filter (fun e => RankSpec.score Inputs.paw (Inputs.uniform 1) e
                             =? k) (MG.edges Inputs.paw).
Proof.
  split; [reflexivity|]. split; [reflexivity|].
  apply (@gen_edges_ranks Inputs.paw (Inputs.uniform 1)).
  - split.
    + constructor; [intros [X|[X|[X|[]]]]; discriminate|].
      constructor; [intros [X|[X|[]]]; discriminate|].
      constructor; [intros [X|[]]; discriminate|].
      constructor; [intros []|constructor].
    + intros e He. cbn [Inputs.paw MG.links In] in He.
      destruct He as [<-|[<-|[<-|[<-|[]]]]];
        cbn [fst snd Inputs.paw MG.nodes In]; split; auto 10.
  - intros d Hd. split; [cbn [Inputs.uniform cv]; unfold Exact.bound; lia|].
    cbn [Inputs.paw MG.nodes In] in Hd.
    destruct Hd as [<-|[<-|[<-|[<-|[]]]]]; vm_compute; discriminate.
Defined.

(** C9 fails on the code for a capacity beyond the floats.  With disk 0 of
    capacity 10^400 and the others of capacity 1, the quotient 1 / 10^400
    of dv_cv underflows and disk 0 weighs 0 instead of 1: gen_edges sorts
    the edges 0-1, 1-4, 2-3 by the keys 2, 3, 2 and returns 0-1, 2-3, 1-4,
    whose scores w(u) + w(v) with w(d) = ceil(degree(d) / capacity(d)) are
    3, 2, 3, not ascending. *)
Theorem edge_ranking_underflow :
  MG.edges Inputs.three_edges = [(0, 1); (1, 4); (2, 3)]%nat
  /\ EdgeRanking.dv_cv Inputs.three_edges Inputs.one_huge
     = Ok [(0%nat, 0); (1%nat, 2); (2%nat, 1); (3%nat, 1); (4%nat, 1)]
  /\ EdgeRanking.gen_edges Inputs.three_edges Inputs.one_huge
     = Ok [(0, 1); (2, 3); (1, 4)]%nat
  /\ map (RankSpec.score Inputs.three_edges Inputs.one_huge)
         [(0, 1); (2, 3); (1, 4)]%nat
     = [3; 2; 3].
Proof. repeat split; vm_compute; reflexivity. Qed.

(** ** Degrees *)

Section DegreeFacts.
Context {A : Type} `{EqDec A}.

Lemma degree_links (ns ns' : list A) (ls : list (A * A)) (n : A) :
  MG.degree (MG.mk ns ls) n = MG.degree (MG.mk ns' ls) n.
Proof. reflexivity. Qed.

Lemma degree_app (ns : list A) (l1 l2 : list (A * A)) (n : A) :
  MG.degree (MG.mk ns (l1 ++ l2)) n =
  MG.degree (MG.mk ns l1) n + MG.degree (MG.mk ns l2) n.
Proof.
  unfold MG.degree; simpl. induction l1 as [|e l1 IH]; simpl; [lia|].
  rewrite IH. lia.
Qed.

Lemma add_node_links (g : MG.t A) (n : A) :
  MG.links (MG.add_node g n) = MG.links g.
Proof. unfold MG.add_node. now destruct (mem n (MG.nodes g)). Qed.

Lemma add_node_known (g : MG.t A) (n : A) :
  In n (MG.nodes g) -> MG.add_node g n = g.
Proof. intros Hn. unfold MG.add_node. apply mem_In in Hn. now rewrite Hn. Qed.

Lemma add_edge_known (g : MG.t A) (u v : A) :
  In u (MG.nodes g) -> In v (MG.nodes g) ->
  MG.add_edge g u v = MG.mk (MG.nodes g) (MG.links g ++ [(u, v)]).
Proof.
  intros Hu Hv. unfold MG.add_edge.
  rewrite (add_node_known g u Hu), (add_node_known g v Hv). reflexivity.
Qed.

Lemma add_edge_links (g : MG.t A) (u v : A) :
  MG.links (MG.add_edge g u v) = MG.links g ++ [(u, v)].
Proof. unfold MG.add_edge; simpl. now rewrite !add_node_links. Qed.

Lemma degree_add_edge (g : MG.t A) (u v n : A) :
  MG.degree (MG.add_edge g u v) n = MG.degree g n + ends_at n (u, v).
Proof.
  unfold MG.degree. rewrite add_edge_links.
  induction (MG.links g) as [|e l IH]; simpl.
  - unfold ends_at; simpl. lia.
  - rewrite IH. lia.
Qed.

Lemma degree_nonneg (g : MG.t A) (n : A) : 0 <= MG.degree g n.
Proof.
  unfold MG.degree. induction (MG.links g) as [|e l IH]; simpl; [lia|].
  destruct (eqb (fst e) n), (eqb (snd e) n); lia.
Qed.

End DegreeFacts.

(** ** Bipartite: parity relaxation and the normalized maximum degree *)

Section RelaxFacts.
Import Bipartite.

Lemma relax_disk_cv (s : store) (n d : disk) :
  cv (relax_disk s n) d =
  if Nat.eqb d n then cv s d - cv s d mod 2 else cv s d.
Proof.
  unfold relax_disk. destruct (Nat.eqb d n) eqn:E.
  - apply Nat.eqb_eq in E. subst n.
    destruct (cv s d mod 2 =? 0) eqn:M.
    + apply Z.eqb_eq in M. lia.
    + apply Z.eqb_neq in M. simpl. rewrite Nat.eqb_refl.
      pose proof (Z.mod_pos_bound (cv s d) 2). lia.
  - destruct (cv s n mod 2 =? 0); [reflexivity|]. simpl. now rewrite E.
Qed.

Lemma even_part_idem (c : Z) :
  (c - c mod 2) - (c - c mod 2) mod 2 = c - c mod 2.
Proof.
  assert (E : (c - c mod 2) mod 2 = 0).
  { rewrite Zminus_mod_idemp_r. rewrite Z.sub_diag. reflexivity. }
  lia.
Qed.

(** every node ends with the even part of its capacity *)
Lemma relax_cv_fold (l : list disk) :
  forall s d,
    cv (fold_left relax_disk l s) d =
    if mem d l then cv s d - cv s d mod 2 else cv s d.
Proof.
  induction l as [|n l IH]; intros s d; simpl; [reflexivity|].
  rewrite IH, relax_disk_cv.
  destruct (Nat.eqb d n) eqn:E; simpl.
  - rewrite even_part_idem. now destruct (mem d l).
  - reflexivity.
Qed.

Lemma relax_cv (g : graph) (s : store) (d : disk) :
  In d (MG.nodes g) -> cv (relax g s) d = cv s d - cv s d mod 2.
Proof.
  intros Hd. unfold relax. rewrite relax_cv_fold.
  apply mem_In in Hd. now rewrite Hd.
Qed.

Lemma relax_cv_even (g : graph) (s : store) (d : disk) :
  In d (MG.nodes g) -> 2 <= cv s d ->
  2 <= cv (relax g s) d /\ cv (relax g s) d mod 2 = 0.
Proof.
  intros Hd Hc. rewrite (relax_cv g s d Hd).
  pose proof (Z.mod_pos_bound (cv s d) 2).
  assert (E : (cv s d - cv s d mod 2) mod 2 = 0).
  { rewrite Zminus_mod_idemp_r. rewrite Z.sub_diag. reflexivity. }
  split; [|exact E].
  destruct (Z.eq_dec (cv s d) 2) as [->|N]; [reflexivity|lia].
Qed.

Lemma mapM_raise {X Y} (f : X -> result Y) (e : error) (l : list X) :
  (forall x, In x l -> f x = Raise e \/ exists y, f x = Ok y) ->
  (exists x, In x l /\ f x = Raise e) ->
  mapM f l = Raise e.
Proof.
  induction l as [|x l IH]; intros Hall [x0 [Hin Hx0]]; simpl; [destruct Hin|].
  destruct (Hall x (or_introl eq_refl)) as [Hr|[y Hy]].
  - now rewrite Hr.
  - rewrite Hy; simpl. rewrite IH; [reflexivity| |].
    + intros z Hz. apply Hall. now right.
    + destruct Hin as [->|Hin]; [congruence|eauto].
Qed.

(** a node of capacity zero makes [max_d] divide by zero *)
Lemma max_d_zero (g : graph) (s : store) (d : disk) :
  In d (MG.nodes g) -> cv s d = 0 ->
  Scheduler.max_d g s = Raise ZeroDivisionError.
Proof.
  intros Hd Hz. unfold Scheduler.max_d.
  rewrite (@mapM_raise _ _ _ ZeroDivisionError); [reflexivity| |].
  - intros x _. unfold ceil_div. destruct (cv s (fst x) =? 0); eauto.
  - exists (d, MG.degree g d). split.
    + unfold MG.degree_view. apply in_map_iff. eauto.
    + simpl. unfold ceil_div. now rewrite Hz.
Qed.

Lemma max_d_nonzero (g : graph) (s : store) :
  (forall d, In d (MG.nodes g) -> cv s d <> 0) ->
  Scheduler.max_d g s = py_max (map (Scheduler.ratio g s) (MG.nodes g)).
Proof.
  intros Hcv. unfold Scheduler.max_d, MG.degree_view.
  rewrite (mapM_ok _ (fun d => ceil_quot (snd d) (cv s (fst d)))).
  - simpl. now rewrite map_map.
  - intros x Hx. apply in_map_iff in Hx as [n [<- Hn]]. simpl.
    now rewrite ceil_div_ok by auto.
Qed.

(** with capacities up to 2^53 the ratios are the exact ceilings *)
Lemma max_d_exact (g : graph) (s : store) :
  (forall d, In d (MG.nodes g) -> cv s d <> 0 /\ cv s d <= Exact.bound) ->
  Scheduler.max_d g s = py_max (map (RankSpec.weight g s) (MG.nodes g)).
Proof.
  intros Hcv.
  rewrite max_d_nonzero by (intros d Hd; now destruct (Hcv d Hd)).
  f_equal. apply map_ext_in. intros d Hd.
  apply ratio_exact. now destruct (Hcv d Hd).
Qed.

Lemma py_max_not_zero_division (l : list Z) :
  py_max l <> Raise ZeroDivisionError.
Proof. destruct l; simpl; discriminate. Qed.

(** pairing the spares fails only on a spare left alone *)
Lemma pair_spares_raises (sp : list disk) :
  forall g e, pair_spares g sp = Raise e -> e = IndexError.
Proof.
  assert (Hn : forall n sp, (length sp <= n)%nat ->
                 forall g e, pair_spares g sp = Raise e -> e = IndexError).
  { induction n as [|n IH]; intros [|a [|b l]] Hl g e; simpl in *;
      try discriminate; try lia; try (intros E; now inversion E).
    apply IH. lia. }
  apply (Hn (length sp)). lia.
Qed.

End RelaxFacts.

(** C10. The first call of Bipartite's gen_edges raises ZeroDivisionError
    as soon as one device has capacity 1: the relaxation takes the odd
    capacity 1 down to 0 and [max_d] then divides the degree by it, whatever
    the two networkx routines would have returned.  When every device has
    capacity 2 or more no relaxed capacity is zero and the computation of
    the normalized degree, and the whole preparation of the graph, does not
    raise that error. *)
Theorem first_call_needs_capacity_two (g : graph) (s : store) :
  (forall d, In d (MG.nodes g) -> cv s d = 1 ->
             forall ec mf,
               Bipartite.gen_edges ec mf Bipartite.init g s
               = Raise ZeroDivisionError)
  /\ ((forall d, In d (MG.nodes g) -> 2 <= cv s d) ->
      Scheduler.max_d g (Bipartite.relax g s) <> Raise ZeroDivisionError
      /\ Bipartite.prepare g s <> Raise ZeroDivisionError).
Proof.
  split.
  - intros d Hd Hc ec mf.
    assert (Hz : cv (Bipartite.relax g s) d = 0)
      by (rewrite relax_cv by assumption; rewrite Hc; reflexivity).
    unfold Bipartite.gen_edges, Bipartite.prepare, Bipartite.normalize. simpl.
    now rewrite (max_d_zero g _ d Hd Hz).
  - intros Hcv.
    assert (Hnz : forall d, In d (MG.nodes g) ->
                            cv (Bipartite.relax g s) d <> 0).
    { intros d Hd. destruct (relax_cv_even g s d Hd (Hcv d Hd)). lia. }
    rewrite (max_d_nonzero g _ Hnz). split.
    + apply py_max_not_zero_division.
    + unfold Bipartite.prepare, Bipartite.normalize.
      rewrite (max_d_nonzero g _ Hnz).
      destruct (map _ (MG.nodes g)) as [|x l]; simpl; [discriminate|].
      destruct (Bipartite.pair_spares _ _) eqn:P; simpl; [discriminate|].
      intros E. inversion E; subst.
      now apply pair_spares_raises in P.
Qed.

(** ** Bipartite: padding with self-loops *)

Section PadFacts.
Import Bipartite.

Lemma degree_loops (g : graph) (d n : disk) (k : nat) :
  MG.degree (MG.mk (MG.nodes g) (MG.links g ++ repeat (d, d) k)) n =
  MG.degree g n + (if Nat.eqb d n then 2 * Z.of_nat k else 0).
Proof.
  rewrite degree_app. destruct g as [ns ls]. cbn [MG.nodes MG.links].
  f_equal. unfold MG.degree. cbn [MG.links].
  induction k as [|k IH].
  - cbn [repeat fold_right]. destruct (Nat.eqb d n); reflexivity.
  - rewrite Nat2Z.inj_succ. cbn [repeat fold_right fst snd].
    rewrite IH. assert (E : @eqb disk _ d n = Nat.eqb d n) by reflexivity.
    rewrite !E. destruct (Nat.eqb d n); lia.
Qed.

(** the loop stops with the exit test false, having added self-loops only *)
Lemma pad_spec (d : disk) (target : Z) (fuel : nat) :
  forall g,
    In d (MG.nodes g) ->
    target - MG.degree g d <= Z.of_nat fuel ->
    exists k,
      pad fuel g d target
      = MG.mk (MG.nodes g) (MG.links g ++ repeat (d, d) k)
      /\ ~ (MG.degree g d + 2 * Z.of_nat k < target - 1)
      /\ (MG.degree g d <= target ->
          MG.degree g d + 2 * Z.of_nat k <= target).
Proof.
  induction fuel as [|fuel IH]; intros g Hd Hf; simpl.
  - exists O. simpl. rewrite app_nil_r. destruct g; simpl in *.
    split; [reflexivity|]. lia.
  - destruct (MG.degree g d <? target - 1) eqn:T.
    + apply Z.ltb_lt in T.
      rewrite (add_edge_known g d d Hd Hd).
      destruct (IH (MG.mk (MG.nodes g) (MG.links g ++ [(d, d)]))) as [k [E [X Y]]].
      * exact Hd.
      * pose proof (degree_loops g d d 1) as D. simpl in D.
        rewrite Nat.eqb_refl in D. rewrite D. lia.
      * pose proof (degree_loops g d d 1) as D. simpl in D.
        rewrite Nat.eqb_refl in D. rewrite D in X, Y.
        exists (S k). rewrite E. simpl MG.nodes. simpl MG.links.
        rewrite <- app_assoc. simpl.
        split; [reflexivity|]. lia.
    + apply Z.ltb_ge in T. exists O. simpl. rewrite app_nil_r.
      destruct g; simpl in *. split; [reflexivity|]. lia.
Qed.

Variable delta : Z.
Variable s : store.

(** the target degree of a disk *)
Let target (d : disk) : Z := delta * cv s d.

(** one node padded: its degree reaches the target or one less, with the
    parity it had; it is a spare exactly when that parity is odd *)
Lemma pad_node_spec (g : graph) (sp : list disk) (d : disk) :
  In d (MG.nodes g) ->
  MG.degree g d <= target d -> target d mod 2 = 0 ->
  exists k,
    pad_node delta s (g, sp) d
    = (MG.mk (MG.nodes g) (MG.links g ++ repeat (d, d) k),
       if Z.odd (MG.degree g d) then sp ++ [d] else sp)
    /\ MG.degree g d + 2 * Z.of_nat k = target d - MG.degree g d mod 2.
Proof.
  intros Hd Hle Hev. unfold pad_node. simpl. fold (target d).
  destruct (pad_spec d (target d) (Z.to_nat (target d - MG.degree g d)) g Hd)
    as [k [E [X Y]]]; [lia|].
  specialize (Y Hle). exists k. rewrite E.
  rewrite (degree_loops g d d k), Nat.eqb_refl.
  pose proof (Z.mod_pos_bound (MG.degree g d) 2) as B.
  pose proof (Z.div_mod (MG.degree g d) 2) as Q.
  pose proof (Z.div_mod (target d) 2) as Q'.
  assert (Hdeg : MG.degree g d + 2 * Z.of_nat k
                 = target d - MG.degree g d mod 2) by lia.
  split; [|exact Hdeg]. f_equal.
  rewrite Zodd_mod.
  destruct (MG.degree g d mod 2 =? 1) eqn:M.
  - apply Z.eqb_eq in M.
    assert (T : (MG.degree g d + 2 * Z.of_nat k =? target d - 1) = true)
      by (apply Z.eqb_eq; lia).
    now rewrite T.
  - apply Z.eqb_neq in M.
    assert (T : (MG.degree g d + 2 * Z.of_nat k =? target d - 1) = false)
      by (apply Z.eqb_neq; lia).
    now rewrite T.
Qed.

(** the loop over the nodes *)
Lemma pad_nodes_spec (ns : list disk) :
  forall (g : graph) (sp : list disk),
    NoDup ns ->
    (forall d, In d ns ->
               In d (MG.nodes g)
               /\ MG.degree g d <= target d /\ target d mod 2 = 0) ->
    exists g',
      fold_left (pad_node delta s) ns (g, sp)
      = (g', sp ++ filter (fun d => Z.odd (MG.degree g d)) ns)
      /\ MG.nodes g' = MG.nodes g
      /\ incl (MG.links g) (MG.links g')
      /\ forall n,
           MG.degree g' n =
           if mem n ns then target n - MG.degree g n mod 2
           else MG.degree g n.
Proof.
  induction ns as [|d ns IH]; intros g sp ND Hns.
  - exists g. simpl. rewrite app_nil_r.
    repeat split; auto using incl_refl.
  - inversion ND as [|? ? Hd ND']; subst.
    destruct (Hns d (or_introl eq_refl)) as [Hin [Hle Hev]].
    destruct (pad_node_spec g sp d Hin Hle Hev) as [k [E Hdeg]].
    cbn [fold_left]. rewrite E.
    set (g1 := MG.mk (MG.nodes g) (MG.links g ++ repeat (d, d) k)).
    assert (Hother : forall n, n <> d -> MG.degree g1 n = MG.degree g n).
    { intros n Hn. unfold g1. rewrite degree_loops.
      destruct (Nat.eqb d n) eqn:Edn; [|lia].
      apply Nat.eqb_eq in Edn. congruence. }
    destruct (IH g1 (if Z.odd (MG.degree g d) then sp ++ [d] else sp) ND')
      as [g' [F [Hnodes [Hincl Hdegs]]]].
    { intros n Hn. assert (n <> d) by (intros ->; contradiction).
      destruct (Hns n (or_intror Hn)) as [H1 [H2 H3]].
      rewrite Hother by assumption. auto. }
    exists g'. split; [|split; [|split]].
    + etransitivity; [apply F|]. f_equal. simpl.
      rewrite (filter_ext_in (fun d0 => Z.odd (MG.degree g1 d0))
                             (fun d0 => Z.odd (MG.degree g d0))).
      * destruct (Z.odd (MG.degree g d)); [|reflexivity].
        now rewrite <- app_assoc.
      * intros n Hn. rewrite Hother; [reflexivity|].
        intros ->. contradiction.
    + exact Hnodes.
    + intros e He. apply Hincl. unfold g1; simpl. apply in_or_app. now left.
    + intros n. rewrite Hdegs. simpl.
      destruct (Nat.eqb n d) eqn:End.
      * apply Nat.eqb_eq in End. subst n.
        apply mem_notIn in Hd. rewrite Hd.
        unfold g1. rewrite degree_loops, Nat.eqb_refl. exact Hdeg.
      * apply Nat.eqb_neq in End. rewrite Hother by assumption.
        reflexivity.
Qed.

End PadFacts.

(** ** The handshake count *)

Section HandshakeFacts.

Lemma sumZ_add {X} (f h : X -> Z) (l : list X) :
  sumZ (fun x => f x + h x) l = sumZ f l + sumZ h l.
Proof. induction l as [|x l IH]; simpl; [reflexivity|]. rewrite IH. lia. Qed.

Lemma sumZ_ext {X} (f h : X -> Z) (l : list X) :
  (forall x, In x l -> f x = h x) -> sumZ f l = sumZ h l.
Proof.
  induction l as [|x l IH]; intros E; simpl; [reflexivity|].
  rewrite (E x (or_introl eq_refl)), IH; [reflexivity|].
  intros y Hy. apply E. now right.
Qed.

Lemma sumZ_zero {X} (l : list X) : sumZ (fun _ => 0) l = 0.
Proof. induction l as [|x l IH]; simpl; [reflexivity|exact IH]. Qed.

(** a node of a repetition-free list is met once *)
Lemma sumZ_indicator (d : disk) (ns : list disk) :
  NoDup ns -> In d ns ->
  sumZ (fun n => if Nat.eqb d n then 1 else 0) ns = 1.
Proof.
  induction 1 as [|n ns Hn ND IH]; intros Hd; [destruct Hd|].
  cbn [sumZ fold_right].
  fold (sumZ (fun n0 => if Nat.eqb d n0 then 1 else 0) ns).
  destruct (Nat.eqb d n) eqn:E.
  - apply Nat.eqb_eq in E. subst n.
    rewrite (sumZ_ext _ (fun _ => 0)).
    + rewrite sumZ_zero. reflexivity.
    + intros x Hx. destruct (Nat.eqb d x) eqn:E; [|reflexivity].
      apply Nat.eqb_eq in E. subst. contradiction.
  - apply Nat.eqb_neq in E. rewrite IH; [lia|].
    destruct Hd; congruence.
Qed.

(** the degrees add up to twice the number of edges *)
Lemma handshake (g : graph) :
  MG.wf g ->
  sumZ (MG.degree g) (MG.nodes g) = 2 * Z.of_nat (length (MG.links g)).
Proof.
  destruct g as [ns ls]. intros [ND Hwf]. cbn [MG.nodes MG.links] in *.
  induction ls as [|e ls IH].
  - rewrite (sumZ_ext _ (fun _ => 0)) by reflexivity.
    now rewrite sumZ_zero.
  - rewrite (sumZ_ext _ (fun n : disk => ((if Nat.eqb (fst e) n then 1 else 0)
                                   + (if Nat.eqb (snd e) n then 1 else 0))
                                  + MG.degree (MG.mk ns ls) n))
      by reflexivity.
    rewrite (sumZ_add (fun n : disk => (if Nat.eqb (fst e) n then 1 else 0)
                                + (if Nat.eqb (snd e) n then 1 else 0))
                      (MG.degree (MG.mk ns ls))).
    rewrite (sumZ_add (fun n : disk => if Nat.eqb (fst e) n then 1 else 0)
                      (fun n : disk => if Nat.eqb (snd e) n then 1 else 0)).
    rewrite IH by (intros x Hx; apply Hwf; now right).
    destruct (Hwf e (or_introl eq_refl)) as [H1 H2].
    rewrite (sumZ_indicator _ ND H1), (sumZ_indicator _ ND H2).
    cbn [length]. rewrite Nat2Z.inj_succ. lia.
Qed.

(** a sum is even exactly when an even number of its terms is odd *)
Lemma sumZ_parity {X} (f : X -> Z) (l : list X) :
  Z.even (sumZ f l) = Nat.even (length (filter (fun x => Z.odd (f x)) l)).
Proof.
  induction l as [|x l IH]; [reflexivity|].
  cbn [sumZ fold_right filter]. fold (sumZ f l).
  rewrite Z.even_add, IH.
  destruct (Z.odd (f x)) eqn:O.
  - cbn [length]. rewrite Nat.even_succ, <- Nat.negb_even.
    rewrite <- Z.negb_odd, O. simpl.
    now destruct (Nat.even _).
  - rewrite <- Z.negb_odd, O. simpl. now destruct (Nat.even _).
Qed.

Lemma odd_nodes_even (g : graph) :
  MG.wf g ->
  Nat.even (length (filter (fun d => Z.odd (MG.degree g d)) (MG.nodes g)))
  = true.
Proof.
  intros W. rewrite <- sumZ_parity, (handshake W).
  rewrite Z.even_mul. reflexivity.
Qed.

End HandshakeFacts.

(** ** Bipartite: pairing the spares *)

Section PairFacts.
Import Bipartite.

Lemma pair_spares_spec (n : nat) :
  forall (sp : list disk) (g : graph),
    (length sp <= n)%nat ->
    Nat.even (length sp) = true -> NoDup sp ->
    (forall d, In d sp -> In d (MG.nodes g)) ->
    exists g',
      pair_spares g sp = Ok g'
      /\ MG.nodes g' = MG.nodes g
      /\ incl (MG.links g) (MG.links g')
      /\ forall d, MG.degree g' d
                   = MG.degree g d + (if mem d sp then 1 else 0).
Proof.
  induction n as [|n IH]; intros [|a [|b sp]] g Hl Hev ND Hin;
    simpl in Hl, Hev; try discriminate; try lia.
  - exists g. simpl. repeat split; auto using incl_refl. intros; lia.
  - exists g. simpl. repeat split; auto using incl_refl. intros; lia.
  - inversion ND as [|? ? Ha ND1]; subst.
    inversion ND1 as [|? ? Hb ND2]; subst.
    assert (Hia : In a (MG.nodes g)) by (apply Hin; simpl; auto).
    assert (Hib : In b (MG.nodes g)) by (apply Hin; simpl; auto).
    cbn [pair_spares]. rewrite (add_edge_known g a b Hia Hib).
    destruct (IH sp (MG.mk (MG.nodes g) (MG.links g ++ [(a, b)])))
      as [g' [P [Hn [Hi Hd]]]]; try assumption; try lia.
    { intros d Hd. apply Hin. simpl. auto. }
    exists g'. split; [exact P|]. split; [exact Hn|]. split.
    + intros e He. apply Hi. simpl. apply in_or_app. now left.
    + intros d. rewrite Hd.
      pose proof (degree_add_edge g a b d) as D.
      rewrite (add_edge_known g a b Hia Hib) in D. rewrite D.
      unfold ends_at. cbn [fst snd mem existsb].
      assert (Ea : @eqb disk _ a d = Nat.eqb a d) by reflexivity.
      assert (Eb : @eqb disk _ b d = Nat.eqb b d) by reflexivity.
      assert (Ea' : @eqb disk _ d a = Nat.eqb d a) by reflexivity.
      assert (Eb' : @eqb disk _ d b = Nat.eqb d b) by reflexivity.
      rewrite Ea, Eb, Ea', Eb'. rewrite (Nat.eqb_sym d a), (Nat.eqb_sym d b).
      destruct (Nat.eqb a d) eqn:Xa, (Nat.eqb b d) eqn:Xb; simpl.
      * apply Nat.eqb_eq in Xa, Xb. subst. exfalso. apply Ha. now left.
      * apply Nat.eqb_eq in Xa. subst.
        assert (M : mem d sp = false).
        { apply mem_notIn. intros X. apply Ha. now right. }
        rewrite M. lia.
      * apply Nat.eqb_eq in Xb. subst.
        assert (M : mem d sp = false) by now apply mem_notIn.
        rewrite M. lia.
      * change (existsb (Nat.eqb d) sp) with (mem d sp).
        destruct (mem d sp); lia.
Qed.

End PairFacts.

(** ** Connected graphs *)

Section ConnectedFacts.

Lemma connected_more_links (g g' : graph) :
  MG.nodes g' = MG.nodes g -> incl (MG.links g) (MG.links g') ->
  connected g -> connected g'.
Proof.
  intros Hn Hi [Hne Hc]. split; [now rewrite Hn|].
  intros u v Hu Hv. rewrite Hn in Hu, Hv.
  specialize (Hc u v Hu Hv). clear Hu Hv.
  induction Hc as [x y Hxy|x|x y z _ IH1 _ IH2].
  - apply rt_step. unfold adjacent, MG.has_edge in *.
    apply existsb_exists in Hxy as [e [He J]].
    apply existsb_exists. exists e. split; [now apply Hi|exact J].
  - apply rt_refl.
  - eapply rt_trans; eassumption.
Qed.

End ConnectedFacts.

(** ** Bipartite.normalize *)

Section NormalizeFacts.
Import Bipartite.

Lemma fold_max_ge (l : list Z) :
  forall x, x <= fold_left Z.max l x
            /\ forall y, In y l -> y <= fold_left Z.max l x.
Proof.
  induction l as [|a l IH]; intros x; simpl; [split; [lia|tauto]|].
  destruct (IH (Z.max x a)) as [H1 H2]. split; [lia|].
  intros y [<-|Hy]; [lia|auto].
Qed.

Lemma py_max_ge (l : list Z) (m : Z) :
  py_max l = Ok m -> forall y, In y l -> y <= m.
Proof.
  destruct l as [|x l]; simpl; [discriminate|].
  intros E y Hy. inversion E; subst.
  destruct (fold_max_ge l x) as [H1 H2]. destruct Hy as [<-|Hy]; auto.
Qed.

Lemma py_max_const (l : list Z) (m : Z) :
  l <> [] -> (forall y, In y l -> y = m) -> py_max l = Ok m.
Proof.
  destruct l as [|x l]; [congruence|]. intros _ Hall. simpl.
  rewrite (Hall x (or_introl eq_refl)). f_equal.
  assert (Hl : forall y, In y l -> y = m) by (intros; apply Hall; now right).
  clear Hall. induction l as [|a l IH]; simpl; [reflexivity|].
  rewrite (Hl a (or_introl eq_refl)), Z.max_id.
  apply IH. intros; apply Hl; now right.
Qed.

(** ceil(a / c) * c is at least a *)
Lemma ceil_bound (a c : Z) : 0 < c -> a <= (- ((- a) / c)) * c.
Proof.
  intros Hc. pose proof (Z.mul_div_le (- a) c Hc). lia.
Qed.

Lemma ceil_exact (m c : Z) : c <> 0 -> - ((- (m * c)) / c) = m.
Proof.
  intros Hc. rewrite <- Z.mul_opp_l, Z.div_mul by exact Hc. lia.
Qed.

Lemma even_target (m c : Z) : c mod 2 = 0 -> (m * c) mod 2 = 0.
Proof.
  intros Hc. apply Z.mod_divide in Hc; [|lia].
  apply Z.mod_divide; [lia|]. now apply Z.divide_mul_r.
Qed.

Lemma mem_filter_nodes (p : disk -> bool) (ns : list disk) (d : disk) :
  In d ns -> mem d (filter p ns) = p d.
Proof.
  intros Hd. destruct (p d) eqn:P.
  - apply mem_In, filter_In. auto.
  - apply mem_notIn. rewrite filter_In. intros [_ X]. congruence.
Qed.

End NormalizeFacts.

(** C5 as stated fails on a connected graph with a device of capacity 1:
    the relaxation lowers the capacity to 0 and the normalization raises
    ZeroDivisionError in max_d instead of returning a graph. *)
Lemma capacity_one_stops_normalize :
  MG.wf Inputs.one_edge /\ connected Inputs.one_edge
  /\ (forall d, cv (Inputs.uniform 1) d = 1)
  /\ Bipartite.normalize Inputs.one_edge
       (Bipartite.relax Inputs.one_edge (Inputs.uniform 1))
     = Raise ZeroDivisionError.
Proof.
  split; [|split; [|split]].
  - split.
    + constructor.
      * intros [X|[]]. discriminate.
      * constructor; [intros []|constructor].
    + intros e [<-|[]]. cbn [fst snd Inputs.one_edge MG.nodes In]. auto.
  - split; [discriminate|].
    intros u v Hu Hv. apply rt_trans with 0%nat.
    + cbn [Inputs.one_edge MG.nodes In] in Hu.
      destruct Hu as [<-|[<-|[]]];
        first [apply rt_refl | apply rt_step; reflexivity].
    + cbn [Inputs.one_edge MG.nodes In] in Hv.
      destruct Hv as [<-|[<-|[]]];
        first [apply rt_refl | apply rt_step; reflexivity].
  - intros d. reflexivity.
  - reflexivity.
Qed.

(** C5, amended.  Take a connected demand graph whose devices all have a
    capacity from 2 to 2^53 and a degree up to 2^53 (with a capacity-1
    device the normalization raises, see C10; up to 2^53 the float
    quotient of max_d is exact).  After the parity relaxation, [normalize]
    returns a graph on the same nodes in which every device has degree
    Delta' times its (relaxed) capacity, Delta' being the normalized
    maximum degree of the graph both before and after; each such degree is
    even and the graph is still connected, so it is Eulerian. *)
Theorem normalize_reaches_target (g : graph) (s : store) :
  MG.wf g -> connected g ->
  Exact.in_range g s ->
  (forall d, In d (MG.nodes g) -> 2 <= cv s d) ->
  exists delta g',
    Scheduler.max_d g (Bipartite.relax g s) = Ok delta
    /\ Bipartite.normalize g (Bipartite.relax g s) = Ok g'
    /\ MG.nodes g' = MG.nodes g
    /\ (forall d, In d (MG.nodes g') ->
                  MG.degree g' d = delta * cv (Bipartite.relax g s) d
                  /\ Z.even (MG.degree g' d) = true)
    /\ Scheduler.max_d g' (Bipartite.relax g s) = Ok delta
    /\ is_eulerian g'.
Proof.
  intros W C R Hcv. set (s' := Bipartite.relax g s).
  assert (Hrel : forall d, In d (MG.nodes g) ->
                           2 <= cv s' d /\ cv s' d mod 2 = 0)
    by (intros d Hd; apply relax_cv_even; auto).
  assert (Hnz : forall d, In d (MG.nodes g) -> cv s' d <> 0)
    by (intros d Hd; destruct (Hrel d Hd); lia).
  assert (Hex : forall d, In d (MG.nodes g) ->
                          cv s' d <> 0 /\ cv s' d <= Exact.bound).
  { intros d Hd. split; [now apply Hnz|].
    unfold s'. rewrite (@relax_cv g s d Hd).
    pose proof (Z.mod_pos_bound (cv s d) 2). destruct (R d Hd). lia. }
  destruct C as [Hne Hc].
  assert (Hmax : exists delta,
             py_max (map (RankSpec.weight g s') (MG.nodes g)) = Ok delta).
  { destruct (MG.nodes g) as [|n ns]; [congruence|]. simpl. eauto. }
  destruct Hmax as [delta Hdelta].
  assert (Hle : forall d, In d (MG.nodes g) ->
                          MG.degree g d <= delta * cv s' d).
  { intros d Hd. destruct (Hrel d Hd) as [H2 _].
    assert (Hw : RankSpec.weight g s' d <= delta).
    { apply (@py_max_ge _ _ Hdelta). apply in_map_iff. eauto. }
    unfold RankSpec.weight in Hw.
    assert (Hpos : 0 < cv s' d) by lia.
    pose proof (@ceil_bound (MG.degree g d) (cv s' d) Hpos).
    nia. }
  destruct W as [ND Hwf].
  destruct (@pad_nodes_spec delta s' (MG.nodes g) g [] ND)
    as [g1 [F [Hn1 [Hi1 Hd1]]]].
  { intros d Hd. destruct (Hrel d Hd). split; [assumption|].
    split; [now apply Hle|now apply even_target]. }
  cbn [app] in F.
  set (spares := filter (fun d => Z.odd (MG.degree g d)) (MG.nodes g)) in *.
  destruct (@pair_spares_spec (length spares) spares g1)
    as [g2 [P [Hn2 [Hi2 Hd2]]]].
  { lia. }
  { apply (odd_nodes_even (conj ND Hwf)). }
  { unfold spares. now apply NoDup_filter. }
  { intros d Hd. rewrite Hn1. unfold spares in Hd.
    now apply filter_In in Hd. }
  assert (Hdeg : forall d, In d (MG.nodes g) ->
                           MG.degree g2 d = delta * cv s' d).
  { intros d Hd. rewrite Hd2, Hd1.
    pose proof (proj2 (mem_In d (MG.nodes g)) Hd) as M. rewrite M.
    unfold spares. rewrite mem_filter_nodes by exact Hd.
    rewrite Zodd_mod.
    pose proof (Z.mod_pos_bound (MG.degree g d) 2).
    destruct (MG.degree g d mod 2 =? 1) eqn:E;
      [apply Z.eqb_eq in E|apply Z.eqb_neq in E]; lia. }
  assert (Hconn : connected g2).
  { apply (@connected_more_links g1 g2 Hn2 Hi2).
    apply (@connected_more_links g g1 Hn1 Hi1). now split. }
  exists delta, g2.
  split; [now rewrite max_d_exact|].
  split.
  { unfold Bipartite.normalize. rewrite max_d_exact by exact Hex.
    rewrite Hdelta. cbn [bind]. rewrite F. exact P. }
  split; [congruence|].
  assert (Hev : forall d, In d (MG.nodes g2) ->
                          Z.even (MG.degree g2 d) = true).
  { intros d Hd. rewrite Hn2, Hn1 in Hd. rewrite (Hdeg d Hd).
    destruct (Hrel d Hd) as [_ Hm].
    pose proof (@even_target delta _ Hm) as Ht.
    rewrite Zeven_mod, Ht. reflexivity. }
  split.
  { intros d Hd. split; [|now apply Hev].
    apply Hdeg. now rewrite Hn2, Hn1 in Hd. }
  split; [|split; assumption].
  rewrite max_d_exact by (rewrite Hn2, Hn1; exact Hex).
  apply py_max_const.
  - rewrite Hn2, Hn1. destruct (MG.nodes g); [congruence|discriminate].
  - intros y Hy. apply in_map_iff in Hy as [d [<- Hd]].
    rewrite Hn2, Hn1 in Hd. unfold RankSpec.weight.
    rewrite (Hdeg d Hd). apply ceil_exact. now apply Hnz.
Qed.

(** the path A-B-C is a well-formed connected graph *)
Lemma path3_wf : MG.wf Inputs.path3.
Proof.
  split.
  - repeat constructor; simpl; intuition discriminate.
  - intros e He. simpl in He.
    destruct He as [<-|[<-|[]]]; simpl; auto.
Defined.

Lemma path3_connected : connected Inputs.path3.
Proof.
  split; [discriminate|].
  intros u v Hu Hv. apply rt_trans with 1%nat.
  - simpl in Hu. destruct Hu as [<-|[<-|[<-|[]]]];
      first [apply rt_refl | apply rt_step; reflexivity].
  - simpl in Hv. destruct Hv as [<-|[<-|[<-|[]]]];
      first [apply rt_refl | apply rt_step; reflexivity].
Defined.

(** the star with centre 0 is a well-formed connected graph *)
Lemma star4_wf : MG.wf Inputs.star4.
Proof.
  split.
  - constructor; [intros [X|[X|[X|[]]]]; discriminate|].
    constructor; [intros [X|[X|[]]]; discriminate|].
    constructor; [intros [X|[]]; discriminate|].
    constructor; [intros []|constructor].
  - intros e He. cbn [Inputs.star4 MG.links In] in He.
    destruct He as [<-|[<-|[<-|[]]]];
      cbn [fst snd Inputs.star4 MG.nodes In]; split; auto 10.
Defined.

Lemma star4_connected : connected Inputs.star4.
Proof.
  split; [discriminate|].
  intros u v Hu Hv. apply rt_trans with 0%nat.
  - cbn [Inputs.star4 MG.nodes In] in Hu.
    destruct Hu as [<-|[<-|[<-|[<-|[]]]]];
      first [apply rt_refl | apply rt_step; reflexivity].
  - cbn [Inputs.star4 MG.nodes In] in Hv.
    destruct Hv as [<-|[<-|[<-|[<-|[]]]]];
      first [apply rt_refl | apply rt_step; reflexivity].
Defined.

Lemma star4_in_range (c : Z) :
  0 < c <= Exact.bound -> Exact.in_range Inputs.star4 (Inputs.uniform c).
Proof.
  intros Hc d Hd. split; [exact Hc|].
  cbn [Inputs.star4 MG.nodes In] in Hd.
  destruct Hd as [<-|[<-|[<-|[<-|[]]]]]; vm_compute; discriminate.
Defined.

(** on the star with capacity 2 every leaf is padded with a self-loop and
    the four spares are paired *)
Lemma normalize_reaches_target_witness :
  exists delta g',
    Scheduler.max_d Inputs.star4
                    (Bipartite.relax Inputs.star4 (Inputs.uniform 2))
    = Ok delta
    /\ Bipartite.normalize Inputs.star4
                           (Bipartite.relax Inputs.star4 (Inputs.uniform 2))
       = Ok g'
    /\ In (1, 1)%nat (MG.links g')
    /\ In (2, 3)%nat (MG.links g')
    /\ (forall d, In d (MG.nodes g') ->
                  MG.degree g' d
                  = delta * cv (Bipartite.relax Inputs.star4
                                                (Inputs.uniform 2)) d
                  /\ Z.even (MG.degree g' d) = true)
    /\ is_eulerian g'.
Proof.
  assert (R : Exact.in_range Inputs.star4 (Inputs.uniform 2))
    by (apply star4_in_range; unfold Exact.bound; lia).
  assert (Hcv : forall d, In d (MG.nodes Inputs.star4) ->
                          2 <= cv (Inputs.uniform 2) d).
  { intros d _. cbn [Inputs.uniform cv]. lia. }
  destruct (@normalize_reaches_target Inputs.star4 (Inputs.uniform 2)
              star4_wf star4_connected R Hcv)
    as [delta [g' [H1 [H2 [_ [H4 [_ H6]]]]]]].
  exists delta, g'.
  split; [exact H1|]. split; [exact H2|].
  assert (E : Bipartite.normalize Inputs.star4
                (Bipartite.relax Inputs.star4 (Inputs.uniform 2))
              = Ok (MG.mk [0; 1; 2; 3]%nat
                          [(0, 1); (0, 2); (0, 3); (1, 1); (2, 2); (3, 3);
                           (0, 1); (2, 3)]%nat))
    by reflexivity.
  rewrite E in H2. inversion H2 as [G].
  split; [cbn [MG.links In]; auto|].
  split; [cbn [MG.links In]; auto 10|].
  rewrite G. split; [exact H4|exact H6].
Defined.

Lemma first_call_needs_capacity_two_witness :
  (forall ec mf,
      Bipartite.gen_edges ec mf Bipartite.init Inputs.one_edge
                          (Inputs.uniform 1)
      = Raise ZeroDivisionError)
  /\ Bipartite.prepare Inputs.triangle (Inputs.uniform 2)
     <> Raise ZeroDivisionError.
Proof.
  split.
  - apply (proj1 (first_call_needs_capacity_two Inputs.one_edge
                    (Inputs.uniform 1)) 0%nat).
    + simpl. auto.
    + reflexivity.
  - apply (proj2 (first_call_needs_capacity_two Inputs.triangle
                    (Inputs.uniform 2))).
    intros d _. simpl. lia.
Defined.

(** ** Bipartite.gen_edges: the queue handed to the commit *)

Section QueueFacts.
Import Bipartite.

Lemma reassociate_no_self_pair (flow : list (fnode * fnode)) (q : list edge) :
  reassociate flow = Ok q -> forall u v, In (u, v) q -> u <> v.
Proof.
  unfold reassociate. destruct (mapM _ flow) as [pairs|e]; simpl;
    [|discriminate].
  intros E u v Hin. inversion E; subst.
  apply filter_In in Hin as [_ Hne]. simpl in Hne.
  apply negb_true_iff, Nat.eqb_neq in Hne. exact Hne.
Qed.

End QueueFacts.

(** C6. Whatever Euler circuit and whatever flow networkx hands back, on
    the first call and on every later one, a queue returned by Bipartite's
    gen_edges holds no pair whose two ends are the same Disk: the self-loops
    of the normalization never reach the commit as transfers. *)
Theorem gen_edges_no_self_pair
  (ec : graph -> result (list edge)) (mf : DiGraph.t -> flow_dict)
  (st : Bipartite.state) (g : graph) (s : store)
  (q : list edge) (st' : Bipartite.state) (g' : graph) (s' : store) :
  Bipartite.gen_edges ec mf st g s = Ok (q, st', g', s') ->
  forall u v, In (u, v) q -> u <> v.
Proof.
  unfold Bipartite.gen_edges.
  destruct (if negb (Bipartite.normalized st) then _ else _)
    as [[[net g1] s1]|e]; simpl; [|discriminate].
  destruct (Bipartite.reassociate _) as [q0|e] eqn:R; simpl; [|discriminate].
  intros E. inversion E; subst.
  exact (reassociate_no_self_pair _ R).
Qed.

Lemma gen_edges_no_self_pair_witness :
  exists q st' g' s',
    Bipartite.gen_edges Inputs.circuit_with_loop Inputs.flow_with_loop
                        Bipartite.init Inputs.star4 (Inputs.uniform 2)
    = Ok (q, st', g', s')
    /\ q = [(0, 1); (1, 0)]%nat
    /\ forall u v, In (u, v) q -> u <> v.
Proof.
  destruct (Bipartite.gen_edges Inputs.circuit_with_loop
              Inputs.flow_with_loop Bipartite.init Inputs.star4
              (Inputs.uniform 2)) as [[[[q st'] g'] s']|e] eqn:E.
  - exists q, st', g', s'. split; [reflexivity|]. split.
    + vm_compute in E. inversion E. reflexivity.
    + exact (gen_edges_no_self_pair _ _ _ _ _ E).
  - vm_compute in E. discriminate.
Defined.

(** ** FlattenAndColor.greedy_color *)

(** C8, on the code.  For the demand path A-B-C with capacity 1 the
    strategy builds its alias graph and colors it.  The Alias of B gets the
    edges to an Alias of A and to an Alias of C; seen from their far ends
    both receive color 0, although they meet at the Alias of B, and the
    second one had received color 1 when seen from B.  The coloring is not
    proper. *)
Theorem greedy_color_not_proper :
  let a := fst (FlattenAndColor.split Inputs.path3 (Inputs.uniform 1) 0) in
  let c := FlattenAndColor.greedy_color a in
  MG.links a
  = [(Alias 0 (Disk 0), Alias 1 (Disk 1));
     (Alias 2 (Disk 1), Alias 3 (Disk 0));
     (Alias 2 (Disk 1), Alias 4 (Disk 2));
     (Alias 5 (Disk 2), Alias 6 (Disk 1))]%nat
  /\ lookup (Alias 3 (Disk 0), Alias 2 (Disk 1))%nat c = Ok 0%nat
  /\ lookup (Alias 4 (Disk 2), Alias 2 (Disk 1))%nat c = Ok 0%nat
  /\ lookup (Alias 2 (Disk 1), Alias 4 (Disk 2))%nat c = Ok 1%nat
  /\ ColorSpec.proper c = false.
Proof. vm_compute. repeat split. Qed.

(** ** Scheduler.mg_split *)

Section SplitFacts.
Import SplitSpec.

Lemma count_perm {X} (p : X -> bool) (l l' : list X) :
  Permutation l l' -> length (filter p l) = length (filter p l').
Proof.
  induction 1 as [|x l l' _ IH|x y l|l l' l'' _ IH1 _ IH2]; simpl.
  - reflexivity.
  - destruct (p x); simpl; now rewrite IH.
  - destruct (p x), (p y); reflexivity.
  - congruence.
Qed.

Lemma count_app {X} (p : X -> bool) (l l' : list X) :
  length (filter p (l ++ l')) =
  (length (filter p l) + length (filter p l'))%nat.
Proof. now rewrite filter_app, length_app. Qed.

Lemma count_none {X} (p : X -> bool) (l : list X) :
  (forall x, In x l -> p x = false) -> length (filter p l) = O.
Proof.
  induction l as [|x l IH]; intros Hp; simpl; [reflexivity|].
  rewrite (Hp x (or_introl eq_refl)). apply IH. intros; apply Hp; now right.
Qed.

Lemma count_all {X} (p : X -> bool) (l : list X) :
  (forall x, In x l -> p x = true) -> length (filter p l) = length l.
Proof.
  induction l as [|x l IH]; intros Hp; simpl; [reflexivity|].
  rewrite (Hp x (or_introl eq_refl)). simpl. f_equal.
  apply IH. intros; apply Hp; now right.
Qed.

Lemma remove_last_snoc (p : node * node -> bool) (l : list (node * node))
  (x : node * node) :
  p x = false ->
  MG.remove_last p (l ++ [x]) =
  match MG.remove_last p l with
  | Some r => Some (r ++ [x])
  | None => None
  end.
Proof.
  intros Px. induction l as [|y l IH]; simpl.
  - now rewrite Px.
  - rewrite IH. destruct (MG.remove_last p l) as [r|]; [reflexivity|].
    now destruct (p y).
Qed.

Lemma bounded_mono (k k' : nat) (n : node) :
  (k <= k')%nat -> bounded k n -> bounded k' n.
Proof.
  intros Hk. unfold bounded. apply Forall_impl. intros; lia.
Qed.

(** an Alias created at serial [k] or later is none of the older nodes *)
Lemma bounded_not_alias (k j : nat) (x n : node) :
  bounded k n -> (k <= j)%nat -> Alias j x <> n.
Proof.
  intros Hb Hj E. subst n. unfold bounded in Hb. simpl in Hb.
  inversion Hb; subst. lia.
Qed.

Lemma joins_new_alias (k j : nat) (u v x y : node) :
  bounded k u -> bounded k v -> (k <= j)%nat ->
  MG.joins u v (Alias j x, y) = false.
Proof.
  intros Hu Hv Hj. unfold MG.joins. cbn [fst snd].
  assert (E1 : eqb (Alias j x) u = false).
  { apply eqb_neq. now apply (@bounded_not_alias k). }
  assert (E2 : eqb (Alias j x) v = false).
  { apply eqb_neq. now apply (@bounded_not_alias k). }
  rewrite E1, E2. reflexivity.
Qed.

(** the loop for one key: [n] edges between [u] and [v] go, [n] edges from
    fresh Aliases of [u] to [v] come *)
Lemma split_edge_spec (k : nat) (u v : node) (n : nat) :
  forall (gi : agraph) (ki : nat),
    bounded k u -> bounded k v -> (k <= ki)%nat ->
    (n <= MG.mult (MG.links gi) u v)%nat ->
    exists g' removed,
      Split.split_edge n (u, v) (gi, ki) = Ok (g', (ki + n)%nat)
      /\ Permutation (MG.links gi ++ new_edges u v ki n)
                     (removed ++ MG.links g')
      /\ length removed = n
      /\ Forall (fun l => MG.joins u v l = true) removed.
Proof.
  induction n as [|n IH]; intros gi ki Hu Hv Hk Hm.
  - exists gi, []. simpl. rewrite Nat.add_0_r, app_nil_r.
    repeat split; auto.
  - cbn [Split.split_edge fst snd].
    unfold MG.remove_edge. rewrite add_edge_links.
    rewrite remove_last_snoc by (now apply (@joins_new_alias k)).
    assert (He : existsb (MG.joins u v) (MG.links gi) = true)
      by (apply mult_pos; lia).
    destruct (remove_last_some _ _ He) as [r Hr]. rewrite Hr.
    destruct (remove_last_perm _ _ Hr) as [y [Jy P]].
    cbn [bind].
    set (g2 := MG.mk (MG.nodes (MG.add_edge gi (Alias ki u) v))
                     (r ++ [(Alias ki u, v)])).
    assert (Hm2 : (n <= MG.mult (MG.links g2) u v)%nat).
    { unfold MG.mult in *. unfold g2. cbn [MG.links].
      rewrite count_app. rewrite (count_perm _ P) in Hm.
      cbn [filter] in Hm. rewrite Jy in Hm. cbn [length] in Hm. lia. }
    destruct (IH g2 (S ki) Hu Hv (Nat.le_trans _ _ _ Hk (Nat.le_succ_diag_r ki)) Hm2)
      as [g' [removed [E [P' [Hl Hf]]]]].
    exists g', (y :: removed).
    split; [rewrite E; f_equal; f_equal; lia|].
    split; [|split; [simpl; lia|constructor; assumption]].
    unfold new_edges in *. cbn [seq map].
    unfold g2 in P'. cbn [MG.links] in P'.
    rewrite <- app_assoc in P'. cbn [app] in P'.
    cbn [app]. rewrite <- P'.
    rewrite P. cbn [app]. reflexivity.
Qed.

End SplitFacts.

Section SplitKeyFacts.
Import SplitSpec.

Lemma bounded_fst_not_alias (k lo hi : nat) (x y : node) (l : node * node) :
  bounded k (fst l) -> (k <= lo)%nat -> is_alias_edge lo hi x y l = false.
Proof.
  intros Hb Hlo. unfold is_alias_edge. destruct (fst l) as [d|j z]; [reflexivity|].
  unfold bounded in Hb. simpl in Hb. inversion Hb; subst.
  assert (E : (lo <=? j)%nat = false) by (apply Nat.leb_gt; lia).
  now rewrite E.
Qed.

Lemma bounded_fst_not_carried (k j : nat) (l : node * node) :
  bounded k (fst l) -> (k <= j)%nat ->
  match fst l with Alias i _ => Nat.eqb i j | Disk _ => false end = false.
Proof.
  intros Hb Hj. destruct (fst l) as [d|i z]; [reflexivity|].
  unfold bounded in Hb. simpl in Hb. inversion Hb; subst.
  apply Nat.eqb_neq. lia.
Qed.

Lemma joined_ends (u v : node) (l : node * node) :
  MG.joins u v l = true -> fst l = u \/ fst l = v.
Proof.
  intros J. apply joins_iff in J. destruct J as [-> | ->]; simpl; auto.
Qed.

(** one key of the counter: all but one of the edges between [u] and [v]
    are replaced *)
Lemma split_key_spec (k : nat) (u v : node) (gi : agraph) (ki : nat) :
  bounded k u -> bounded k v -> (k <= ki)%nat ->
  links_bounded ki (MG.links gi) ->
  (1 <= MG.mult (MG.links gi) u v)%nat ->
  exists g1,
    Split.split_edge (MG.mult (MG.links gi) u v - 1) (u, v) (gi, ki)
    = Ok (g1, (ki + (MG.mult (MG.links gi) u v - 1))%nat)
    /\ links_bounded (ki + (MG.mult (MG.links gi) u v - 1)) (MG.links g1)
    /\ length (MG.links g1) = length (MG.links gi)
    /\ MG.mult (MG.links g1) u v = 1%nat
    /\ forall p : node * node -> bool,
         (forall l, MG.joins u v l = true -> p l = false) ->
         length (filter p (MG.links g1)) =
         (length (filter p (MG.links gi))
          + length (filter p (new_edges u v ki
                                (MG.mult (MG.links gi) u v - 1))))%nat.
Proof.
  intros Hu Hv Hk Hlb Hm.
  set (n := (MG.mult (MG.links gi) u v - 1)%nat).
  destruct (@split_edge_spec k u v n gi ki Hu Hv Hk) as [g1 [rm [E [P [Hl Hf]]]]];
    [unfold n; lia|].
  exists g1. split; [exact E|].
  assert (Hnew : forall l, In l (new_edges u v ki n) ->
                           exists j, (ki <= j < ki + n)%nat /\ l = (Alias j u, v)).
  { intros l Hin. unfold new_edges in Hin. apply in_map_iff in Hin as [j [<- Hj]].
    apply in_seq in Hj. eauto. }
  split; [|split; [|split]].
  - intros l Hin.
    assert (Hin' : In l (MG.links gi ++ new_edges u v ki n)).
    { apply (Permutation_in _ (Permutation_sym P)). apply in_or_app. now right. }
    apply in_app_or in Hin' as [H1|H2].
    + destruct (Hlb l H1). split; eapply bounded_mono; try eassumption; lia.
    + destruct (Hnew l H2) as [j [Hj ->]]. simpl. split.
      * unfold bounded. simpl. constructor; [lia|].
        apply (@bounded_mono k); [lia|exact Hu].
      * apply (@bounded_mono k); [lia|exact Hv].
  - apply Permutation_length in P. rewrite !length_app in P.
    unfold new_edges in P. rewrite length_map, length_seq in P. lia.
  - pose proof (count_perm (MG.joins u v) P) as C.
    rewrite !count_app in C. unfold MG.mult in *.
    rewrite (count_all _ rm) in C
      by (intros x Hx; rewrite Forall_forall in Hf; now apply Hf).
    rewrite (count_none _ (new_edges u v ki n)) in C.
    + fold n in C. unfold n in *. lia.
    + intros l Hin. destruct (Hnew l Hin) as [j [Hj ->]].
      apply (@joins_new_alias k); auto; lia.
  - intros p Hp. pose proof (count_perm p P) as C.
    rewrite !count_app in C.
    rewrite (count_none p rm) in C; [lia|].
    intros x Hx. apply Hp. rewrite Forall_forall in Hf. now apply Hf.
Qed.

End SplitKeyFacts.

Section SplitCountFacts.
Import SplitSpec.

(** widening the range of serials finds no further edge in a bounded graph *)
Lemma alias_edges_widen (k ki hi : nat) (x y : node) (ls : list (node * node)) :
  links_bounded ki ls -> (ki <= hi)%nat ->
  alias_edges k hi x y ls = alias_edges k ki x y ls.
Proof.
  intros Hlb Hhi. unfold alias_edges. f_equal. apply filter_ext_in.
  intros l Hl. destruct (Hlb l Hl) as [Hb _].
  unfold is_alias_edge. destruct (fst l) as [d|j z]; [reflexivity|].
  unfold bounded in Hb. simpl in Hb. inversion Hb; subst.
  assert (E1 : (j <? hi)%nat = true) by (apply Nat.ltb_lt; lia).
  assert (E2 : (j <? ki)%nat = true) by (apply Nat.ltb_lt; lia).
  now rewrite E1, E2.
Qed.

Lemma alias_edges_new (k ki n : nat) (u v x y : node) :
  (k <= ki)%nat ->
  alias_edges k (ki + n) x y (new_edges u v ki n) =
  if eqb u x && eqb v y then n else O.
Proof.
  intros Hk. unfold alias_edges.
  destruct (eqb u x && eqb v y) eqn:E.
  - rewrite count_all; [unfold new_edges; now rewrite length_map, length_seq|].
    intros l Hl. unfold new_edges in Hl. apply in_map_iff in Hl as [j [<- Hj]].
    apply in_seq in Hj. unfold is_alias_edge. cbn [fst snd].
    assert (E1 : (k <=? j)%nat = true) by (apply Nat.leb_le; lia).
    assert (E2 : (j <? ki + n)%nat = true) by (apply Nat.ltb_lt; lia).
    rewrite E1, E2. cbn [andb]. exact E.
  - apply count_none.
    intros l Hl. unfold new_edges in Hl. apply in_map_iff in Hl as [j [<- Hj]].
    unfold is_alias_edge. cbn [fst snd].
    rewrite <- andb_assoc, E. apply andb_false_r.
Qed.

Lemma carried_by_new (j ki n : nat) (u v : node) :
  carried_by j (new_edges u v ki n) =
  if (ki <=? j)%nat && (j <? ki + n)%nat then 1%nat else O.
Proof.
  unfold carried_by, new_edges. revert ki.
  induction n as [|n IH]; intros ki.
  - simpl. rewrite Nat.add_0_r.
    destruct (ki <=? j)%nat eqn:E1, (j <? ki)%nat eqn:E2; try reflexivity.
    apply Nat.leb_le in E1. apply Nat.ltb_lt in E2. lia.
  - cbn [seq map filter fst]. rewrite Nat.add_succ_r.
    destruct (Nat.eqb ki j) eqn:E.
    + apply Nat.eqb_eq in E. subst ki. cbn [length]. rewrite IH.
      assert (E1 : (S j <=? j)%nat = false) by (apply Nat.leb_gt; lia).
      assert (E2 : (j <=? j)%nat = true) by (apply Nat.leb_le; lia).
      assert (E3 : (j <? S (j + n))%nat = true) by (apply Nat.ltb_lt; lia).
      now rewrite E1, E2, E3.
    + apply Nat.eqb_neq in E. rewrite IH.
      change (S ki + n)%nat with (S (ki + n)).
      destruct (S ki <=? j)%nat eqn:E1, (ki <=? j)%nat eqn:E2;
        try reflexivity.
      * apply Nat.leb_le in E1. apply Nat.leb_gt in E2. lia.
      * apply Nat.leb_gt in E1. apply Nat.leb_le in E2. lia.
Qed.

Lemma carried_by_bounded (ki j : nat) (ls : list (node * node)) :
  links_bounded ki ls -> (ki <= j)%nat -> carried_by j ls = O.
Proof.
  intros Hlb Hj. unfold carried_by. apply count_none.
  intros l Hl. destruct (Hlb l Hl) as [Hb _].
  now apply (@bounded_fst_not_carried ki).
Qed.

End SplitCountFacts.

Section SplitFoldFacts.
Import SplitSpec.

Lemma joins_swap (x y a b : node) :
  MG.joins x y (b, a) = MG.joins x y (a, b).
Proof.
  unfold MG.joins. cbn [fst snd].
  destruct (eqb a x), (eqb b y), (eqb a y), (eqb b x); reflexivity.
Qed.

(** a pair that is not the key keeps clear of the edges the key removes *)
Lemma joins_other_key (x y u v : node) (l : node * node) :
  MG.joins x y (u, v) = false -> MG.joins u v l = true ->
  MG.joins x y l = false.
Proof.
  intros Hxy J. apply joins_iff in J. destruct J as [-> | ->];
    [exact Hxy|now rewrite joins_swap].
Qed.

(** what the loop for the key (u, v) does to the counts of another pair *)
Lemma split_key_frame (k ki n : nat) (u v : node) (gi g1 : agraph) :
  bounded k u -> bounded k v -> (k <= ki)%nat ->
  links_bounded ki (MG.links gi) ->
  (forall p : node * node -> bool,
      (forall l, MG.joins u v l = true -> p l = false) ->
      length (filter p (MG.links g1)) =
      (length (filter p (MG.links gi))
       + length (filter p (new_edges u v ki n)))%nat) ->
  (forall x y, bounded k x -> bounded k y ->
               MG.mult (MG.links g1) x y =
               (if MG.joins x y (u, v) then MG.mult (MG.links g1) x y
                else MG.mult (MG.links gi) x y)
               /\ alias_edges k (ki + n) x y (MG.links g1) =
                  (alias_edges k ki x y (MG.links gi)
                   + if eqb u x && eqb v y then n else O)%nat)
  /\ (forall j, (k <= j)%nat ->
                carried_by j (MG.links g1) =
                (carried_by j (MG.links gi)
                 + if (ki <=? j)%nat && (j <? ki + n)%nat then 1 else 0)%nat).
Proof.
  intros Hu Hv Hk Hlb Hcount.
  assert (Hrm : forall l, MG.joins u v l = true -> bounded k (fst l)).
  { intros l J. destruct (joined_ends _ _ _ J) as [-> | ->]; assumption. }
  split.
  - intros x y Hx Hy. split.
    + destruct (MG.joins x y (u, v)) eqn:J; [reflexivity|].
      unfold MG.mult. rewrite Hcount.
      * rewrite (count_none _ (new_edges u v ki n)); [lia|].
        intros l Hl. unfold new_edges in Hl.
        apply in_map_iff in Hl as [j [<- Hj]]. apply in_seq in Hj.
        apply (@joins_new_alias k); auto; lia.
      * intros l Jl. now apply (@joins_other_key x y u v).
    + unfold alias_edges at 1. rewrite Hcount.
      * fold (alias_edges k (ki + n) x y (MG.links gi)).
        fold (alias_edges k (ki + n) x y (new_edges u v ki n)).
        rewrite (@alias_edges_widen k ki (ki + n)) by (auto; lia).
        now rewrite alias_edges_new.
      * intros l Jl. apply (@bounded_fst_not_alias k); auto.
  - intros j Hj. unfold carried_by at 1. rewrite Hcount.
    + fold (carried_by j (MG.links gi)).
      fold (carried_by j (new_edges u v ki n)).
      now rewrite carried_by_new.
    + intros l Jl. apply (@bounded_fst_not_carried k); auto.
Qed.

End SplitFoldFacts.

Section SplitLoopFacts.
Import SplitSpec.

(** the loop over the keys of the counter *)
Lemma split_loop_spec (k : nat) (R : list ((node * node) * nat)) :
  forall (gi : agraph) (ki : nat),
    (k <= ki)%nat ->
    links_bounded ki (MG.links gi) ->
    (forall en, In en R ->
                bounded k (fst (fst en)) /\ bounded k (snd (fst en))) ->
    NoDup (map fst R) ->
    (forall e1 e2, In e1 (map fst R) -> In e2 (map fst R) ->
                   MG.joins (fst e1) (snd e1) e2 = true -> e1 = e2) ->
    (forall en, In en R ->
                snd en = MG.mult (MG.links gi) (fst (fst en)) (snd (fst en))
                /\ (1 <= snd en)%nat
                /\ alias_edges k ki (fst (fst en)) (snd (fst en))
                               (MG.links gi) = O) ->
    exists g' k',
      foldM (fun st en => Split.split_edge (snd en - 1)%nat (fst en) st)
            R (gi, ki) = Ok (g', k')
      /\ (ki <= k')%nat
      /\ links_bounded k' (MG.links g')
      /\ length (MG.links g') = length (MG.links gi)
      /\ (forall en, In en R ->
                     MG.mult (MG.links g') (fst (fst en)) (snd (fst en)) = 1%nat
                     /\ alias_edges k k' (fst (fst en)) (snd (fst en))
                                    (MG.links g') = (snd en - 1)%nat)
      /\ (forall x y, bounded k x -> bounded k y ->
                      (forall en, In en R -> MG.joins x y (fst en) = false) ->
                      MG.mult (MG.links g') x y = MG.mult (MG.links gi) x y
                      /\ alias_edges k k' x y (MG.links g')
                         = alias_edges k ki x y (MG.links gi))
      /\ (forall j, (k <= j)%nat ->
                    carried_by j (MG.links g') =
                    (carried_by j (MG.links gi)
                     + if (ki <=? j)%nat && (j <? k')%nat then 1 else 0)%nat).
Proof.
  induction R as [|[[u v] c] R IH]; intros gi ki Hk Hlb Hb ND Hdist Hc.
  - exists gi, ki. cbn [foldM].
    split; [reflexivity|]. split; [lia|]. split; [exact Hlb|].
    split; [reflexivity|]. split; [intros en []|].
    split; [intros; split; reflexivity|].
    intros j Hj.
    destruct (ki <=? j)%nat eqn:E1, (j <? ki)%nat eqn:E2; cbn [andb]; try lia.
    apply Nat.leb_le in E1. apply Nat.ltb_lt in E2. lia.
  - cbn [map fst] in ND. inversion ND as [|? ? Hnin ND']; subst.
    destruct (Hc _ (or_introl eq_refl)) as [Hcm [Hc1 Hc0]].
    destruct (Hb _ (or_introl eq_refl)) as [Hu Hv].
    cbn [fst snd] in Hcm, Hc1, Hc0, Hu, Hv.
    destruct (@split_key_spec k u v gi ki Hu Hv Hk Hlb)
      as [g1 [E [Hlb1 [Hlen1 [Hm1 Hcount]]]]]; [lia|].
    rewrite <- Hcm in E, Hlb1, Hcount.
    destruct (@split_key_frame k ki (c - 1) u v gi g1 Hu Hv Hk Hlb Hcount)
      as [Hframe Hcar].
    set (k1 := (ki + (c - 1))%nat) in *.
    assert (Hother : forall e, In e (map fst R) ->
                               MG.joins (fst e) (snd e) (u, v) = false
                               /\ MG.joins u v e = false).
    { intros e He. split.
      - destruct (MG.joins (fst e) (snd e) (u, v)) eqn:J; [|reflexivity].
        exfalso. apply Hnin.
        rewrite <- (Hdist e (u, v)); [exact He|now right|now left|exact J].
      - destruct (MG.joins u v e) eqn:J; [|reflexivity].
        exfalso. apply Hnin.
        rewrite (Hdist (u, v) e); [exact He|now left|now right|exact J]. }
    destruct (IH g1 k1) as [g' [k' [F [Hk' [Hlb' [Hlen' [Hkeys [Hfr Hcar']]]]]]]].
    + unfold k1. lia.
    + exact Hlb1.
    + intros en Hen. apply Hb. now right.
    + exact ND'.
    + intros e1 e2 H1 H2. apply Hdist; now right.
    + intros en Hen.
      destruct (Hc en (or_intror Hen)) as [X1 [X2 X3]].
      destruct (Hb en (or_intror Hen)) as [B1 B2].
      destruct (Hother (fst en) (in_map fst _ _ Hen)) as [J1 _].
      destruct (Hframe _ _ B1 B2) as [M A].
      rewrite J1 in M. rewrite M, A, X3.
      split; [exact X1|]. split; [exact X2|].
      destruct (eqb u (fst (fst en)) && eqb v (snd (fst en))) eqn:Q;
        [|reflexivity].
      exfalso. apply andb_true_iff in Q as [Q1 Q2].
      apply eqb_eq in Q1, Q2. apply Hnin.
      replace (u, v) with (fst en); [now apply in_map|].
      destruct en as [[a b] n']. simpl in *. congruence.
    + exists g', k'. cbn [foldM fst snd]. rewrite E. cbn [bind].
      split; [exact F|]. split; [unfold k1 in *; lia|].
      split; [exact Hlb'|]. split; [congruence|].
      split; [|split].
      * intros en [<-|Hen]; [|now apply Hkeys]. cbn [fst snd].
        destruct (Hfr u v Hu Hv) as [M A].
        { intros en Hen. apply (Hother (fst en)). now apply in_map. }
        rewrite M, A, Hm1. split; [reflexivity|].
        destruct (Hframe u v Hu Hv) as [_ A1].
        rewrite A1, Hc0, !eqb_refl. reflexivity.
      * intros x y Hx Hy Hno.
        destruct (Hfr x y Hx Hy) as [M A].
        { intros en Hen. apply Hno. now right. }
        destruct (Hframe x y Hx Hy) as [M1 A1].
        pose proof (Hno _ (or_introl eq_refl)) as J. cbn [fst] in J.
        rewrite J in M1. rewrite M, A, M1, A1.
        split; [reflexivity|].
        destruct (eqb u x && eqb v y) eqn:Q; [|lia].
        exfalso. apply andb_true_iff in Q as [Q1 Q2].
        apply eqb_eq in Q1, Q2. subst x y.
        unfold MG.joins in J. cbn [fst snd] in J.
        rewrite !eqb_refl in J. discriminate.
      * intros j Hj. rewrite (Hcar' j Hj), (Hcar j Hj). fold k1.
        assert (Hk1 : (ki <= k1)%nat) by (unfold k1; lia).
        clearbody k1.
        destruct (Nat.leb_spec ki j), (Nat.ltb_spec j k1),
                 (Nat.leb_spec k1 j), (Nat.ltb_spec j k');
          cbn [andb]; lia.
Qed.

End SplitLoopFacts.

Section SplitGraphFacts.
Import SplitSpec.

Lemma alias_edges_empty_range (k : nat) (x y : node) (ls : list (node * node)) :
  alias_edges k k x y ls = O.
Proof.
  unfold alias_edges. apply count_none. intros l _.
  unfold is_alias_edge. destruct (fst l) as [d|j z]; [reflexivity|].
  destruct (Nat.leb_spec k j), (Nat.ltb_spec j k); cbn [andb];
    try reflexivity; lia.
Qed.

Lemma Counter_keys {X} `{EqDec X} (l : list X) :
  map fst (Counter l) = dedup l.
Proof.
  unfold Counter. rewrite map_map. cbn [fst]. apply map_id.
Qed.

Lemma Counter_In {X} `{EqDec X} (l : list X) (en : X * nat) :
  In en (Counter l) -> In (fst en) l /\ snd en = occurrences (fst en) l.
Proof.
  unfold Counter. intros Hin. apply in_map_iff in Hin as [x [<- Hx]].
  apply (proj1 (dedup_In x l)) in Hx. cbn [fst snd].
  split; [exact Hx|reflexivity].
Qed.

Lemma wf_links_bounded (g : agraph) (k : nat) :
  MG.wf g -> fresh_for k g -> links_bounded k (MG.links g).
Proof.
  intros [_ Hwf] Hf l Hl. destruct (Hwf l Hl). split; now apply Hf.
Qed.

End SplitGraphFacts.

(** C7, as stated, fails.  Two parallel edges between A and B: mg_split
    makes one Alias, not two, the Alias stands for A only, B gets none, and
    one edge still joins A and B themselves. *)
Lemma mg_split_two_parallel :
  Split.mg_split (MG.mk [Disk 0; Disk 1]
                        [(Disk 0, Disk 1); (Disk 0, Disk 1)])%nat 0
  = Ok (MG.mk [Disk 0; Disk 1; Alias 0 (Disk 0)]
              [(Disk 0, Disk 1); (Alias 0 (Disk 0), Disk 1)], 1)%nat.
Proof. reflexivity. Qed.

(** C7, amended.  On a well-formed graph mg_split never raises and keeps
    the number of edges.  For nodes u and v that [graph.edges()] reports as
    the pair (u, v) and that k parallel edges join, exactly one edge between
    u and v stays, and k - 1 edges join v to Aliases of u made by the call;
    v gets no Alias.  Every Alias made by the call carries exactly one
    edge, and no two nodes of the original graph stay joined by more than
    one edge. *)
Theorem mg_split_keeps_one_edge (g : agraph) (k : nat) :
  MG.wf g -> SplitSpec.fresh_for k g ->
  exists g' k',
    Split.mg_split g k = Ok (g', k')
    /\ length (MG.links g') = length (MG.links g)
    /\ (forall u v,
           In (u, v) (MG.edges g) ->
           MG.mult (MG.links g') u v = 1%nat
           /\ SplitSpec.alias_edges k k' u v (MG.links g')
              = (MG.mult (MG.links g) u v - 1)%nat)
    /\ (forall j, (k <= j < k')%nat -> carried_by j (MG.links g') = 1%nat)
    /\ (forall x y, In x (MG.nodes g) -> In y (MG.nodes g) ->
                    (MG.mult (MG.links g') x y <= 1)%nat).
Proof.
  intros W Hfresh. pose proof W as [ND Hwf].
  destruct (@split_loop_spec k (Counter (MG.edges g)) g k)
    as [g' [k' [F [Hk' [Hlb' [Hlen [Hkeys [Hfr Hcar]]]]]]]].
  - lia.
  - now apply wf_links_bounded.
  - intros en Hen. apply Counter_In in Hen as [Hin _].
    destruct (fst en) as [u v] eqn:E. cbn [fst snd].
    destruct (edges_endpoints u v W Hin). split; now apply Hfresh.
  - rewrite Counter_keys. apply dedup_NoDup.
  - rewrite Counter_keys. intros [a b] e2 H1 H2 J.
    apply (proj1 (dedup_In _ _)) in H1. apply (proj1 (dedup_In _ _)) in H2.
    cbn [fst snd] in J.
    apply joins_iff in J. destruct J as [->| ->]; [reflexivity|].
    rewrite (@edges_one_direction _ _ g a b W H1 H2). reflexivity.
  - intros en Hen. apply Counter_In in Hen as [Hin Hocc].
    destruct (fst en) as [u v] eqn:E. cbn [fst snd].
    destruct (edges_occurrences g u v ND Hin) as [O1 [_ [_ O4]]].
    rewrite Hocc, O1. split; [reflexivity|]. split; [lia|].
    apply alias_edges_empty_range.
  - exists g', k'. split; [exact F|]. split; [exact Hlen|].
    split; [|split].
    + intros u v Hin.
      destruct (edges_occurrences g u v ND Hin) as [O1 _].
      assert (Hen : In ((u, v), occurrences (u, v) (MG.edges g))
                       (Counter (MG.edges g))).
      { unfold Counter. apply in_map_iff. exists (u, v).
        split; [reflexivity|now apply (proj2 (dedup_In _ _))]. }
      destruct (Hkeys _ Hen) as [M A]. cbn [fst snd] in M, A.
      rewrite M, A, O1. auto.
    + intros j Hj. rewrite Hcar by lia.
      rewrite (@carried_by_bounded k) by (try apply wf_links_bounded; auto; lia).
      destruct (Nat.leb_spec k j), (Nat.ltb_spec j k'); cbn [andb]; lia.
    + intros x y Hx Hy.
      destruct (MG.has_edge g x y) eqn:He.
      * destruct (edges_complete x y W He) as [Hin|Hin].
        -- assert (Hen : In ((x, y), occurrences (x, y) (MG.edges g))
                            (Counter (MG.edges g))).
           { unfold Counter. apply in_map_iff. exists (x, y).
             split; [reflexivity|now apply (proj2 (dedup_In _ _))]. }
           destruct (Hkeys _ Hen) as [M _]. cbn [fst snd] in M. lia.
        -- assert (Hen : In ((y, x), occurrences (y, x) (MG.edges g))
                            (Counter (MG.edges g))).
           { unfold Counter. apply in_map_iff. exists (y, x).
             split; [reflexivity|now apply (proj2 (dedup_In _ _))]. }
           destruct (Hkeys _ Hen) as [M _]. cbn [fst snd] in M.
           rewrite mult_sym. lia.
      * destruct (Hfr x y (Hfresh x Hx) (Hfresh y Hy)) as [M _].
        { intros en Hen. apply Counter_In in Hen as [Hin _].
          destruct (MG.joins x y (fst en)) eqn:J; [|reflexivity].
          exfalso. destruct (fst en) as [a b] eqn:E.
          destruct (edges_occurrences g a b ND Hin) as [_ [_ [_ O4]]].
          apply joins_iff in J.
          unfold MG.has_edge in He.
          destruct J as [J|J]; injection J as Ha Hb; rewrite Ha, Hb in O4.
          - apply mult_pos in O4. congruence.
          - rewrite mult_sym in O4. apply mult_pos in O4. congruence. }
        rewrite M.
        assert (Z0 : MG.mult (MG.links g) x y = O).
        { destruct (MG.mult (MG.links g) x y) eqn:Q; [reflexivity|].
          assert (P : (0 < MG.mult (MG.links g) x y)%nat) by lia.
          apply mult_pos in P. unfold MG.has_edge in He. congruence. }
        lia.
Qed.

Lemma mg_split_keeps_one_edge_witness :
  exists g' k',
    Split.mg_split (MG.mk [Disk 0; Disk 1]
                          [(Disk 0, Disk 1); (Disk 1, Disk 0);
                           (Disk 0, Disk 1)])%nat 0
    = Ok (g', k')
    /\ length (MG.links g') = 3%nat
    /\ MG.mult (MG.links g') (Disk 0) (Disk 1) = 1%nat.
Proof.
  set (g := (MG.mk [Disk 0; Disk 1]
                   [(Disk 0, Disk 1); (Disk 1, Disk 0);
                    (Disk 0, Disk 1)])%nat).
  assert (W : MG.wf g).
  { split.
    - repeat constructor; simpl; intuition discriminate.
    - intros e He. simpl in He.
      destruct He as [<-|[<-|[<-|[]]]]; simpl; auto. }
  assert (Hf : SplitSpec.fresh_for 0 g).
  { intros n Hn. simpl in Hn.
    destruct Hn as [<-|[<-|[]]]; constructor. }
  destruct (mg_split_keeps_one_edge W Hf) as [g' [k' [E [Hl [Hk _]]]]].
  exists g', k'. split; [exact E|]. split; [exact Hl|].
  apply (Hk (Disk 0) (Disk 1)). vm_compute. auto.
Defined.

(** ** The flow network of Bipartite *)

Section NetworkFacts.









End NetworkFacts.

Section BuildFacts.
Variable g : graph.
Variable s : store.
Variable c : list edge.
Hypothesis c_in_g : forall e, In e c -> In (snd e) (MG.nodes g).







End BuildFacts.

(** ** Flows on the network *)

Section FlowFacts.

Lemma forallb_false_exists {X} (p : X -> bool) (l : list X) :
  forallb p l = false -> exists x, In x l /\ p x = false.
Proof.
  induction l as [|x l IH]; simpl; [discriminate|].
  destruct (p x) eqn:Px; simpl.
  - intros E. destruct (IH E) as [y [Hy Py]]. eauto.
  - intros _. eauto.
Qed.

(** more pigeons than holes *)
Lemma pigeonhole {X} `{EqDec X} (pigeons holes : list X) :
  NoDup pigeons -> (length holes < length pigeons)%nat ->
  exists x, In x pigeons /\ ~ In x holes.
Proof.
  intros ND Hlen.
  destruct (forallb (fun x => mem x holes) pigeons) eqn:E.
  - exfalso. rewrite forallb_forall in E.
    assert (Hincl : incl pigeons holes)
      by (intros x Hx; apply mem_In; now apply E).
    pose proof (NoDup_incl_length ND Hincl). lia.
  - destruct (forallb_false_exists _ _ E) as [x [Hx Px]].
    exists x. split; [exact Hx|]. now apply mem_notIn.
Qed.

Lemma length_flat_map_bound {X Y} (f : X -> list Y) (p : X -> bool)
  (l : list X) :
  (forall x, In x l -> (length (f x) <= if p x then 1 else 0)%nat) ->
  (length (flat_map f l) <= length (filter p l))%nat.
Proof.
  induction l as [|x l IH]; intros Hf; simpl; [lia|].
  rewrite length_app.
  pose proof (Hf x (or_introl eq_refl)) as Hx.
  assert (IH' := IH (fun y Hy => Hf y (or_intror Hy))).
  destruct (p x); simpl; lia.
Qed.

Lemma NoDup_map_filter {K V} (p : K * V -> bool) (l : list (K * V)) :
  NoDup (map fst l) -> NoDup (map fst (filter p l)).
Proof.
  induction l as [|x l IH]; simpl; [auto|].
  intros ND. inversion ND as [|? ? Hx ND']; subst.
  destruct (p x); simpl; [|auto].
  constructor; [|auto]. intros Hin. apply Hx.
  apply in_map_iff in Hin as [y [E Hy]]. apply filter_In in Hy as [Hy _].
  apply in_map_iff. eauto.
Qed.

(** a dict has at most one row for each key of a given list *)
Lemma keyed_rows_bound {K V} `{EqDec K} (fd : list (K * V)) (keys : list K) :
  NoDup (map fst fd) ->
  (length (filter (fun kv => mem (fst kv) keys) fd) <= length keys)%nat.
Proof.
  intros ND. rewrite <- (length_map fst).
  apply NoDup_incl_length; [now apply NoDup_map_filter|].
  intros k Hk. apply in_map_iff in Hk as [kv [<- Hkv]].
  apply filter_In in Hkv as [_ M]. now apply mem_In.
Qed.


Lemma active_rows (fd : flow_dict) :
  Bipartite.active fd = flat_map row_arcs fd.
Proof. reflexivity. Qed.

Lemma row_arcs_In (d : fnode * list (fnode * Z)) (a : fnode * fnode) :
  In a (row_arcs d) ->
  fst a = fst d /\ is_terminal (fst a) = false
  /\ is_terminal (snd a) = false
  /\ exists f, In (snd a, f) (snd d) /\ 0 < f.
Proof.
  unfold row_arcs. intros Ha. apply in_flat_map in Ha as [d2 [Hd2 Hin]].
  destruct (0 <? snd d2) eqn:E1; [|destruct Hin].
  destruct (is_terminal (fst d)) eqn:E2; [destruct Hin|].
  destruct (is_terminal (fst d2)) eqn:E3; [destruct Hin|].
  destruct Hin as [<-|[]]. cbn [fst snd].
  apply Z.ltb_lt in E1. repeat split; auto.
  exists (snd d2). destruct d2; auto.
Qed.


(** the arcs of positive flow are never terminals: mapping them back to
    disks cannot fail *)
Lemma reassociate_active (fd : flow_dict) :
  exists q, Bipartite.reassociate (Bipartite.active fd) = Ok q.
Proof.
  unfold Bipartite.reassociate.
  rewrite (mapM_ok _ (fun e => (disk_of (fst e), disk_of (snd e)))).
  - simpl. eauto.
  - intros [u v] Hin. rewrite active_rows in Hin.
    apply in_flat_map in Hin as [d [_ Ha]].
    apply row_arcs_In in Ha as [_ [Tu [Tv _]]]. cbn [fst snd] in *.
    destruct u, v; try discriminate; reflexivity.
Qed.

End FlowFacts.

(* ================================================================== *)
(** * Further properties of the code *)

(** ** Scheduler.max_d *)

Lemma fold_max_In (l : list Z) :
  forall x, fold_left Z.max l x = x \/ In (fold_left Z.max l x) l.
Proof.
  induction l as [|a l IH]; intros x; simpl; [now left|].
  destruct (IH (Z.max x a)) as [E|Hin]; [|now right; right].
  rewrite E. destruct (Z.max_spec x a) as [[_ ->]|[_ ->]]; auto.
Qed.

Lemma py_max_In (l : list Z) (m : Z) : py_max l = Ok m -> In m l.
Proof.
  destruct l as [|x l]; simpl; [discriminate|].
  intros E. inversion E; subst.
  destruct (fold_max_In l x) as [->|Hin]; auto.
Qed.

(** On a graph with at least one node, with positive capacities and with
    capacities and degrees up to 2^53 (where the float quotient of the
    source is exact), max_d returns the largest ceil(degree / cv) found at
    a node: it is reached at some node, no node exceeds it, and every
    degree is at most max_d times the capacity. *)
Theorem max_d_is_largest_ratio (g : graph) (s : store) :
  MG.nodes g <> [] ->
  Exact.in_range g s ->
  exists m,
    Scheduler.max_d g s = Ok m
    /\ (exists d, In d (MG.nodes g) /\ RankSpec.weight g s d = m)
    /\ (forall d, In d (MG.nodes g) -> RankSpec.weight g s d <= m)
    /\ (forall d, In d (MG.nodes g) -> MG.degree g d <= m * cv s d).
Proof.
  intros Hne R.
  assert (Hcv : forall d, In d (MG.nodes g) ->
                          cv s d <> 0 /\ cv s d <= Exact.bound)
    by (intros d Hd; destruct (R d Hd); lia).
  rewrite (@max_d_exact g s Hcv).
  destruct (py_max (map (RankSpec.weight g s) (MG.nodes g))) as [m|e] eqn:E.
  - exists m. split; [reflexivity|].
    assert (Hle : forall d, In d (MG.nodes g) -> RankSpec.weight g s d <= m).
    { intros d Hd. apply (@py_max_ge _ _ E). now apply in_map. }
    split; [|split; [exact Hle|]].
    + apply py_max_In in E. apply in_map_iff in E as [d [Hd Hin]]. eauto.
    + intros d Hd. specialize (Hle d Hd). unfold RankSpec.weight in Hle.
      assert (Hpos : 0 < cv s d) by (destruct (R d Hd); lia).
      pose proof (@ceil_bound (MG.degree g d) (cv s d) Hpos). nia.
  - destruct (MG.nodes g); [congruence|discriminate].
Qed.

Lemma max_d_is_largest_ratio_witness :
  Scheduler.max_d Inputs.star4 (Inputs.uniform 2) = Ok 2
  /\ exists m,
       Scheduler.max_d Inputs.star4 (Inputs.uniform 2) = Ok m
       /\ (exists d, In d (MG.nodes Inputs.star4)
                     /\ RankSpec.weight Inputs.star4 (Inputs.uniform 2) d = m)
       /\ (forall d, In d (MG.nodes Inputs.star4) ->
                     RankSpec.weight Inputs.star4 (Inputs.uniform 2) d <= m)
       /\ (forall d, In d (MG.nodes Inputs.star4) ->
                     MG.degree Inputs.star4 d
                     <= m * cv (Inputs.uniform 2) d).
Proof.
  split; [reflexivity|].
  apply (@max_d_is_largest_ratio Inputs.star4 (Inputs.uniform 2)).
  - discriminate.
  - intros d Hd. cbn [Inputs.uniform cv]. unfold Exact.bound.
    split; [lia|].
    cbn [Inputs.star4 MG.nodes] in Hd.
    destruct Hd as [<-|[<-|[<-|[<-|[]]]]]; vm_compute; discriminate.
Defined.

(** max_d raises ValueError on a graph without nodes (max of an empty
    list), and ZeroDivisionError as soon as one node has capacity zero,
    whatever the degrees are. *)
Theorem max_d_errors (g : graph) (s : store) :
  (MG.nodes g = [] -> Scheduler.max_d g s = Raise ValueError)
  /\ (forall d, In d (MG.nodes g) -> cv s d = 0 ->
                Scheduler.max_d g s = Raise ZeroDivisionError).
Proof.
  split.
  - intros Hnil. unfold Scheduler.max_d, MG.degree_view. now rewrite Hnil.
  - intros d Hd Hz. now apply (max_d_zero g s d).
Qed.

(** ** Bipartite: the parity relaxation *)

Section RelaxMore.
Import Bipartite.

Lemma relax_disk_avail (s : store) (n d : disk) :
  avail (relax_disk s n) d =
  if Nat.eqb d n then avail s d - cv s d mod 2 else avail s d.
Proof.
  unfold relax_disk. destruct (Nat.eqb d n) eqn:E.
  - apply Nat.eqb_eq in E. subst n.
    destruct (cv s d mod 2 =? 0) eqn:M.
    + apply Z.eqb_eq in M. lia.
    + apply Z.eqb_neq in M. simpl. rewrite Nat.eqb_refl.
      pose proof (Z.mod_pos_bound (cv s d) 2). lia.
  - destruct (cv s n mod 2 =? 0); [reflexivity|]. simpl. now rewrite E.
Qed.

Lemma even_part_mod (c : Z) : (c - c mod 2) mod 2 = 0.
Proof. rewrite Zminus_mod_idemp_r, Z.sub_diag. reflexivity. Qed.

Lemma relax_avail_fold (l : list disk) :
  forall s d,
    avail (fold_left relax_disk l s) d =
    if mem d l then avail s d - cv s d mod 2 else avail s d.
Proof.
  induction l as [|n l IH]; intros s d; simpl; [reflexivity|].
  rewrite IH, relax_disk_avail, relax_disk_cv.
  destruct (Nat.eqb d n) eqn:E; simpl.
  - rewrite even_part_mod. destruct (mem d l); lia.
  - reflexivity.
Qed.

End RelaxMore.

(** The relaxation loop of Bipartite.gen_edges takes one slot of capacity
    and one of availability from every node of odd capacity and leaves all
    other disks alone; afterwards every node has an even capacity, and
    running the loop again changes nothing. *)
Theorem relax_makes_capacities_even (g : graph) (s : store) (d : disk) :
  cv (Bipartite.relax g s) d
  = (if mem d (MG.nodes g) then cv s d - cv s d mod 2 else cv s d)
  /\ avail (Bipartite.relax g s) d
     = (if mem d (MG.nodes g) then avail s d - cv s d mod 2 else avail s d)
  /\ (mem d (MG.nodes g) = true -> cv (Bipartite.relax g s) d mod 2 = 0)
  /\ cv (Bipartite.relax g (Bipartite.relax g s)) d
     = cv (Bipartite.relax g s) d
  /\ avail (Bipartite.relax g (Bipartite.relax g s)) d
     = avail (Bipartite.relax g s) d.
Proof.
  unfold Bipartite.relax.
  rewrite !relax_cv_fold, !relax_avail_fold, !relax_cv_fold.
  destruct (mem d (MG.nodes g)).
  - rewrite even_part_idem, even_part_mod.
    repeat split; try reflexivity; lia.
  - repeat split; try reflexivity. discriminate.
Qed.

(** ** Bipartite.normalize: the two loops *)

(** The padding loop [while graph.degree(d) < target - 1] of normalize, run
    at a node d, ends: it adds self-loops at d and nothing else, keeps the
    node list, leaves the exit test false, raises the degree of d by two
    per turn and no other degree, and does not pass the target when the
    degree started at or below it. *)
Theorem pad_loop_ends (g : graph) (d : disk) (target : Z) :
  In d (MG.nodes g) ->
  exists k,
    Bipartite.pad (Z.to_nat (target - MG.degree g d)) g d target
    = MG.mk (MG.nodes g) (MG.links g ++ repeat (d, d) k)
    /\ ~ (MG.degree
            (Bipartite.pad (Z.to_nat (target - MG.degree g d)) g d target) d
          < target - 1)
    /\ (forall n,
           MG.degree
             (Bipartite.pad (Z.to_nat (target - MG.degree g d)) g d target) n
           = MG.degree g n + (if Nat.eqb d n then 2 * Z.of_nat k else 0))
    /\ (MG.degree g d <= target ->
        MG.degree
          (Bipartite.pad (Z.to_nat (target - MG.degree g d)) g d target) d
        <= target).
Proof.
  intros Hd.
  destruct (@pad_spec d target (Z.to_nat (target - MG.degree g d)) g Hd)
    as [k [E [X Y]]]; [lia|].
  exists k. rewrite E. split; [reflexivity|].
  assert (D : forall n,
             MG.degree (MG.mk (MG.nodes g) (MG.links g ++ repeat (d, d) k)) n
             = MG.degree g n + (if Nat.eqb d n then 2 * Z.of_nat k else 0))
    by (intros n; apply degree_loops).
  split; [|split].
  - rewrite D, Nat.eqb_refl. exact X.
  - exact D.
  - intros Hle. rewrite D, Nat.eqb_refl. now apply Y.
Qed.

Lemma pad_loop_ends_witness :
  exists k,
    Bipartite.pad (Z.to_nat (5 - MG.degree Inputs.star4 1%nat))
                  Inputs.star4 1%nat 5
    = MG.mk (MG.nodes Inputs.star4)
            (MG.links Inputs.star4 ++ repeat (1, 1)%nat k).
Proof.
  assert (Hd : In 1%nat (MG.nodes Inputs.star4)) by (simpl; auto).
  destruct (@pad_loop_ends Inputs.star4 1%nat 5 Hd) as [k [E _]].
  exists k. exact E.
Defined.

Section PairMore.
Import Bipartite.

Lemma pair_spares_parity (n : nat) :
  forall (sp : list disk) (g : graph),
    (length sp <= n)%nat ->
    if Nat.even (length sp)
    then exists g',
           pair_spares g sp = Ok g'
           /\ length (MG.links g')
              = (length (MG.links g) + Nat.div2 (length sp))%nat
    else pair_spares g sp = Raise IndexError.
Proof.
  induction n as [|n IH]; intros [|a [|b sp]] g Hl;
    cbn [length] in Hl; try lia.
  - simpl. exists g. split; [reflexivity|lia].
  - simpl. exists g. split; [reflexivity|lia].
  - reflexivity.
  - cbn [pair_spares].
    assert (Hl' : (length sp <= n)%nat) by lia.
    specialize (IH sp (MG.add_edge g a b) Hl').
    change (Nat.even (length (a :: b :: sp))) with (Nat.even (length sp)).
    destruct (Nat.even (length sp)).
    + destruct IH as [g' [E L]]. exists g'. split; [exact E|].
      rewrite L, add_edge_links, length_app. simpl. lia.
    + exact IH.
Qed.

End PairMore.

(** The pairing loop at the end of normalize takes the spares two at a
    time.  With an even number of spares it returns, having added one edge
    per pair; with an odd number it raises IndexError on the spare that is
    left alone. *)
Theorem pair_spares_needs_even (g : graph) (sp : list disk) :
  (Nat.even (length sp) = true ->
   exists g',
     Bipartite.pair_spares g sp = Ok g'
     /\ length (MG.links g')
        = (length (MG.links g) + Nat.div2 (length sp))%nat)
  /\ (Nat.even (length sp) = false ->
      Bipartite.pair_spares g sp = Raise IndexError).
Proof.
  pose proof (@pair_spares_parity (length sp) sp g (Nat.le_refl _)) as P.
  destruct (Nat.even (length sp)); split; intros E;
    try discriminate; exact P.
Qed.

(** ** Bipartite: the flow network *)

Section NetworkMore.





End NetworkMore.



(** ** Bipartite: what one round of flow can schedule *)

Section RoundFacts2.




End RoundFacts2.

Section RoundFacts3.




Lemma remove_subset (net : DiGraph.t) (es : list (fnode * fnode))
  (x : (fnode * fnode) * Z) :
  In x (DiGraph.remove_edges_from net es) -> In x net /\ ~ In (fst x) es.
Proof.
  unfold DiGraph.remove_edges_from. intros Hx.
  apply filter_In in Hx as [Hx M]. split; [exact Hx|].
  apply negb_true_iff in M. now apply mem_notIn.
Qed.




End RoundFacts3.



(** ** InOrder under the loop of the simulator *)

Section InOrderRounds.
Variable free : store -> disk -> store.
Hypothesis free_one_slot :
  forall s d d', avail (free s d) d'
                 = avail s d' + (if Nat.eqb d d' then 1 else 0).

Lemma release_avail (w : list disk) :
  forall s d, avail (InOrder.release free s w) d
              = avail s d + Z.of_nat (occurrences d w).
Proof.
  unfold InOrder.release.
  induction w as [|x w IH]; intros s d; [simpl; lia|].
  cbn [fold_left]. rewrite IH, free_one_slot.
  unfold occurrences. cbn [filter].
  assert (E : @eqb disk _ d x = Nat.eqb d x) by reflexivity. rewrite E.
  rewrite (Nat.eqb_sym x d).
  destruct (Nat.eqb d x); cbn [length]; lia.
Qed.

Lemma do_work_commit (g : graph) (s : store) (q : list edge) :
  InOrder.do_work free g s q
  = Ok (CommitSpec.o_graph (CommitSpec.commit g s q),
        InOrder.release free (CommitSpec.o_store (CommitSpec.commit g s q))
                        (CommitSpec.o_active (CommitSpec.commit g s q)),
        CommitSpec.o_records (CommitSpec.commit g s q)).
Proof.
  unfold InOrder.do_work. rewrite pass_commit. reflexivity.
Qed.

Lemma do_work_avail (g : graph) (s : store) (q : list edge) (d : disk) :
  avail (InOrder.release free (CommitSpec.o_store (CommitSpec.commit g s q))
                         (CommitSpec.o_active (CommitSpec.commit g s q))) d
  = avail s d.
Proof.
  rewrite release_avail.
  destruct (commit_slots q g s d) as [E _]. rewrite E. lia.
Qed.

End InOrderRounds.

Section CommitFacts.

Lemma remove_one_nodes (g : graph) (u v : disk) :
  MG.nodes (CommitSpec.remove_one g u v) = MG.nodes g.
Proof.
  unfold CommitSpec.remove_one.
  destruct (MG.remove_last (MG.joins u v) (MG.links g)); reflexivity.
Qed.

Lemma remove_one_incl (g : graph) (u v : disk) :
  incl (MG.links (CommitSpec.remove_one g u v)) (MG.links g).
Proof.
  unfold CommitSpec.remove_one.
  destruct (MG.remove_last (MG.joins u v) (MG.links g)) as [r|] eqn:R;
    [|apply incl_refl].
  apply remove_last_perm in R as [x [_ P]]. cbn [MG.links].
  intros e He. eapply Permutation_in; [symmetry; exact P|]. now right.
Qed.

Lemma commit_nodes (q : list edge) :
  forall g s, MG.nodes (CommitSpec.o_graph (CommitSpec.commit g s q))
              = MG.nodes g.
Proof.
  induction q as [|e q IH]; intros g s; cbn [CommitSpec.commit];
    [reflexivity|].
  destruct (CommitSpec.admissible g s e); cbn [CommitSpec.o_graph].
  - rewrite IH. apply remove_one_nodes.
  - apply IH.
Qed.

Lemma commit_incl (q : list edge) :
  forall g s, incl (MG.links (CommitSpec.o_graph (CommitSpec.commit g s q)))
                   (MG.links g).
Proof.
  induction q as [|e q IH]; intros g s; cbn [CommitSpec.commit];
    [apply incl_refl|].
  destruct (CommitSpec.admissible g s e); cbn [CommitSpec.o_graph].
  - eapply incl_tran; [apply IH|apply remove_one_incl].
  - apply IH.
Qed.

Lemma commit_wf (q : list edge) (g : graph) (s : store) :
  MG.wf g -> MG.wf (CommitSpec.o_graph (CommitSpec.commit g s q)).
Proof.
  intros [ND W]. split.
  - rewrite commit_nodes. exact ND.
  - intros e He. rewrite commit_nodes. apply W. now apply commit_incl in He.
Qed.

Lemma commit_records (q : list edge) :
  forall g s e, In e (CommitSpec.o_records (CommitSpec.commit g s q)) ->
                In e q.
Proof.
  induction q as [|x q IH]; intros g s e; cbn [CommitSpec.commit];
    [intros []|].
  destruct (CommitSpec.admissible g s x); cbn [CommitSpec.o_records].
  - intros [<-|He]; [now left|right; eapply IH; eassumption].
  - intros He. right. eapply IH; eassumption.
Qed.

Lemma commit_length (q : list edge) (g : graph) (s : store) :
  length (MG.links g)
  = (length (CommitSpec.o_records (CommitSpec.commit g s q))
     + length (MG.links (CommitSpec.o_graph (CommitSpec.commit g s q))))%nat.
Proof.
  pose proof (commit_conserves q g s) as P.
  apply Permutation_length in P.
  rewrite length_app, !length_map in P. exact P.
Qed.

End CommitFacts.


Section LoopFacts.
Variable free : store -> disk -> store.
Hypothesis free_one_slot :
  forall s d d', avail (free s d) d'
                 = avail s d' + (if Nat.eqb d d' then 1 else 0).

Lemma edge_admissible (g : graph) (s : store) (e : edge) :
  MG.wf g -> (forall d, In d (MG.nodes g) -> 0 < avail s d) ->
  MG.has_edge g (fst e) (snd e) = true -> CommitSpec.admissible g s e = true.
Proof.
  intros W Hs Hh. unfold CommitSpec.admissible. rewrite Hh.
  unfold MG.has_edge in Hh. apply existsb_exists in Hh as [x [Hx J]].
  apply (proj1 (@joins_iff disk _ (fst e) (snd e) x)) in J.
  destruct (proj2 W x Hx) as [N1 N2].
  assert (Hu : In (fst e) (MG.nodes g))
    by (destruct J as [->| ->]; assumption).
  assert (Hv : In (snd e) (MG.nodes g))
    by (destruct J as [->| ->]; assumption).
  cbn [andb]. apply andb_true_iff. split.
  - apply Z.ltb_lt. now apply Hs.
  - destruct (Nat.eqb (fst e) (snd e)); [reflexivity|].
    apply Z.ltb_lt. now apply Hs.
Qed.

Lemma commit_progress (q : list edge) (g : graph) (s : store) :
  MG.wf g -> (forall d, In d (MG.nodes g) -> 0 < avail s d) ->
  (exists e, In e q /\ MG.has_edge g (fst e) (snd e) = true) ->
  CommitSpec.o_records (CommitSpec.commit g s q) <> [].
Proof.
  intros W Hs. induction q as [|x q IH]; intros [e [He Hh]];
    [destruct He|].
  cbn [CommitSpec.commit].
  destruct (CommitSpec.admissible g s x) eqn:A.
  - cbn [CommitSpec.o_records]. discriminate.
  - apply IH. exists e. split; [|exact Hh].
    destruct He as [<-|He]; [|exact He].
    rewrite (@edge_admissible g s x W Hs Hh) in A. discriminate.
Qed.

Lemma commit_cv (q : list edge) :
  forall g s d, cv (CommitSpec.o_store (CommitSpec.commit g s q)) d = cv s d.
Proof.
  induction q as [|e q IH]; intros g s d; cbn [CommitSpec.commit];
    [reflexivity|].
  destruct (CommitSpec.admissible g s e); cbn [CommitSpec.o_store].
  - rewrite IH. unfold CommitSpec.endpoints.
    destruct (Nat.eqb (fst e) (snd e)); reflexivity.
  - apply IH.
Qed.

Lemma edge_has_edge (g : graph) (e : edge) :
  MG.wf g -> In e (MG.edges g) -> MG.has_edge g (fst e) (snd e) = true.
Proof.
  intros W Hin. destruct e as [u v].
  destruct (@edges_occurrences disk _ g u v (proj1 W) Hin)
    as [_ [_ [_ M]]].
  unfold MG.has_edge. now apply (proj1 (@mult_pos disk _ _ u v)).
Qed.

Lemma no_links_no_edges (g : graph) :
  MG.wf g -> MG.links g = [] -> MG.edges g = [].
Proof.
  intros W L. destruct (MG.edges g) as [|[u v] l] eqn:E; [reflexivity|].
  assert (Hin : In (u, v) (MG.edges g)) by (rewrite E; now left).
  destruct (@edges_occurrences disk _ g u v (proj1 W) Hin)
    as [_ [_ [_ M]]].
  rewrite L in M. cbn in M. lia.
Qed.

Lemma no_edges_no_links (g : graph) :
  MG.wf g -> MG.edges g = [] -> MG.links g = [].
Proof.
  intros W E. destruct (MG.links g) as [|[u v] l] eqn:L; [reflexivity|].
  assert (Hh : MG.has_edge g u v = true).
  { unfold MG.has_edge. rewrite L. cbn [existsb].
    apply orb_true_iff. left. apply (proj2 (@joins_iff disk _ u v (u, v))).
    now left. }
  destruct (@edges_complete disk _ g u v W Hh) as [Hin|Hin];
    rewrite E in Hin; destruct Hin.
Qed.

(** a strategy that leaves the graph and the disks alone and always queues
    an edge that is still in the graph *)
Variable strategy : Type.
Variable gen_edges :
  strategy -> graph -> store -> result (list edge * strategy * graph * store).
Variable Inv : strategy -> graph -> store -> Prop.
(** what a commit pass keeps of the disks, as far as the strategy cares *)
Variable same : store -> store -> Prop.
Hypothesis do_work_same :
  forall g s q,
    same s (InOrder.release free (CommitSpec.o_store (CommitSpec.commit g s q))
                            (CommitSpec.o_active (CommitSpec.commit g s q))).
Hypothesis gen_edges_queues :
  forall st g s,
    Inv st g s -> MG.wf g -> MG.edges g <> [] ->
    exists q st',
      gen_edges st g s = Ok (q, st', g, s)
      /\ (exists e, In e q /\ MG.has_edge g (fst e) (snd e) = true)
      /\ forall g' s',
           MG.nodes g' = MG.nodes g -> incl (MG.links g') (MG.links g) ->
           same s s' -> Inv st' g' s'.

Lemma loop_ends (n : nat) :
  forall st g s,
    (length (MG.links g) <= n)%nat -> MG.wf g -> Inv st g s ->
    (forall d, In d (MG.nodes g) -> 0 < avail s d) ->
    exists ps g' s',
      Simulator.loop gen_edges (InOrder.do_work free) n st g s
      = Ok (Some (ps, g', s'))
      /\ MG.links g' = [] /\ MG.nodes g' = MG.nodes g
      /\ (forall d, avail s' d = avail s d)
      /\ (forall p, In p ps -> p <> [])
      /\ Permutation (map norm_edge (MG.links g))
                     (map norm_edge (concat ps))
      /\ (length ps <= length (MG.links g))%nat.
Proof.
  induction n as [|n IH]; intros st g s Hlen W I Hs.
  - assert (L : MG.links g = [])
      by (destruct (MG.links g); [reflexivity|simpl in Hlen; lia]).
    exists [], g, s. cbn [Simulator.loop].
    rewrite (@no_links_no_edges g W L). rewrite L.
    repeat split; auto; try (intros p []); try (now intros []).
  - cbn [Simulator.loop]. destruct (MG.edges g) as [|e l] eqn:E.
    + pose proof (@no_edges_no_links g W E) as L.
      exists [], g, s. rewrite L.
      repeat split; auto; try (intros p []); try (now intros []).
    + assert (NE : MG.edges g <> []) by (rewrite E; discriminate).
      destruct (@gen_edges_queues st g s I W NE) as [q [st' [G [Hq I']]]].
      rewrite G. cbn [bind fst snd].
      rewrite (@do_work_commit free). cbn [bind fst snd].
      set (o := CommitSpec.commit g s q).
      pose proof (@commit_progress q g s W Hs Hq) as R. fold o in R.
      pose proof (commit_length q g s) as CL. fold o in CL.
      pose proof (commit_conserves q g s) as CP. fold o in CP.
      assert (Rl : (0 < length (CommitSpec.o_records o))%nat).
      { destruct (CommitSpec.o_records o); [congruence|simpl; lia]. }
      destruct (IH st' (CommitSpec.o_graph o)
                   (InOrder.release free (CommitSpec.o_store o)
                                    (CommitSpec.o_active o)))
        as [ps [g' [s' [EL [L' [N' [A' [P' [C' Len']]]]]]]]].
      * lia.
      * apply commit_wf. exact W.
      * apply I'.
        -- unfold o. apply commit_nodes.
        -- unfold o. apply commit_incl.
        -- unfold o. apply do_work_same.
      * intros d Hd. unfold o. rewrite (@do_work_avail free free_one_slot).
        apply Hs. unfold o in Hd. now rewrite commit_nodes in Hd.
      * rewrite EL. cbn [bind option_map fst snd].
        exists (CommitSpec.o_records o :: ps), g', s'.
        split; [reflexivity|]. split; [exact L'|].
        split; [rewrite N'; unfold o; apply commit_nodes|].
        split; [intros d; rewrite A'; unfold o;
                apply (@do_work_avail free free_one_slot)|].
        split; [intros p [<-|Hp]; [exact R|now apply P']|].
        split.
        -- cbn [concat]. rewrite map_app.
           eapply Permutation_trans; [exact CP|].
           apply Permutation_app_head. exact C'.
        -- cbn [length]. lia.
Qed.

End LoopFacts.

Section ReleaseFacts.
Variable free : store -> disk -> store.
Hypothesis free_keeps_cv : forall s d d', cv (free s d) d' = cv s d'.

Lemma release_cv (w : list disk) :
  forall s d, cv (InOrder.release free s w) d = cv s d.
Proof.
  unfold InOrder.release.
  induction w as [|x w IH]; intros s d; [reflexivity|].
  cbn [fold_left]. rewrite IH. apply free_keeps_cv.
Qed.

End ReleaseFacts.

(** One commit pass never raises and hands every slot it reserved back:
    when [Disk.free] gives one slot back, the availability of every disk
    after [do_work] is what it was before, whatever the queue.  The pass
    keeps the nodes, prints only edges of the queue, and the graph loses
    exactly one edge for every line printed. *)
Theorem do_work_gives_slots_back (free : store -> disk -> store)
  (g : graph) (s : store) (q : list edge) :
  (forall s d d', avail (free s d) d'
                  = avail s d' + (if Nat.eqb d d' then 1 else 0)) ->
  exists g' s' p,
    InOrder.do_work free g s q = Ok (g', s', p)
    /\ (forall d, avail s' d = avail s d)
    /\ MG.nodes g' = MG.nodes g
    /\ incl (MG.links g') (MG.links g)
    /\ length (MG.links g) = (length p + length (MG.links g'))%nat
    /\ forall e, In e p -> In e q.
Proof.
  intros Hfree. rewrite (@do_work_commit free).
  do 3 eexists. split; [reflexivity|].
  split; [intros d; apply (@do_work_avail free Hfree)|].
  split; [apply commit_nodes|]. split; [apply commit_incl|].
  split; [apply commit_length|]. intros e. apply commit_records.
Qed.

Lemma free_one_gives_one (s : store) (d d' : disk) :
  avail (Inputs.free_one s d) d'
  = avail s d' + (if Nat.eqb d d' then 1 else 0).
Proof.
  unfold Inputs.free_one, set_avail. cbn [avail].
  rewrite (Nat.eqb_sym d' d).
  destruct (Nat.eqb_spec d d') as [->|N]; lia.
Qed.

Lemma triangle_wf : MG.wf Inputs.triangle.
Proof.
  split.
  - repeat constructor; simpl; intuition discriminate.
  - intros e He. simpl in He.
    destruct He as [<-|[<-|[<-|[]]]]; simpl; auto.
Qed.

Lemma do_work_gives_slots_back_witness :
  exists g' s' p,
    InOrder.do_work Inputs.free_one Inputs.triangle (Inputs.uniform 1)
                    (InOrder.gen_edges Inputs.triangle) = Ok (g', s', p)
    /\ (forall d, avail s' d = avail (Inputs.uniform 1) d)
    /\ MG.nodes g' = MG.nodes Inputs.triangle
    /\ incl (MG.links g') (MG.links Inputs.triangle)
    /\ length (MG.links Inputs.triangle)
       = (length p + length (MG.links g'))%nat
    /\ forall e, In e p -> In e (InOrder.gen_edges Inputs.triangle).
Proof.
  exact (@do_work_gives_slots_back Inputs.free_one Inputs.triangle
           (Inputs.uniform 1) (InOrder.gen_edges Inputs.triangle)
           free_one_gives_one).
Defined.

(** The loop of the simulator with InOrder ends.  On a well-formed graph
    whose disks all have a free slot, and with a [Disk.free] that gives one
    slot back, the loop stops after at most as many rounds as the graph has
    edges; every round prints at least one transfer, the transfers printed
    are the edges of the graph, each once, the graph ends without edges and
    every disk with the availability it started with. *)
Theorem inorder_simulation_ends (free : store -> disk -> store)
  (g : graph) (s : store) (fuel : nat) :
  (forall s d d', avail (free s d) d'
                  = avail s d' + (if Nat.eqb d d' then 1 else 0)) ->
  MG.wf g ->
  (forall d, In d (MG.nodes g) -> 0 < avail s d) ->
  (length (MG.links g) <= fuel)%nat ->
  exists ps g' s',
    Simulator.loop Simulator.inorder_gen_edges (InOrder.do_work free)
                   fuel tt g s = Ok (Some (ps, g', s'))
    /\ MG.links g' = [] /\ MG.nodes g' = MG.nodes g
    /\ (forall d, avail s' d = avail s d)
    /\ (forall p, In p ps -> p <> [])
    /\ Permutation (map norm_edge (MG.links g)) (map norm_edge (concat ps))
    /\ (length ps <= length (MG.links g))%nat.
Proof.
  intros Hfree W Hs Hlen.
  apply (@loop_ends free Hfree unit Simulator.inorder_gen_edges
           (fun _ _ _ => True) (fun _ _ => True)); auto.
  intros st g0 s0 _ W0 NE. exists (InOrder.gen_edges g0), st.
  split; [reflexivity|]. split; [|auto].
  unfold InOrder.gen_edges. destruct (MG.edges g0) as [|e l] eqn:E;
    [congruence|].
  exists e. split; [now left|]. apply (@edge_has_edge g0 e W0).
  rewrite E. now left.
Qed.

Lemma inorder_simulation_ends_witness :
  exists ps g' s',
    Simulator.loop Simulator.inorder_gen_edges
                   (InOrder.do_work Inputs.free_one)
                   3 tt Inputs.triangle (Inputs.uniform 1)
    = Ok (Some (ps, g', s'))
    /\ MG.links g' = [] /\ MG.nodes g' = MG.nodes Inputs.triangle
    /\ (forall d, avail s' d = avail (Inputs.uniform 1) d)
    /\ (forall p, In p ps -> p <> [])
    /\ Permutation (map norm_edge (MG.links Inputs.triangle))
                   (map norm_edge (concat ps))
    /\ (length ps <= length (MG.links Inputs.triangle))%nat.
Proof.
  apply (@inorder_simulation_ends Inputs.free_one Inputs.triangle
           (Inputs.uniform 1) 3 free_one_gives_one triangle_wf).
  - intros d _. simpl. lia.
  - simpl. lia.
Defined.

Section EdgeRankingLoop.

Lemma edge_ranking_queue (g : graph) (s : store) :
  MG.wf g -> (forall d, In d (MG.nodes g) -> cv s d <> 0) ->
  exists q, EdgeRanking.gen_edges g s = Ok q /\ Permutation q (MG.edges g).
Proof.
  intros W Hcv. unfold EdgeRanking.gen_edges.
  rewrite (dv_cv_ok g s Hcv). simpl.
  rewrite (@weighted_any g (Scheduler.ratio g s) W). simpl.
  eexists. split; [reflexivity|].
  set (weighted := map (fun e => (Scheduler.ratio g s (fst e)
                                  + Scheduler.ratio g s (snd e), e))
                       (MG.edges g)).
  assert (Hsnd : map snd weighted = MG.edges g).
  { unfold weighted. rewrite map_map. simpl. apply map_id. }
  transitivity (map snd weighted); [|now rewrite Hsnd].
  apply Permutation_map, sorted_perm.
Qed.

End EdgeRankingLoop.

(** The loop of the simulator with EdgeRanking ends.  On a well-formed
    graph whose disks have a capacity other than zero and a free slot, and
    with a [Disk.free] that gives one slot back and leaves the capacity
    alone, no round raises, the loop stops after at most as many rounds as
    the graph has edges, every round prints at least one transfer and the
    transfers printed are the edges of the graph, each once. *)
Theorem edge_ranking_simulation_ends (free : store -> disk -> store)
  (g : graph) (s : store) (fuel : nat) :
  (forall s d d', avail (free s d) d'
                  = avail s d' + (if Nat.eqb d d' then 1 else 0)) ->
  (forall s d d', cv (free s d) d' = cv s d') ->
  MG.wf g ->
  (forall d, In d (MG.nodes g) -> cv s d <> 0 /\ 0 < avail s d) ->
  (length (MG.links g) <= fuel)%nat ->
  exists ps g' s',
    Simulator.loop Simulator.edge_ranking_gen_edges (InOrder.do_work free)
                   fuel tt g s = Ok (Some (ps, g', s'))
    /\ MG.links g' = [] /\ MG.nodes g' = MG.nodes g
    /\ (forall d, avail s' d = avail s d)
    /\ (forall p, In p ps -> p <> [])
    /\ Permutation (map norm_edge (MG.links g)) (map norm_edge (concat ps))
    /\ (length ps <= length (MG.links g))%nat.
Proof.
  intros Hfree Hcv W Hs Hlen.
  apply (@loop_ends free Hfree unit Simulator.edge_ranking_gen_edges
           (fun _ g0 s0 => forall d, In d (MG.nodes g0) -> cv s0 d <> 0)
           (fun s0 s1 => forall d, cv s1 d = cv s0 d)); auto.
  - intros g0 s0 q d. rewrite (@release_cv free Hcv). apply commit_cv.
  - intros st g0 s0 I W0 NE.
    destruct (@edge_ranking_queue g0 s0 W0 I) as [q [Hq P]].
    exists q, st. unfold Simulator.edge_ranking_gen_edges. rewrite Hq.
    split; [reflexivity|]. split.
    + destruct (MG.edges g0) as [|e l] eqn:E; [congruence|].
      exists e. split.
      * apply (Permutation_in e (Permutation_sym P)). now left.
      * apply (@edge_has_edge g0 e W0). rewrite E. now left.
    + intros g' s' N _ S d Hd. rewrite S. apply I. now rewrite <- N.
  - intros d Hd. exact (proj1 (Hs d Hd)).
  - intros d Hd. exact (proj2 (Hs d Hd)).
Qed.

Lemma free_one_keeps_cv (s : store) (d d' : disk) :
  cv (Inputs.free_one s d) d' = cv s d'.
Proof. reflexivity. Qed.

Lemma edge_ranking_simulation_ends_witness :
  exists ps g' s',
    Simulator.loop Simulator.edge_ranking_gen_edges
                   (InOrder.do_work Inputs.free_one)
                   3 tt Inputs.triangle (Inputs.uniform 1)
    = Ok (Some (ps, g', s'))
    /\ MG.links g' = [] /\ MG.nodes g' = MG.nodes Inputs.triangle
    /\ (forall d, avail s' d = avail (Inputs.uniform 1) d)
    /\ (forall p, In p ps -> p <> [])
    /\ Permutation (map norm_edge (MG.links Inputs.triangle))
                   (map norm_edge (concat ps))
    /\ (length ps <= length (MG.links Inputs.triangle))%nat.
Proof.
  apply (@edge_ranking_simulation_ends Inputs.free_one Inputs.triangle
           (Inputs.uniform 1) 3 free_one_gives_one free_one_keeps_cv
           triangle_wf).
  - intros d _. simpl. split; [discriminate|lia].
  - simpl. lia.
Defined.

Lemma greedy_loop_shape
  (maximal_matching : agraph -> list (node * node)) (fuel : nat) :
  forall (st : option agraph * nat) (g : graph) (s : store),
    exists r,
      Simulator.loop (Simulator.greedy_gen_edges maximal_matching)
                     Simulator.greedy_do_work fuel st g s = Ok r
      /\ forall ps g' s',
           r = Some (ps, g', s') -> MG.edges g <> [] ->
           s' = s /\ g' = MG.empty
           /\ exists ps0, ps = ps0 ++ [[]] /\ forall p, In p ps0 -> p <> [].
Proof.
  induction fuel as [|n IH]; intros st g s; cbn [Simulator.loop].
  - destruct (MG.edges g) as [|e l] eqn:E.
    + eexists. split; [reflexivity|]. intros ps g' s' _ NE. congruence.
    + eexists. split; [reflexivity|]. intros ps g' s' X. discriminate.
  - destruct (MG.edges g) as [|e l] eqn:E.
    + eexists. split; [reflexivity|]. intros ps g' s' _ NE. congruence.
    + unfold Simulator.greedy_gen_edges at 1. cbn [bind fst snd].
      unfold Simulator.greedy_do_work at 1. cbn [bind fst snd].
      set (r1 := Greedy.gen_edges maximal_matching (fst st) g s (snd st)).
      destruct (fst (fst r1)) as [|x q] eqn:Q; cbn [Greedy.do_work fst snd].
      * destruct n; cbn [Simulator.loop MG.clear].
        -- change (MG.edges (@MG.empty disk)) with (@nil edge).
           cbn [bind option_map fst snd].
           eexists. split; [reflexivity|]. intros ps g' s' X _.
           inversion X; subst. split; [reflexivity|]. split; [reflexivity|].
           exists []. split; [reflexivity|]. intros p [].
        -- change (MG.edges (@MG.empty disk)) with (@nil edge).
           cbn [bind option_map fst snd].
           eexists. split; [reflexivity|]. intros ps g' s' X _.
           inversion X; subst. split; [reflexivity|]. split; [reflexivity|].
           exists []. split; [reflexivity|]. intros p [].
      * destruct (IH (snd (fst r1), snd r1) g s) as [r [R HR]].
        rewrite R. cbn [bind]. eexists. split; [reflexivity|].
        intros ps g' s' X _. destruct r as [[[ps1 g1] s1]|];
          cbn [option_map fst snd] in X; [|discriminate].
        inversion X; subst.
        destruct (HR ps1 g' s' eq_refl) as [S1 [G1 [ps0 [P1 P2]]]].
        { rewrite E. discriminate. }
        split; [exact S1|]. split; [exact G1|].
        exists ((x :: q) :: ps0). split; [rewrite P1; reflexivity|].
        intros p [<-|Hp]; [discriminate|now apply P2].
Qed.

(** The loop of the simulator with Greedy stops only by clearing the graph.
    Greedy's [do_work] removes no edge while the matching it is handed is
    not empty, so on a graph with edges a run that ends has gone on until
    [nx.maximal_matching] returned nothing: that last round prints nothing
    and is counted, every round before it printed a non-empty queue, the
    graph is left without nodes and no disk is touched.  The statement is
    about the runs in which every call of [nx.maximal_matching] returned;
    nothing is said of a networkx whose [maximal_matching] refuses a
    MultiGraph and raises. *)
Theorem greedy_simulation_clears
  (maximal_matching : agraph -> list (node * node)) (fuel : nat)
  (st : option agraph * nat) (g : graph) (s : store)
  (ps : list (list edge)) (g' : graph) (s' : store) :
  Simulator.loop (Simulator.greedy_gen_edges maximal_matching)
                 Simulator.greedy_do_work fuel st g s
  = Ok (Some (ps, g', s')) ->
  MG.edges g <> [] ->
  s' = s /\ g' = MG.empty
  /\ exists ps0, ps = ps0 ++ [[]] /\ forall p, In p ps0 -> p <> [].
Proof.
  intros R NE.
  destruct (@greedy_loop_shape maximal_matching fuel st g s) as [r [R' H]].
  rewrite R in R'. inversion R'; subst r.
  exact (H ps g' s' eq_refl NE).
Qed.

Lemma greedy_simulation_clears_witness :
  Simulator.loop (Simulator.greedy_gen_edges Oracles.first_fit_matching)
                 Simulator.greedy_do_work 3 (None, O)
                 Inputs.path3 (Inputs.uniform 1)
  = Ok (Some ([[(0, 1); (1, 0); (2, 1)]; [(1, 2)]; []]%nat,
              MG.empty, Inputs.uniform 1))
  /\ MG.edges Inputs.path3 <> []
  /\ Inputs.uniform 1 = Inputs.uniform 1
  /\ @MG.empty disk = MG.empty
  /\ exists ps0,
       [[(0, 1); (1, 0); (2, 1)]; [(1, 2)]; []]%nat = ps0 ++ [[]]
       /\ forall p : list edge, In p ps0 -> p <> [].
Proof.
  assert (R : Simulator.loop
                (Simulator.greedy_gen_edges Oracles.first_fit_matching)
                Simulator.greedy_do_work 3 (None, O)
                Inputs.path3 (Inputs.uniform 1)
              = Ok (Some ([[(0, 1); (1, 0); (2, 1)]; [(1, 2)]; []]%nat,
                          MG.empty, Inputs.uniform 1)))
    by reflexivity.
  assert (NE : MG.edges Inputs.path3 <> []) by (vm_compute; discriminate).
  split; [exact R|]. split; [exact NE|].
  exact (@greedy_simulation_clears Oracles.first_fit_matching 3 (None, O)
           Inputs.path3 (Inputs.uniform 1) _ _ _ R NE).
Defined.

(** ** EdgeRanking: a capacity of zero *)

(** A node of capacity zero makes EdgeRanking fail: dv_cv divides its
    degree by the capacity for every node of the graph, so gen_edges raises
    ZeroDivisionError even when that node has no edge at all. *)
Theorem edge_ranking_zero_capacity (g : graph) (s : store) (d : disk) :
  In d (MG.nodes g) -> cv s d = 0 ->
  EdgeRanking.dv_cv g s = Raise ZeroDivisionError
  /\ EdgeRanking.gen_edges g s = Raise ZeroDivisionError.
Proof.
  intros Hd Hz.
  assert (E : EdgeRanking.dv_cv g s = Raise ZeroDivisionError).
  { unfold EdgeRanking.dv_cv.
    apply (@mapM_raise _ _ _ ZeroDivisionError).
    - intros x _. unfold ceil_div. destruct (cv s (fst x) =? 0);
        cbn [bind]; eauto.
    - exists (d, MG.degree g d). split.
      + unfold MG.degree_view. apply in_map_iff. eauto.
      + cbn [fst snd]. unfold ceil_div. now rewrite Hz. }
  split; [exact E|]. unfold EdgeRanking.gen_edges. now rewrite E.
Qed.

Lemma edge_ranking_zero_capacity_witness :
  EdgeRanking.dv_cv (MG.mk [0; 1]%nat []) (Inputs.uniform 0)
  = Raise ZeroDivisionError
  /\ EdgeRanking.gen_edges (MG.mk [0; 1]%nat []) (Inputs.uniform 0)
     = Raise ZeroDivisionError.
Proof.
  apply (@edge_ranking_zero_capacity (MG.mk [0; 1]%nat [])
           (Inputs.uniform 0) 1%nat).
  - simpl. auto.
  - reflexivity.
Defined.

(** ** FlattenAndColor: the cached queue *)

(** FlattenAndColor colours once.  After a call that left an alias graph
    with at least one node in the cache, every later call returns the same
    queue and the same cache, whatever graph and disks it is given: the
    queue is never adjusted to the edges that were already moved. *)
Theorem flatten_and_color_queue_is_cached
  (c : FlattenAndColor.cache) (g : graph) (s : store) (k : nat) :
  FlattenAndColor.falsy
    (FlattenAndColor.a_graph (snd (fst (FlattenAndColor.gen_edges c g s k))))
  = false ->
  forall g2 s2 k2,
    FlattenAndColor.gen_edges
      (snd (fst (FlattenAndColor.gen_edges c g s k))) g2 s2 k2
    = (fst (fst (FlattenAndColor.gen_edges c g s k)),
       snd (fst (FlattenAndColor.gen_edges c g s k)), k2).
Proof.
  intros F g2 s2 k2.
  unfold FlattenAndColor.gen_edges at 1. rewrite F.
  unfold FlattenAndColor.gen_edges.
  destruct (FlattenAndColor.falsy (FlattenAndColor.a_graph c)).
  - destruct (FlattenAndColor.split g s k) as [a k1]. reflexivity.
  - reflexivity.
Qed.

Lemma flatten_and_color_queue_is_cached_witness :
  FlattenAndColor.gen_edges
    (snd (fst (FlattenAndColor.gen_edges FlattenAndColor.init Inputs.path3
                 (Inputs.uniform 1) 0)))
    Inputs.one_edge (Inputs.uniform 2) 7
  = (fst (fst (FlattenAndColor.gen_edges FlattenAndColor.init Inputs.path3
                 (Inputs.uniform 1) 0)),
     snd (fst (FlattenAndColor.gen_edges FlattenAndColor.init Inputs.path3
                 (Inputs.uniform 1) 0)), 7%nat).
Proof.
  apply (@flatten_and_color_queue_is_cached FlattenAndColor.init
           Inputs.path3 (Inputs.uniform 1) 0).
  vm_compute. reflexivity.
Defined.

(** ** Bipartite: the calls after the first *)

(** Once the strategy is normalized, gen_edges neither reads nor writes the
    demand graph and the disks: it hands both back as they are, and its
    queue and the network it keeps depend on the stored network and the
    flow alone.  A transfer that do_work puts off is therefore not queued
    again: its arc is gone from the network. *)
Theorem later_calls_ignore_the_graph
  (eulerian_circuit : graph -> result (list edge))
  (maximum_flow : DiGraph.t -> flow_dict)
  (net : DiGraph.t) (g : graph) (s : store) :
  exists q,
    Bipartite.gen_edges eulerian_circuit maximum_flow
                        (Bipartite.mkState true (Some net)) g s
    = Ok (q,
          Bipartite.mkState true
            (Some (DiGraph.remove_edges_from
                     net (Bipartite.active (maximum_flow net)))),
          g, s)
    /\ (forall cap a, In a (Bipartite.active (maximum_flow net)) ->
          ~ In (a, cap)
               (DiGraph.remove_edges_from
                  net (Bipartite.active (maximum_flow net))))
    /\ forall g2 s2,
         Bipartite.gen_edges eulerian_circuit maximum_flow
                             (Bipartite.mkState true (Some net)) g2 s2
         = Ok (q,
               Bipartite.mkState true
                 (Some (DiGraph.remove_edges_from
                          net (Bipartite.active (maximum_flow net)))),
               g2, s2).
Proof.
  destruct (reassociate_active (maximum_flow net)) as [q Q].
  exists q. unfold Bipartite.gen_edges.
  cbn [Bipartite.normalized Bipartite.b negb bind]. rewrite Q. cbn [bind].
  split; [reflexivity|]. split; [|reflexivity].
  intros cap a Ha Hin. apply remove_subset in Hin as [_ N]. now apply N.
Qed.

(** ** FlattenAndColor: the alias graph *)

Section AliasFacts.
Import FlattenAndColor.

Lemma add_edges_from_links {A} `{EqDec A} (es : list (A * A)) :
  forall g : MG.t A, MG.links (MG.add_edges_from g es) = MG.links g ++ es.
Proof.
  unfold MG.add_edges_from.
  induction es as [|e es IH]; intros g; cbn [fold_left].
  - now rewrite app_nil_r.
  - rewrite IH, add_edge_links. destruct e. cbn [fst snd].
    now rewrite <- app_assoc.
Qed.

Lemma edges_of_fst (g : graph) (d : disk) (e : edge) :
  In e (MG.edges_of g d) -> fst e = d.
Proof.
  unfold MG.edges_of, MG.edges_at. intros Hin.
  apply in_flat_map in Hin as [nbr [_ Hin]].
  destruct (mem nbr []); [destruct Hin|].
  apply repeat_spec in Hin. now subst.
Qed.

(** the edges made for one node *)
Lemma alias_node_links (g : graph) (a : agraph) (k : nat) (d : disk) :
  MG.links (fst (alias_node g (a, k) d))
  = MG.links a
    ++ map (fun ie => (Alias k (Disk d),
                       Alias (S k + fst ie) (Disk (snd (snd ie)))))
           (combine (seq 0 (length (MG.edges_of g d))) (MG.edges_of g d))
  /\ snd (alias_node g (a, k) d) = (S k + length (MG.edges_of g d))%nat.
Proof.
  unfold alias_node. cbn [fst snd].
  rewrite add_edges_from_links, add_node_links. split; reflexivity.
Qed.

Lemma numbered_org (k : nat) (d : disk) (es : list edge) :
  forall a,
    map AliasSpec.org_edge
        (map (fun ie => (Alias k (Disk d),
                         Alias (S k + fst ie) (Disk (snd (snd ie)))))
             (combine (seq a (length es)) es))
    = map (fun e => (d, snd e)) es.
Proof.
  induction es as [|e es IH]; intros a; [reflexivity|].
  cbn [length seq combine map]. rewrite IH. reflexivity.
Qed.

Lemma numbered_In (k : nat) (d : disk) (es : list edge) (a : nat)
  (e : node * node) :
  In e (map (fun ie => (Alias k (Disk d),
                        Alias (S k + fst ie) (Disk (snd (snd ie)))))
            (combine (seq a (length es)) es)) ->
  exists i v, (a <= i < a + length es)%nat
              /\ e = (Alias k (Disk d), Alias (S k + i) (Disk v)).
Proof.
  intros Hin. apply in_map_iff in Hin as [[i x] [<- Hin]].
  apply in_combine_l in Hin. apply in_seq in Hin.
  exists i, (snd x). split; [exact Hin|reflexivity].
Qed.

Lemma numbered_NoDup (k : nat) (d : disk) (es : list edge) :
  forall a,
    NoDup (map snd
             (map (fun ie => (Alias k (Disk d),
                              Alias (S k + fst ie) (Disk (snd (snd ie)))))
                  (combine (seq a (length es)) es))).
Proof.
  induction es as [|e es IH]; intros a; [constructor|].
  cbn [length seq combine map]. constructor; [|apply IH].
  intros Hin. apply in_map_iff in Hin as [x [Ex Hx]].
  apply numbered_In in Hx as [i [v [Hi ->]]].
  cbn [fst snd] in Ex. inversion Ex. lia.
Qed.

Lemma alias_node_stars (g : graph) (a : agraph) (k0 k : nat) (d : disk) :
  (k0 <= k)%nat -> AliasSpec.stars k0 k (MG.links a) ->
  AliasSpec.stars k0 (snd (alias_node g (a, k) d))
                  (MG.links (fst (alias_node g (a, k) d))).
Proof.
  intros Hk [S1 [S2 S3]].
  destruct (alias_node_links g a k d) as [-> ->].
  set (es := MG.edges_of g d).
  assert (New : forall e,
             In e (map (fun ie => (Alias k (Disk d),
                                   Alias (S k + fst ie)
                                         (Disk (snd (snd ie)))))
                       (combine (seq 0 (length es)) es)) ->
             exists i v, (i < length es)%nat
                         /\ e = (Alias k (Disk d),
                                 Alias (S k + i) (Disk v))).
  { intros e He. apply numbered_In in He as [i [v [Hi ->]]].
    exists i, v. split; [lia|reflexivity]. }
  split; [|split].
  - intros e He. apply in_app_or in He as [He|He].
    + destruct (S1 e He) as [i [j [x [v [-> [B1 [B2 B3]]]]]]].
      exists i, j, x, v. repeat split; auto; lia.
    + destruct (New e He) as [i [v [Hi ->]]].
      exists k, (S k + i)%nat, d, v. repeat split; auto; lia.
  - rewrite map_app. apply NoDup_app; [exact S2|apply numbered_NoDup|].
    intros x Hx Hx'.
    apply in_map_iff in Hx as [e [<- He]].
    apply in_map_iff in Hx' as [e' [Ee' He']].
    destruct (S1 e He) as [i [j [x [v [-> [B1 [B2 B3]]]]]]].
    destruct (New e' He') as [i' [v' [Hi' ->]]].
    cbn [fst snd] in Ee'. inversion Ee'. lia.
  - intros e e' He He'.
    apply in_app_or in He as [He|He]; apply in_app_or in He' as [He'|He'].
    + now apply S3.
    + destruct (S1 e He) as [i [j [x [v [-> [B1 [B2 B3]]]]]]].
      destruct (New e' He') as [i' [v' [Hi' ->]]].
      cbn [fst snd]. intros X. inversion X. lia.
    + destruct (New e He) as [i [v [Hi ->]]].
      destruct (S1 e' He') as [i' [j' [x' [v' [-> [B1 [B2 B3]]]]]]].
      cbn [fst snd]. intros X. inversion X. lia.
    + destruct (New e He) as [i [v [Hi ->]]].
      destruct (New e' He') as [i' [v' [Hi' ->]]].
      cbn [fst snd]. intros X. inversion X. lia.
Qed.

Lemma alias_fold (g : graph) (ns : list disk) :
  forall (a : agraph) (k0 k : nat),
    (k0 <= k)%nat -> AliasSpec.stars k0 k (MG.links a) ->
    AliasSpec.stars k0 (snd (fold_left (alias_node g) ns (a, k)))
                    (MG.links (fst (fold_left (alias_node g) ns (a, k))))
    /\ map AliasSpec.org_edge
           (MG.links (fst (fold_left (alias_node g) ns (a, k))))
       = map AliasSpec.org_edge (MG.links a)
         ++ flat_map (MG.edges_of g) ns
    /\ (snd (fold_left (alias_node g) ns (a, k)) + length (MG.links a)
        = k + length ns
          + length (MG.links (fst (fold_left (alias_node g) ns (a, k)))))%nat.
Proof.
  induction ns as [|d ns IH]; intros a k0 k Hk S; cbn [fold_left].
  - cbn [fst snd flat_map length]. rewrite app_nil_r.
    split; [exact S|]. split; [reflexivity|lia].
  - pose proof (@alias_node_stars g a k0 k d Hk S) as S'.
    destruct (alias_node_links g a k d) as [L K].
    destruct (alias_node g (a, k) d) as [a1 k1] eqn:E.
    cbn [fst snd] in *.
    assert (Hk1 : (k0 <= k1)%nat) by lia.
    destruct (IH a1 k0 k1 Hk1 S') as [I1 [I2 I3]].
    split; [exact I1|]. split.
    + rewrite I2, L, map_app, numbered_org, <- app_assoc.
      cbn [flat_map]. f_equal. f_equal.
      transitivity (map (fun e : edge => e) (MG.edges_of g d));
        [|apply map_id].
      apply map_ext_in. intros [u v] Hin.
      apply edges_of_fst in Hin. cbn [fst snd] in *. now subst.
    + rewrite L, length_app, length_map, length_combine, length_seq,
        Nat.min_id in I3. cbn [length]. lia.
Qed.

End AliasFacts.

(** alias_graph turns every report of an edge at a node into an edge of its
    own between two fresh Aliases.  Read back through [org], the edges of
    the alias graph are the edges reported at each node of the demand
    graph, node by node, so an edge between two different disks is there
    twice, once from each end.  The alias graph is a set of stars: each
    edge goes from the Alias made for the node to an Alias no other edge
    touches.  One Alias is made per node and one per edge. *)
Theorem alias_graph_is_stars (g : graph) (k : nat) :
  map AliasSpec.org_edge (MG.links (fst (FlattenAndColor.alias_graph g k)))
  = flat_map (MG.edges_of g) (MG.nodes g)
  /\ AliasSpec.stars k (snd (FlattenAndColor.alias_graph g k))
                     (MG.links (fst (FlattenAndColor.alias_graph g k)))
  /\ snd (FlattenAndColor.alias_graph g k)
     = (k + length (MG.nodes g)
        + length (MG.links (fst (FlattenAndColor.alias_graph g k))))%nat.
Proof.
  unfold FlattenAndColor.alias_graph.
  assert (S0 : AliasSpec.stars k k (MG.links (@MG.empty node))).
  { split; [intros e []|]. split; [constructor|intros e e' []]. }
  destruct (@alias_fold g (MG.nodes g) MG.empty k k (Nat.le_refl k) S0)
    as [I1 [I2 I3]].
  split; [exact I2|]. split; [exact I1|].
  cbn [MG.links MG.empty length] in I3. lia.
Qed.

(** ** FlattenAndColor.split *)

Section SplitFacts.
Import FlattenAndColor.
Variable s : store.
Variable k1 : nat.

(** what the loops of [split] keep true of [new_edges] and the counter *)
Lemma clone_loop_one (a : agraph) (d : node) (n : nat) :
  forall st : list (node * node) * nat,
    ((1 <= n)%nat -> 2 < cv s (org d)) ->
    ((forall e1 e2, In e1 (fst st) -> In e2 (fst st) -> fst e1 = fst e2)
     /\ (forall e, In e (fst st) ->
           exists j x, fst e = Alias j (Disk x)
                       /\ (k1 <= j < snd st)%nat /\ 2 < cv s x)
     /\ (k1 <= snd st)%nat) ->
    (forall e1 e2, In e1 (fst (clone_loop n a d st)) ->
                   In e2 (fst (clone_loop n a d st)) -> fst e1 = fst e2)
    /\ (forall e, In e (fst (clone_loop n a d st)) ->
          exists j x, fst e = Alias j (Disk x)
                      /\ (k1 <= j < snd (clone_loop n a d st))%nat
                      /\ 2 < cv s x)
    /\ (k1 <= snd (clone_loop n a d st))%nat.
Proof.
  induction n as [|n IH]; intros st Hn P; cbn [clone_loop]; [exact P|].
  destruct P as [_ [_ P3]].
  apply IH; [intros _; apply Hn; lia|]. cbn [fst snd].
  split; [|split; [|lia]].
  - intros e1 e2 H1 H2.
    apply in_map_iff in H1 as [x1 [<- _]].
    apply in_map_iff in H2 as [x2 [<- _]]. reflexivity.
  - intros e He. apply in_map_iff in He as [x [<- _]]. cbn [fst].
    exists (snd st), (org d). split; [reflexivity|].
    split; [lia|apply Hn; lia].
Qed.

Lemma split_fold_one (a : agraph) (ns : list node) :
  forall st : list (node * node) * nat,
    ((forall e1 e2, In e1 (fst st) -> In e2 (fst st) -> fst e1 = fst e2)
     /\ (forall e, In e (fst st) ->
           exists j x, fst e = Alias j (Disk x)
                       /\ (k1 <= j < snd st)%nat /\ 2 < cv s x)
     /\ (k1 <= snd st)%nat) ->
    let r := fold_left (fun st d =>
                          if 1 <? cv s (org d)
                          then clone_loop (Z.to_nat (cv s (org d) - 2)) a d st
                          else st) ns st in
    (forall e1 e2, In e1 (fst r) -> In e2 (fst r) -> fst e1 = fst e2)
    /\ (forall e, In e (fst r) ->
          exists j x, fst e = Alias j (Disk x)
                      /\ (k1 <= j < snd r)%nat /\ 2 < cv s x)
    /\ (k1 <= snd r)%nat.
Proof.
  induction ns as [|d ns IH]; intros st P; cbn [fold_left]; [exact P|].
  apply IH. destruct (1 <? cv s (org d)); [|exact P].
  apply clone_loop_one; [lia|exact P].
Qed.

Lemma split_fold_small (a : agraph) (ns : list node) :
  (forall d, cv s d <= 2) ->
  forall st : list (node * node) * nat,
    fold_left (fun st d =>
                 if 1 <? cv s (org d)
                 then clone_loop (Z.to_nat (cv s (org d) - 2)) a d st
                 else st) ns st = st.
Proof.
  intros Hcv. induction ns as [|d ns IH]; intros st; cbn [fold_left];
    [reflexivity|].
  assert (E : (if 1 <? cv s (org d)
               then clone_loop (Z.to_nat (cv s (org d) - 2)) a d st
               else st) = st).
  { destruct (1 <? cv s (org d)); [|reflexivity].
    specialize (Hcv (org d)).
    replace (Z.to_nat (cv s (org d) - 2)) with O by lia. reflexivity. }
  rewrite E. apply IH.
Qed.

End SplitFacts.

(** split does not make cv aliases per node.  It returns the alias graph
    with the edges of at most one clone added: [new_edges] is overwritten
    by every turn of the inner loop and [new_disks] is never filled, so all
    added edges start at one and the same fresh Alias, which stands for a
    disk of capacity above 2.  When no capacity is above 2 the inner loop
    [range(1, cv - 1)] has no turn and split returns the alias graph as it
    is. *)
Theorem split_adds_one_clone (g : graph) (s : store) (k : nat) :
  exists ne,
    MG.links (fst (FlattenAndColor.split g s k))
    = MG.links (fst (FlattenAndColor.alias_graph g k)) ++ ne
    /\ (forall e1 e2, In e1 ne -> In e2 ne -> fst e1 = fst e2)
    /\ (forall e, In e ne ->
          exists j d,
            fst e = Alias j (Disk d)
            /\ (snd (FlattenAndColor.alias_graph g k) <= j
                < snd (FlattenAndColor.split g s k))%nat
            /\ 2 < cv s d)
    /\ ((forall d, cv s d <= 2) ->
        ne = []
        /\ FlattenAndColor.split g s k = FlattenAndColor.alias_graph g k).
Proof.
  unfold FlattenAndColor.split.
  destruct (FlattenAndColor.alias_graph g k) as [a k1]. cbn [fst snd].
  assert (P0 : (forall e1 e2 : node * node,
                   In e1 (fst (@nil (node * node), k1)) ->
                   In e2 (fst (@nil (node * node), k1)) -> fst e1 = fst e2)
               /\ (forall e : node * node,
                     In e (fst (@nil (node * node), k1)) ->
                     exists j x, fst e = Alias j (Disk x)
                                 /\ (k1 <= j < snd (@nil (node * node), k1))%nat
                                 /\ 2 < cv s x)
               /\ (k1 <= snd (@nil (node * node), k1))%nat).
  { cbn [fst snd]. split; [intros e1 e2 []|]. split; [intros e []|lia]. }
  pose proof (@split_fold_one s k1 a (MG.nodes a) ([], k1) P0) as P.
  pose proof (@split_fold_small s a (MG.nodes a)) as Q.
  cbv zeta in P.
  destruct (fold_left
              (fun st d =>
                 if 1 <? cv s (org d)
                 then FlattenAndColor.clone_loop
                        (Z.to_nat (cv s (org d) - 2)) a d st
                 else st) (MG.nodes a) ([], k1)) as [ne k2] eqn:E.
  cbn [fst snd] in *. exists ne.
  split; [now rewrite add_edges_from_links|].
  destruct P as [P1 [P2 _]]. split; [exact P1|]. split; [exact P2|].
  intros Hcv. specialize (Q Hcv ([], k1)).
  rewrite E in Q. inversion Q; subst. split; reflexivity.
Qed.

(** ** FlattenAndColor under the loop of the simulator *)

Section ColorKeys.
Import FlattenAndColor.

Lemma has_key_app (c c' : coloring) (e : node * node) :
  has_key (c ++ c') e = has_key c e || has_key c' e.
Proof. unfold has_key. apply existsb_app. Qed.

Lemma color_edge_keeps (st : coloring * nat) (e e' : node * node) :
  has_key (fst st) e' = true -> has_key (fst (color_edge st e)) e' = true.
Proof.
  intros Hk. unfold color_edge. destruct (has_key (fst st) e); [exact Hk|].
  cbn [fst]. rewrite has_key_app, Hk. reflexivity.
Qed.

Lemma color_edge_adds (st : coloring * nat) (e : node * node) :
  has_key (fst (color_edge st e)) e = true.
Proof.
  unfold color_edge. destruct (has_key (fst st) e) eqn:Hk; [exact Hk|].
  cbn [fst]. rewrite has_key_app. apply orb_true_iff. right.
  unfold has_key. cbn [existsb fst]. now rewrite eqb_refl.
Qed.

Lemma color_fold_keeps (es : list (node * node)) :
  forall (st : coloring * nat) e',
    has_key (fst st) e' = true ->
    has_key (fst (fold_left color_edge es st)) e' = true.
Proof.
  induction es as [|e es IH]; intros st e' Hk; cbn [fold_left];
    [exact Hk|].
  apply IH. now apply color_edge_keeps.
Qed.

Lemma color_fold_adds (es : list (node * node)) :
  forall (st : coloring * nat) e,
    In e es -> has_key (fst (fold_left color_edge es st)) e = true.
Proof.
  induction es as [|x es IH]; intros st e He; [destruct He|].
  cbn [fold_left]. destruct He as [<-|He].
  - apply color_fold_keeps. apply color_edge_adds.
  - now apply IH.
Qed.

Lemma greedy_fold_keeps (a : agraph) (ns : list node) :
  forall (c : coloring) e,
    has_key c e = true ->
    has_key (fold_left (fun c d =>
                          fst (fold_left color_edge (MG.edges_of a d) (c, O)))
                       ns c) e = true.
Proof.
  induction ns as [|d ns IH]; intros c e Hk; cbn [fold_left]; [exact Hk|].
  apply IH. now apply (@color_fold_keeps (MG.edges_of a d) (c, O) e).
Qed.

Lemma greedy_fold_adds (a : agraph) (ns : list node) :
  forall (c : coloring) d e,
    In d ns -> In e (MG.edges_of a d) ->
    has_key (fold_left (fun c d =>
                          fst (fold_left color_edge (MG.edges_of a d) (c, O)))
                       ns c) e = true.
Proof.
  induction ns as [|x ns IH]; intros c d e Hd He; [destruct Hd|].
  cbn [fold_left]. destruct Hd as [->|Hd].
  - apply greedy_fold_keeps.
    now apply (@color_fold_adds (MG.edges_of a d) (c, O) e).
  - now apply (IH _ d).
Qed.

(** every edge reported at a node of the graph is a key of the dict *)
Lemma greedy_color_keys (a : agraph) (d : node) (e : node * node) :
  In d (MG.nodes a) -> In e (MG.edges_of a d) ->
  exists color, In (e, color) (greedy_color a).
Proof.
  intros Hd He. pose proof (@greedy_fold_adds a (MG.nodes a) [] d e Hd He) as K.
  fold (greedy_color a) in K. unfold has_key in K.
  apply existsb_exists in K as [[e' color] [Hin E]].
  cbn [fst] in E. apply eqb_eq in E. subst e'. eauto.
Qed.

End ColorKeys.

Section Reports.
Context {A : Type} `{EqDec A}.

(** a stored edge is reported at its first endpoint *)
Lemma link_reported (g : MG.t A) (u v : A) :
  In (u, v) (MG.links g) -> In (u, v) (MG.edges_of g u).
Proof.
  intros Hin.
  assert (J : existsb (MG.joins u v) (MG.links g) = true).
  { apply existsb_exists. exists (u, v). split; [exact Hin|].
    apply (proj2 (joins_iff u v (u, v))). now left. }
  unfold MG.edges_of, MG.edges_at. apply in_flat_map. exists v. split.
  - now apply (proj2 (nbrs_In (MG.links g) u v)).
  - cbn [mem existsb].
    apply (proj2 (mult_pos (MG.links g) u v)) in J.
    destruct (MG.mult (MG.links g) u v); [lia|]. now left.
Qed.

(** graphs in which the endpoints of every edge are nodes *)
Lemma add_node_nodes (g : MG.t A) (n x : A) :
  In x (MG.nodes (MG.add_node g n)) <-> In x (MG.nodes g) \/ x = n.
Proof.
  unfold MG.add_node. destruct (mem n (MG.nodes g)) eqn:M.
  - apply mem_In in M. split; [auto|]. intros [Hx| ->]; assumption.
  - cbn [MG.nodes]. rewrite in_app_iff. cbn [In]. intuition congruence.
Qed.

Lemma add_edge_closed (g : MG.t A) (u v : A) :
  (forall e, In e (MG.links g) ->
             In (fst e) (MG.nodes g) /\ In (snd e) (MG.nodes g)) ->
  forall e, In e (MG.links (MG.add_edge g u v)) ->
            In (fst e) (MG.nodes (MG.add_edge g u v))
            /\ In (snd e) (MG.nodes (MG.add_edge g u v)).
Proof.
  intros C e He. rewrite add_edge_links in He.
  unfold MG.add_edge. cbn [MG.nodes].
  apply in_app_or in He as [He|[<-|[]]].
  - destruct (C e He) as [C1 C2].
    split; apply add_node_nodes; left; apply add_node_nodes; left; assumption.
  - cbn [fst snd]. split.
    + apply add_node_nodes. left. apply add_node_nodes. now right.
    + apply add_node_nodes. now right.
Qed.

Lemma add_edges_from_closed (es : list (A * A)) :
  forall g : MG.t A,
    (forall e, In e (MG.links g) ->
               In (fst e) (MG.nodes g) /\ In (snd e) (MG.nodes g)) ->
    forall e, In e (MG.links (MG.add_edges_from g es)) ->
              In (fst e) (MG.nodes (MG.add_edges_from g es))
              /\ In (snd e) (MG.nodes (MG.add_edges_from g es)).
Proof.
  unfold MG.add_edges_from.
  induction es as [|x es IH]; intros g C; cbn [fold_left]; [exact C|].
  apply IH. now apply add_edge_closed.
Qed.

Lemma add_node_closed (g : MG.t A) (n : A) :
  (forall e, In e (MG.links g) ->
             In (fst e) (MG.nodes g) /\ In (snd e) (MG.nodes g)) ->
  forall e, In e (MG.links (MG.add_node g n)) ->
            In (fst e) (MG.nodes (MG.add_node g n))
            /\ In (snd e) (MG.nodes (MG.add_node g n)).
Proof.
  intros C e He. rewrite add_node_links in He. destruct (C e He).
  split; apply add_node_nodes; now left.
Qed.

End Reports.

Section FlattenLoop.
Import FlattenAndColor.

Lemma alias_graph_closed (g : graph) (k : nat) :
  forall e, In e (MG.links (fst (alias_graph g k))) ->
            In (fst e) (MG.nodes (fst (alias_graph g k)))
            /\ In (snd e) (MG.nodes (fst (alias_graph g k))).
Proof.
  unfold alias_graph.
  assert (C0 : forall e, In e (MG.links (@MG.empty node)) ->
                         In (fst e) (MG.nodes (@MG.empty node))
                         /\ In (snd e) (MG.nodes (@MG.empty node)))
    by (intros e []).
  revert C0. generalize (@MG.empty node). generalize k.
  induction (MG.nodes g) as [|d ns IH]; intros k0 a C; cbn [fold_left];
    [exact C|].
  unfold alias_node at 2. cbn [fst snd]. apply IH.
  apply add_edges_from_closed. now apply add_node_closed.
Qed.

Lemma split_closed (g : graph) (s : store) (k : nat) :
  forall e, In e (MG.links (fst (split g s k))) ->
            In (fst e) (MG.nodes (fst (split g s k)))
            /\ In (snd e) (MG.nodes (fst (split g s k))).
Proof.
  pose proof (alias_graph_closed g k) as C. unfold split.
  destruct (alias_graph g k) as [a k1]. cbn [fst] in C.
  destruct (fold_left _ (MG.nodes a) ([], k1)) as [ne k2].
  cbn [fst]. apply add_edges_from_closed. exact C.
Qed.

Lemma split_keeps_alias_links (g : graph) (s : store) (k : nat) :
  incl (MG.links (fst (alias_graph g k))) (MG.links (fst (split g s k))).
Proof.
  unfold split. destruct (alias_graph g k) as [a k1].
  destruct (fold_left _ (MG.nodes a) ([], k1)) as [ne k2].
  cbn [fst]. rewrite add_edges_from_links. cbn [MG.add_nodes_from fold_left].
  intros e He. apply in_or_app. now left.
Qed.

(** the queue of a call that colours: every edge of the demand graph is
    in it *)
Lemma fresh_queue_covers (c : cache) (g : graph) (s : store) (k : nat) :
  falsy (a_graph c) = true -> MG.wf g ->
  forall e, In e (MG.links g) -> In e (fst (fst (gen_edges c g s k))).
Proof.
  intros F W [u v] He.
  assert (R : In (u, v) (flat_map (MG.edges_of g) (MG.nodes g))).
  { apply in_flat_map. exists u. split.
    - exact (proj1 (proj2 W _ He)).
    - now apply link_reported. }
  destruct (@alias_fold g (MG.nodes g) MG.empty k k (Nat.le_refl k))
    as [_ [I2 _]].
  { split; [intros e []|]. split; [constructor|intros e e' []]. }
  fold (alias_graph g k) in I2. cbn [MG.links MG.empty map app] in I2.
  rewrite <- I2 in R. apply in_map_iff in R as [[x y] [O L]].
  apply (@split_keeps_alias_links g s k) in L.
  pose proof (@split_closed g s k (x, y) L) as [Nx _]. cbn [fst] in Nx.
  apply link_reported in L.
  destruct (@greedy_color_keys (fst (split g s k)) x (x, y) Nx L)
    as [color K].
  unfold gen_edges. rewrite F.
  destruct (split g s k) as [a k1]. cbn [fst snd e_colors] in *.
  apply in_map_iff. exists ((x, y), color). split.
  - cbn [fst snd]. exact O.
  - apply (Permutation_in _ (Permutation_sym (sorted_perm _ _))). exact K.
Qed.

End FlattenLoop.

(** The loop of the simulator with FlattenAndColor ends.  The queue made
    by the first call holds every edge of the demand graph, and although it
    is never refreshed, every round still finds an edge in it that is left
    in the graph.  On a well-formed graph whose disks all have a free slot,
    with a [Disk.free] that gives one slot back, the loop stops after at
    most as many rounds as the graph has edges, every round prints at least
    one transfer and the transfers printed are the edges of the graph, each
    once. *)
Theorem flatten_and_color_simulation_ends (free : store -> disk -> store)
  (g : graph) (s : store) (k fuel : nat) :
  (forall s d d', avail (free s d) d'
                  = avail s d' + (if Nat.eqb d d' then 1 else 0)) ->
  MG.wf g ->
  (forall d, In d (MG.nodes g) -> 0 < avail s d) ->
  (length (MG.links g) <= fuel)%nat ->
  exists ps g' s',
    Simulator.loop Simulator.flatten_and_color_gen_edges
                   (InOrder.do_work free)
                   fuel (FlattenAndColor.init, k) g s
    = Ok (Some (ps, g', s'))
    /\ MG.links g' = [] /\ MG.nodes g' = MG.nodes g
    /\ (forall d, avail s' d = avail s d)
    /\ (forall p, In p ps -> p <> [])
    /\ Permutation (map norm_edge (MG.links g)) (map norm_edge (concat ps))
    /\ (length ps <= length (MG.links g))%nat.
Proof.
  intros Hfree W Hs Hlen.
  apply (@loop_ends free Hfree (FlattenAndColor.cache * nat)%type
           Simulator.flatten_and_color_gen_edges
           (fun st g0 _ =>
              FlattenAndColor.falsy (FlattenAndColor.a_graph (fst st)) = true
              \/ forall e, In e (MG.links g0) ->
                   In e (map (fun kv => (org (fst (fst kv)),
                                         org (snd (fst kv))))
                             (sorted (fun kv => Z.of_nat (snd kv))
                                     (FlattenAndColor.e_colors (fst st)))))
           (fun _ _ => True)); auto.
  intros [c k0] g0 s0 I W0 NE. cbn [fst snd] in I.
  set (r := FlattenAndColor.gen_edges c g0 s0 k0).
  exists (fst (fst r)), (snd (fst r), snd r).
  split; [reflexivity|].
  assert (Cover : forall e, In e (MG.links g0) -> In e (fst (fst r))).
  { destruct (FlattenAndColor.falsy (FlattenAndColor.a_graph c)) eqn:F.
    - intros e He. now apply fresh_queue_covers.
    - destruct I as [I|I]; [discriminate|].
      unfold r, FlattenAndColor.gen_edges. rewrite F. exact I. }
  assert (Q : fst (fst r)
              = map (fun kv => (org (fst (fst kv)), org (snd (fst kv))))
                    (sorted (fun kv => Z.of_nat (snd kv))
                            (FlattenAndColor.e_colors (snd (fst r))))).
  { unfold r, FlattenAndColor.gen_edges.
    destruct (FlattenAndColor.falsy (FlattenAndColor.a_graph c));
      [destruct (FlattenAndColor.split g0 s0 k0)|]; reflexivity. }
  split.
  - destruct (MG.links g0) as [|[u v] l] eqn:L.
    + exfalso. apply NE. now apply no_links_no_edges.
    + exists (u, v). split; [apply Cover; now left|].
      unfold MG.has_edge. rewrite L. cbn [existsb fst snd].
      apply orb_true_iff. left.
      apply (proj2 (@joins_iff disk _ u v (u, v))). now left.
  - intros g' s' _ Hincl _. right. cbn [fst]. rewrite <- Q.
    intros e He. apply Cover. now apply Hincl.
Qed.

Lemma flatten_and_color_simulation_ends_witness :
  exists ps g' s',
    Simulator.loop Simulator.flatten_and_color_gen_edges
                   (InOrder.do_work Inputs.free_one)
                   3 (FlattenAndColor.init, O)
                   Inputs.triangle (Inputs.uniform 1)
    = Ok (Some (ps, g', s'))
    /\ MG.links g' = [] /\ MG.nodes g' = MG.nodes Inputs.triangle
    /\ (forall d, avail s' d = avail (Inputs.uniform 1) d)
    /\ (forall p, In p ps -> p <> [])
    /\ Permutation (map norm_edge (MG.links Inputs.triangle))
                   (map norm_edge (concat ps))
    /\ (length ps <= length (MG.links Inputs.triangle))%nat.
Proof.
  apply (@flatten_and_color_simulation_ends Inputs.free_one Inputs.triangle
           (Inputs.uniform 1) 0 3 free_one_gives_one triangle_wf).
  - intros d _. simpl. lia.
  - simpl. lia.
Defined.

(** ** Bipartite: the removal of self-loops *)

Section LoopRemoval.

Lemma remove_last_loop (d : disk) (l : list edge) :
  forall r,
    MG.remove_last (MG.joins d d) l = Some r ->
    filter (fun e => negb (Nat.eqb (fst e) (snd e))) r
    = filter (fun e => negb (Nat.eqb (fst e) (snd e))) l
    /\ forall x : edge,
         occurrences x l
         = (occurrences x r + (if eqb x (d, d) then 1 else 0))%nat.
Proof.
  induction l as [|y l IH]; intros r R; cbn [MG.remove_last] in R;
    [discriminate|].
  destruct (MG.remove_last (MG.joins d d) l) as [r'|] eqn:R'.
  - inversion R; subst r. destruct (IH r' eq_refl) as [F O]. split.
    + cbn [filter]. now rewrite F.
    + intros x. unfold occurrences in *. cbn [filter].
      specialize (O x). destruct (eqb x y); cbn [length]; lia.
  - destruct (MG.joins d d y) eqn:J; [|discriminate]. inversion R; subst r.
    apply (proj1 (@joins_iff disk _ d d y)) in J.
    assert (Ey : y = (d, d)) by (destruct J; assumption). subst y. split.
    + cbn [filter fst snd]. now rewrite Nat.eqb_refl.
    + intros x. unfold occurrences. cbn [filter].
      destruct (eqb x (d, d)); cbn [length]; lia.
Qed.

Lemma no_loops_filter (l : list edge) :
  (forall d, occurrences (d, d) l = O) ->
  filter (fun e => negb (Nat.eqb (fst e) (snd e))) l = l.
Proof.
  induction l as [|[u v] l IH]; intros Hz; [reflexivity|].
  cbn [filter fst snd].
  assert (N : Nat.eqb u v = false).
  { destruct (Nat.eqb u v) eqn:E; [|reflexivity].
    apply Nat.eqb_eq in E. subst v. specialize (Hz u).
    unfold occurrences in Hz. cbn [filter] in Hz.
    rewrite eqb_refl in Hz. discriminate. }
  rewrite N. cbn [negb]. f_equal. apply IH. intros d.
  specialize (Hz d). unfold occurrences in *. cbn [filter] in Hz.
  destruct (eqb (d, d) (u, v)); cbn [length] in Hz; lia.
Qed.

Lemma remove_loops_fold (ns : list disk) (L : list edge) :
  forall l,
    (forall x, In x L -> fst x = snd x) ->
    (forall d, occurrences (d, d) L = occurrences (d, d) l) ->
    MG.remove_edges_from (MG.mk ns l) L
    = MG.mk ns (filter (fun e => negb (Nat.eqb (fst e) (snd e))) l).
Proof.
  unfold MG.remove_edges_from.
  induction L as [|x L IH]; intros l Hl Hc; cbn [fold_left].
  - rewrite no_loops_filter; [reflexivity|].
    intros d. now rewrite <- Hc.
  - destruct x as [d d']. pose proof (Hl (d, d') (or_introl eq_refl)) as E.
    cbn [fst snd] in E. subst d'. cbn [fst snd].
    assert (P : existsb (MG.joins d d) l = true).
    { apply (proj1 (@mult_pos disk _ l d d)). unfold MG.mult.
      pose proof (Hc d) as C. unfold occurrences in C. cbn [filter] in C.
      rewrite eqb_refl in C. cbn [length] in C.
      assert (X : (0 < length (filter (eqb (d, d)) l))%nat) by lia.
      destruct (filter (eqb (d, d)) l) as [|y f] eqn:F;
        [cbn in X; lia|].
      assert (Hy : In y (filter (eqb (d, d)) l)) by (rewrite F; now left).
      apply filter_In in Hy as [Hy Ey]. apply eqb_eq in Ey. subst y.
      destruct (filter (MG.joins d d) l) as [|z f'] eqn:F'; [|cbn; lia].
      exfalso.
      assert (Hz : In (d, d) (filter (MG.joins d d) l)).
      { apply filter_In. split; [exact Hy|].
        apply (proj2 (@joins_iff disk _ d d (d, d))). now left. }
      rewrite F' in Hz. destruct Hz. }
    destruct (@remove_last_some disk (MG.joins d d) l P) as [r R].
    unfold MG.remove_edge. cbn [MG.links MG.nodes]. rewrite R.
    destruct (@remove_last_loop d l r R) as [F O].
    rewrite IH.
    + now rewrite F.
    + intros x Hx. apply Hl. now right.
    + intros d0. specialize (Hc d0). specialize (O (d0, d0)).
      unfold occurrences in *. cbn [filter] in Hc.
      destruct (eqb (d0, d0) (d, d)); cbn [length] in Hc; lia.
Qed.

Lemma precedes_self {A} `{EqDec A} (ns : list A) (d : A) :
  precedes ns d d = false.
Proof.
  induction ns as [|n ns IH]; cbn [precedes]; [reflexivity|].
  destruct (eqb n d); [reflexivity|exact IH].
Qed.

Lemma occurrences_filter {A} `{EqDec A} (p : A -> bool) (x : A)
  (l : list A) :
  p x = true -> occurrences x (filter p l) = occurrences x l.
Proof.
  intros Px. unfold occurrences.
  induction l as [|y l IH]; [reflexivity|]. cbn [filter].
  destruct (p y) eqn:Py; cbn [filter].
  - destruct (eqb x y); cbn [length]; now rewrite IH.
  - destruct (eqb x y) eqn:E; [|exact IH].
    apply eqb_eq in E. congruence.
Qed.

Lemma loops_count (g : graph) (d : disk) :
  MG.wf g ->
  occurrences (d, d) (Bipartite.loops g) = occurrences (d, d) (MG.links g).
Proof.
  intros W. unfold Bipartite.loops.
  rewrite occurrences_filter by (cbn [fst snd]; apply Nat.eqb_refl).
  unfold MG.edges.
  rewrite (@occurrences_edges_from disk _ (MG.links g) d d (MG.nodes g) []
             (proj1 W)).
  rewrite precedes_self. cbn [mem existsb negb]. rewrite !andb_true_r.
  assert (M : MG.mult (MG.links g) d d = occurrences (d, d) (MG.links g)).
  { unfold MG.mult, occurrences. f_equal. apply filter_ext. intros e.
    destruct (MG.joins d d e) eqn:J.
    - apply (proj1 (@joins_iff disk _ d d e)) in J.
      symmetry. apply eqb_eq. destruct J; congruence.
    - symmetry. apply eqb_neq. intros X.
      assert (J' : MG.joins d d e = true)
        by (apply (proj2 (@joins_iff disk _ d d e)); now left).
      congruence. }
  destruct (mem d (MG.nodes g)) eqn:N; [exact M|].
  rewrite <- M. symmetry.
  destruct (MG.mult (MG.links g) d d) eqn:Z; [reflexivity|].
  exfalso.
  assert (P : (0 < MG.mult (MG.links g) d d)%nat) by lia.
  apply (proj1 (@mult_pos disk _ (MG.links g) d d)) in P.
  apply existsb_exists in P as [e [He J]].
  apply (proj1 (@joins_iff disk _ d d e)) in J.
  destruct (proj2 W e He) as [N1 _].
  assert (Hd : In d (MG.nodes g)) by (destruct J; subst e; exact N1).
  apply (proj2 (@mem_In disk _ d (MG.nodes g))) in Hd. congruence.
Qed.

End LoopRemoval.

Lemma loops_are_removed_eq (g : graph) :
  MG.wf g ->
  MG.remove_edges_from g (Bipartite.loops g)
  = MG.mk (MG.nodes g)
          (filter (fun e => negb (Nat.eqb (fst e) (snd e))) (MG.links g)).
Proof.
  intros W. destruct g as [ns l] eqn:G. rewrite <- G at 2.
  cbn [MG.nodes MG.links]. apply remove_loops_fold.
  - intros x Hx. unfold Bipartite.loops in Hx.
    apply filter_In in Hx as [_ E]. now apply Nat.eqb_eq.
  - intros d. rewrite (@loops_count g d) by (rewrite G; exact W).
    now rewrite G.
Qed.

(** The loop removal of Bipartite.gen_edges takes every self-loop out of
    the graph and nothing else: on a well-formed graph it leaves the nodes
    as they are and keeps exactly the edges between two different disks, in
    the order they had. *)
Theorem loops_are_removed (g : graph) :
  MG.wf g ->
  MG.remove_edges_from g (Bipartite.loops g)
  = MG.mk (MG.nodes g)
          (filter (fun e => negb (Nat.eqb (fst e) (snd e))) (MG.links g)).
Proof. intros W. now apply loops_are_removed_eq. Qed.

Lemma loops_are_removed_witness :
  MG.remove_edges_from
    (MG.mk [0; 1]%nat [(0, 0); (0, 1); (1, 1); (0, 0)]%nat)
    (Bipartite.loops (MG.mk [0; 1]%nat [(0, 0); (0, 1); (1, 1); (0, 0)]%nat))
  = MG.mk [0; 1]%nat
      (filter (fun e : edge => negb (Nat.eqb (fst e) (snd e)))
              [(0, 0); (0, 1); (1, 1); (0, 0)]%nat).
Proof.
  apply (@loops_are_removed
           (MG.mk [0; 1]%nat [(0, 0); (0, 1); (1, 1); (0, 0)]%nat)).
  split.
  - repeat constructor; simpl; intuition discriminate.
  - intros e He. simpl in He.
    destruct He as [<-|[<-|[<-|[<-|[]]]]]; simpl; auto.
Defined.

(** ** Bipartite: the first call as a whole *)

Section FirstCall.
Import Bipartite.

Lemma add_node_NoDup {A} `{EqDec A} (g : MG.t A) (n : A) :
  NoDup (MG.nodes g) -> NoDup (MG.nodes (MG.add_node g n)).
Proof.
  intros ND. unfold MG.add_node. destruct (mem n (MG.nodes g)) eqn:M;
    [exact ND|].
  cbn [MG.nodes]. apply NoDup_app; [exact ND|repeat constructor; intros []|].
  intros a Ha [E|[]]. subst a. apply (proj1 (mem_notIn n (MG.nodes g)) M Ha).
Qed.

(** [add_edge] keeps a graph well-formed, whatever the endpoints *)
Lemma add_edge_wf {A} `{EqDec A} (g : MG.t A) (u v : A) :
  MG.wf g -> MG.wf (MG.add_edge g u v).
Proof.
  intros [ND C]. split.
  - unfold MG.add_edge. cbn [MG.nodes]. now do 2 apply add_node_NoDup.
  - now apply add_edge_closed.
Qed.

Lemma pad_wf (fuel : nat) :
  forall (g : graph) d target, MG.wf g -> MG.wf (pad fuel g d target).
Proof.
  induction fuel as [|n IH]; intros g d target W; cbn [pad]; [exact W|].
  destruct (MG.degree g d <? target - 1); [|exact W].
  apply IH. now apply add_edge_wf.
Qed.

Lemma pad_nodes_wf (delta : Z) (s : store) (ns : list disk) :
  forall st : graph * list disk,
    MG.wf (fst st) -> MG.wf (fst (fold_left (pad_node delta s) ns st)).
Proof.
  induction ns as [|d ns IH]; intros st W; cbn [fold_left]; [exact W|].
  apply IH. unfold pad_node. cbn [fst]. now apply pad_wf.
Qed.

Lemma pair_spares_wf (n : nat) :
  forall (sp : list disk) (g g' : graph),
    (length sp <= n)%nat -> MG.wf g -> pair_spares g sp = Ok g' -> MG.wf g'.
Proof.
  induction n as [|n IH]; intros [|a [|b sp]] g g' Hl W P;
    cbn [length] in Hl; cbn [pair_spares] in P;
    try lia; try discriminate; try (inversion P; subst; exact W).
  apply (IH sp (MG.add_edge g a b) g'); [lia| |exact P].
  now apply add_edge_wf.
Qed.

(** [normalize] keeps a graph well-formed *)
Lemma normalize_wf (g g' : graph) (s : store) :
  MG.wf g -> normalize g s = Ok g' -> MG.wf g'.
Proof.
  intros W. unfold normalize.
  destruct (Scheduler.max_d g s) as [delta|e]; cbn [bind]; [|discriminate].
  intros P.
  apply (@pair_spares_wf _ _ _ g' (Nat.le_refl _)
           (@pad_nodes_wf delta s (MG.nodes g) (g, []) W) P).
Qed.

Lemma normalize_returns (g : graph) (s : store) :
  MG.wf g -> connected g ->
  Exact.in_range g s ->
  (forall d, In d (MG.nodes g) -> 2 <= cv s d) ->
  exists g', normalize g (relax g s) = Ok g' /\ MG.nodes g' = MG.nodes g.
Proof.
  intros W C R Hcv. set (s' := relax g s).
  assert (Hrel : forall d, In d (MG.nodes g) ->
                           2 <= cv s' d /\ cv s' d mod 2 = 0)
    by (intros d Hd; apply relax_cv_even; auto).
  assert (Hnz : forall d, In d (MG.nodes g) -> cv s' d <> 0)
    by (intros d Hd; destruct (Hrel d Hd); lia).
  assert (Hex : forall d, In d (MG.nodes g) ->
                          cv s' d <> 0 /\ cv s' d <= Exact.bound).
  { intros d Hd. split; [now apply Hnz|].
    unfold s'. rewrite (@relax_cv g s d Hd).
    pose proof (Z.mod_pos_bound (cv s d) 2). destruct (R d Hd). lia. }
  destruct C as [Hne Hc].
  assert (Hmax : exists delta,
             py_max (map (RankSpec.weight g s') (MG.nodes g)) = Ok delta).
  { destruct (MG.nodes g) as [|n ns]; [congruence|]. simpl. eauto. }
  destruct Hmax as [delta Hdelta].
  assert (Hle : forall d, In d (MG.nodes g) ->
                          MG.degree g d <= delta * cv s' d).
  { intros d Hd. destruct (Hrel d Hd) as [H2 _].
    assert (Hw : RankSpec.weight g s' d <= delta).
    { apply (@py_max_ge _ _ Hdelta). apply in_map_iff. eauto. }
    unfold RankSpec.weight in Hw.
    assert (Hpos : 0 < cv s' d) by lia.
    pose proof (@ceil_bound (MG.degree g d) (cv s' d) Hpos).
    nia. }
  destruct W as [ND Hwf].
  destruct (@pad_nodes_spec delta s' (MG.nodes g) g [] ND)
    as [g1 [F [Hn1 [Hi1 Hd1]]]].
  { intros d Hd. destruct (Hrel d Hd). split; [assumption|].
    split; [now apply Hle|now apply even_target]. }
  cbn [app] in F.
  set (spares := filter (fun d => Z.odd (MG.degree g d)) (MG.nodes g)) in *.
  destruct (@pair_spares_spec (length spares) spares g1)
    as [g2 [P [Hn2 [Hi2 Hd2]]]].
  { lia. }
  { apply (odd_nodes_even (conj ND Hwf)). }
  { unfold spares. now apply NoDup_filter. }
  { intros d Hd. rewrite Hn1. unfold spares in Hd.
    now apply filter_In in Hd. }
  exists g2. split; [|congruence].
  unfold normalize. rewrite max_d_exact by exact Hex.
  rewrite Hdelta. cbn [bind]. rewrite F. exact P.
Qed.

Lemma add_circuit_returns (g : graph) (c : list edge) :
  (forall e, In e c -> In (snd e) (MG.nodes g)) ->
  forall b0, exists b1, add_circuit g c b0 = Ok b1.
Proof.
  unfold add_circuit. induction c as [|e c IH]; intros Hc b0;
    cbn [foldM]; [eauto|].
  rewrite (proj2 (@mem_In disk _ (snd e) (MG.nodes g))
             (Hc e (or_introl eq_refl))).
  cbn [bind]. apply IH. intros x Hx. apply Hc. now right.
Qed.

Lemma add_circuit_key_error (g : graph) (c : list edge) :
  (exists x, In x c /\ ~ In (snd x) (MG.nodes g)) ->
  forall b0, add_circuit g c b0 = Raise KeyError.
Proof.
  unfold add_circuit. induction c as [|e c IH]; intros [x [Hx N]] b0;
    [destruct Hx|].
  cbn [foldM]. destruct (mem (snd e) (MG.nodes g)) eqn:M; [|reflexivity].
  cbn [bind]. apply IH. exists x. split; [|exact N].
  destruct Hx as [->|Hx]; [|exact Hx].
  apply (proj1 (@mem_In disk _ (snd x) (MG.nodes g))) in M. contradiction.
Qed.

End FirstCall.

(** The first call of Bipartite.gen_edges, end to end.  On a well-formed
    connected graph whose capacities are all from 2 to 2^53 and whose
    degrees are at most 2^53 (where the float quotients of max_d and of
    [ceil(d.cv / 2)] are exact and cannot overflow) the preparation
    returns: the disks are relaxed, the graph is normalized and then loses
    its self-loops and nothing else.  From there the call does what
    [nx.eulerian_circuit] allows: its exception is passed on, a walk that
    leaves the nodes of the graph raises KeyError at [v_in], and any other
    walk gives a queue, with the strategy marked normalized and keeping the
    network less the arcs that carried flow. *)
Theorem first_call_returns
  (eulerian_circuit : graph -> result (list edge))
  (maximum_flow : DiGraph.t -> flow_dict) (g : graph) (s : store) :
  MG.wf g -> connected g ->
  Exact.in_range g s ->
  (forall d, In d (MG.nodes g) -> 2 <= cv s d) ->
  exists g1 g2,
    Bipartite.normalize g (Bipartite.relax g s) = Ok g1
    /\ g2 = MG.mk (MG.nodes g)
                  (filter (fun e => negb (Nat.eqb (fst e) (snd e)))
                          (MG.links g1))
    /\ Bipartite.prepare g s = Ok (g2, Bipartite.relax g s)
    /\ (forall e, eulerian_circuit g2 = Raise e ->
          Bipartite.gen_edges eulerian_circuit maximum_flow
                              Bipartite.init g s = Raise e)
    /\ (forall c, eulerian_circuit g2 = Ok c ->
          ((exists x, In x c /\ ~ In (snd x) (MG.nodes g)) ->
           Bipartite.gen_edges eulerian_circuit maximum_flow
                               Bipartite.init g s = Raise KeyError)
          /\ ((forall x, In x c -> In (snd x) (MG.nodes g)) ->
              exists q net,
                Bipartite.build g2 (Bipartite.relax g s) c = Ok net
                /\ Bipartite.gen_edges eulerian_circuit maximum_flow
                                       Bipartite.init g s
                   = Ok (q,
                         Bipartite.mkState true
                           (Some (DiGraph.remove_edges_from
                                    net
                                    (Bipartite.active (maximum_flow net)))),
                         g2, Bipartite.relax g s))).
Proof.
  intros W C R Hcv.
  destruct (@normalize_returns g s W C R Hcv) as [g1 [N Hn]].
  pose proof (@normalize_wf g g1 (Bipartite.relax g s) W N) as W1.
  exists g1. eexists. split; [exact N|]. split; [reflexivity|].
  assert (P : Bipartite.prepare g s
              = Ok (MG.mk (MG.nodes g)
                          (filter (fun e => negb (Nat.eqb (fst e) (snd e)))
                                  (MG.links g1)),
                    Bipartite.relax g s)).
  { unfold Bipartite.prepare. rewrite N. cbn [bind].
    rewrite (@loops_are_removed_eq g1 W1), Hn. reflexivity. }
  split; [exact P|].
  set (g2 := MG.mk (MG.nodes g)
                   (filter (fun e => negb (Nat.eqb (fst e) (snd e)))
                           (MG.links g1))) in *.
  unfold Bipartite.gen_edges.
  cbn [Bipartite.normalized Bipartite.init negb]. rewrite P. cbn [bind].
  split.
  - intros e E. rewrite E. reflexivity.
  - intros c E. rewrite E. cbn [bind]. split.
    + intros Bad. unfold Bipartite.build.
      rewrite (@add_circuit_key_error g2 c Bad []). reflexivity.
    + intros Good.
      destruct (@add_circuit_returns g2 c Good []) as [b1 B1].
      unfold Bipartite.build. rewrite B1. cbn [bind].
      match goal with
      | |- context [Bipartite.active (maximum_flow ?n)] => set (net := n)
      end.
      destruct (reassociate_active (maximum_flow net)) as [q Q].
      exists q, net. split; [reflexivity|]. rewrite Q. reflexivity.
Qed.

(** the complete graph on four disks is well formed and connected *)
Lemma k4_wf : MG.wf Inputs.k4.
Proof.
  split.
  - constructor; [intros [X|[X|[X|[]]]]; discriminate|].
    constructor; [intros [X|[X|[]]]; discriminate|].
    constructor; [intros [X|[]]; discriminate|].
    constructor; [intros []|constructor].
  - intros e He. cbn [Inputs.k4 MG.links In] in He.
    destruct He as [<-|[<-|[<-|[<-|[<-|[<-|[]]]]]]];
      cbn [fst snd Inputs.k4 MG.nodes In]; split; auto 10.
Defined.

Lemma k4_connected : connected Inputs.k4.
Proof.
  split; [discriminate|].
  intros u v Hu Hv. apply rt_trans with 0%nat.
  - cbn [Inputs.k4 MG.nodes In] in Hu.
    destruct Hu as [<-|[<-|[<-|[<-|[]]]]];
      first [apply rt_refl | apply rt_step; reflexivity].
  - cbn [Inputs.k4 MG.nodes In] in Hv.
    destruct Hv as [<-|[<-|[<-|[<-|[]]]]];
      first [apply rt_refl | apply rt_step; reflexivity].
Defined.

(** the whole first call on the complete graph with capacity 3: the
    capacities drop to 2, the graph is prepared, the network is built on
    the closed walk and the flow gives the queue 0-1, 1-2, 2-3, 3-0 *)
Lemma first_call_returns_witness :
  Bipartite.prepare Inputs.k4 (Inputs.uniform 3)
  = Ok (Inputs.k4_prepared, Bipartite.relax Inputs.k4 (Inputs.uniform 3))
  /\ exists q net,
       Bipartite.build Inputs.k4_prepared
                       (Bipartite.relax Inputs.k4 (Inputs.uniform 3))
                       Inputs.k4_circuit
       = Ok net
       /\ Bipartite.gen_edges (fun _ => Ok Inputs.k4_circuit) Inputs.k4_flow
                              Bipartite.init Inputs.k4 (Inputs.uniform 3)
          = Ok (q,
                Bipartite.mkState true
                  (Some (DiGraph.remove_edges_from
                           net (Bipartite.active (Inputs.k4_flow net)))),
                Inputs.k4_prepared,
                Bipartite.relax Inputs.k4 (Inputs.uniform 3))
       /\ q = [(0, 1); (1, 2); (2, 3); (3, 0)]%nat.
Proof.
  assert (R : Exact.in_range Inputs.k4 (Inputs.uniform 3)).
  { intros d Hd. split; [cbn [Inputs.uniform cv]; unfold Exact.bound; lia|].
    cbn [Inputs.k4 MG.nodes In] in Hd.
    destruct Hd as [<-|[<-|[<-|[<-|[]]]]]; vm_compute; discriminate. }
  assert (Hcv : forall d, In d (MG.nodes Inputs.k4) ->
                          2 <= cv (Inputs.uniform 3) d)
    by (intros d _; cbn [Inputs.uniform cv]; lia).
  destruct (@first_call_returns
              (fun _ => Ok Inputs.k4_circuit) Inputs.k4_flow
              Inputs.k4 (Inputs.uniform 3)
              k4_wf k4_connected R Hcv)
    as [g1 [g2 [N [G [P [_ K]]]]]].
  assert (N' : Bipartite.normalize Inputs.k4
                 (Bipartite.relax Inputs.k4 (Inputs.uniform 3))
               = Ok Inputs.k4_prepared) by reflexivity.
  rewrite N' in N. inversion N as [G1]. rewrite <- G1 in G.
  assert (G2 : g2 = Inputs.k4_prepared) by (rewrite G; reflexivity).
  rewrite G2 in P, K.
  split; [exact P|].
  destruct (K Inputs.k4_circuit eq_refl) as [_ Good].
  destruct Good as [q [net [B E]]].
  { intros x Hx. cbn [Inputs.k4_circuit In] in Hx.
    destruct Hx as [<-|[<-|[<-|[<-|[<-|[<-|[<-|[<-|[]]]]]]]]];
      cbn [snd Inputs.k4 MG.nodes In]; auto 10. }
  exists q, net. split; [exact B|]. split; [exact E|].
  assert (Q : match Bipartite.gen_edges (fun _ => Ok Inputs.k4_circuit)
                      Inputs.k4_flow Bipartite.init Inputs.k4
                      (Inputs.uniform 3) with
              | Ok r => fst (fst (fst r))
              | Raise _ => []
              end = [(0, 1); (1, 2); (2, 3); (3, 0)]%nat) by reflexivity.
  rewrite E in Q. exact Q.
Defined.

(** ** The number of rounds and [d_prime] *)

Section SumFacts.

Lemma degree_sum (g : graph) (d : disk) :
  MG.degree g d = sumZ (ends_at d) (MG.links g).
Proof. reflexivity. Qed.

Lemma ends_at_norm (d : disk) (e : edge) :
  ends_at d (norm_edge e) = ends_at d e.
Proof.
  unfold norm_edge. destruct (fst e <=? snd e)%nat; [reflexivity|].
  unfold ends_at. cbn [fst snd]. lia.
Qed.

Lemma sumZ_perm {X} (f : X -> Z) (l l' : list X) :
  Permutation l l' -> sumZ f l = sumZ f l'.
Proof.
  induction 1; cbn [sumZ fold_right] in *; unfold sumZ in *; lia.
Qed.

Lemma sumZ_map {X Y} (f : Y -> Z) (h : X -> Y) (l : list X) :
  sumZ f (map h l) = sumZ (fun x => f (h x)) l.
Proof.
  induction l as [|x l IH]; simpl; [reflexivity|]. now rewrite IH.
Qed.

Lemma sumZ_app {X} (f : X -> Z) (l l' : list X) :
  sumZ f (l ++ l') = sumZ f l + sumZ f l'.
Proof.
  induction l as [|x l IH]; simpl; [reflexivity|]. rewrite IH. lia.
Qed.

Lemma sumZ_concat {X} (f : X -> Z) (ps : list (list X)) :
  sumZ f (concat ps) = sumZ (sumZ f) ps.
Proof.
  induction ps as [|p ps IH]; [reflexivity|].
  cbn [concat]. rewrite sumZ_app, IH. reflexivity.
Qed.

Lemma sumZ_bound {X} (F : X -> Z) (B : Z) (l : list X) :
  (forall x, In x l -> F x <= B) -> sumZ F l <= Z.of_nat (length l) * B.
Proof.
  induction l as [|x l IH]; intros Hb; [reflexivity|].
  cbn [sumZ fold_right length]. rewrite Nat2Z.inj_succ.
  pose proof (Hb x (or_introl eq_refl)).
  assert (IH' := IH (fun y Hy => Hb y (or_intror Hy))).
  unfold sumZ in IH'. lia.
Qed.

Lemma ends_at_endpoints (d : disk) (e : edge) :
  fst e <> snd e ->
  ends_at d e = Z.of_nat (occurrences d (CommitSpec.endpoints e)).
Proof.
  intros N. unfold CommitSpec.endpoints, ends_at, occurrences.
  apply Nat.eqb_neq in N. rewrite N. cbn [filter].
  rewrite (eqb_sym (fst e) d), (eqb_sym (snd e) d).
  destruct (eqb d (fst e)), (eqb d (snd e)); reflexivity.
Qed.

Lemma ends_at_slots (d : disk) (p : list edge) :
  (forall e, In e p -> fst e <> snd e) ->
  sumZ (ends_at d) p
  = Z.of_nat (occurrences d (flat_map CommitSpec.endpoints p)).
Proof.
  induction p as [|e p IH]; intros Hp; [reflexivity|].
  cbn [sumZ fold_right flat_map]. rewrite occurrences_app_gen, Nat2Z.inj_add.
  rewrite <- IH by (intros x Hx; apply Hp; now right).
  rewrite <- ends_at_endpoints by (apply Hp; now left). reflexivity.
Qed.

Lemma commit_active (q : list edge) :
  forall g s,
    CommitSpec.o_active (CommitSpec.commit g s q)
    = flat_map CommitSpec.endpoints
               (CommitSpec.o_records (CommitSpec.commit g s q)).
Proof.
  induction q as [|e q IH]; intros g s; cbn [CommitSpec.commit];
    [reflexivity|].
  destruct (CommitSpec.admissible g s e).
  - cbn [CommitSpec.o_active CommitSpec.o_records flat_map]. now rewrite IH.
  - apply IH.
Qed.

Lemma norm_edge_loop (e e' : edge) :
  norm_edge e = norm_edge e' -> fst e' <> snd e' -> fst e <> snd e.
Proof.
  unfold norm_edge. destruct e as [a b], e' as [c d]. cbn [fst snd].
  destruct (a <=? b)%nat, (c <=? d)%nat; intros E; inversion E; subst; auto.
Qed.

End SumFacts.

Section RunFacts.
Variable free : store -> disk -> store.
Hypothesis free_one_slot :
  forall s d d', avail (free s d) d'
                 = avail s d' + (if Nat.eqb d d' then 1 else 0).
Variable strategy : Type.
Variable gen_edges :
  strategy -> graph -> store -> result (list edge * strategy * graph * store).
Hypothesis gen_edges_reads_only :
  forall st g s r, gen_edges st g s = Ok r -> snd (fst r) = g /\ snd r = s.

(** what is true of every run of the loop that ends *)
Lemma loop_run (fuel : nat) :
  forall st g s ps g' s',
    MG.wf g ->
    Simulator.loop gen_edges (InOrder.do_work free) fuel st g s
    = Ok (Some (ps, g', s')) ->
    MG.links g' = []
    /\ Permutation (map norm_edge (MG.links g)) (map norm_edge (concat ps))
    /\ forall p d, In p ps ->
         Z.of_nat (occurrences d (flat_map CommitSpec.endpoints p))
         <= Z.max 0 (avail s d).
Proof.
  induction fuel as [|n IH]; intros st g s ps g' s' W R;
    cbn [Simulator.loop] in R.
  - destruct (MG.edges g) as [|e l] eqn:E; [|discriminate].
    inversion R; subst. rewrite (@no_edges_no_links g' W E).
    split; [reflexivity|]. split; [constructor|intros p d []].
  - destruct (MG.edges g) as [|e l] eqn:E.
    + inversion R; subst. rewrite (@no_edges_no_links g' W E).
      split; [reflexivity|]. split; [constructor|intros p d []].
    + destruct (gen_edges st g s) as [r1|err] eqn:G; [|discriminate].
      destruct (@gen_edges_reads_only st g s r1 G) as [G1 G2].
      destruct r1 as [[[q st1] g0] s0]. cbn [fst snd] in G1, G2.
      subst g0 s0. cbn [bind fst snd] in R.
      rewrite (@do_work_commit free) in R. cbn [bind fst snd] in R.
      set (o := CommitSpec.commit g s q) in *.
      destruct (Simulator.loop gen_edges (InOrder.do_work free) n st1
                  (CommitSpec.o_graph o)
                  (InOrder.release free (CommitSpec.o_store o)
                                   (CommitSpec.o_active o)))
        as [[[[ps1 g1] s1]|]|err] eqn:L; cbn [bind option_map] in R;
        try discriminate.
      cbn [fst snd] in R. inversion R as [[Eps Eg Es]]. subst g1 s1.
      destruct (IH _ _ _ _ _ _ (@commit_wf q g s W) L) as [I1 [I2 I3]].
      split; [exact I1|]. split.
      * cbn [concat]. rewrite map_app.
        eapply Permutation_trans; [exact (commit_conserves q g s)|].
        apply Permutation_app_head. exact I2.
      * intros p d [<-|Hp].
        -- unfold o. rewrite <- commit_active.
           exact (proj2 (commit_slots q g s d)).
        -- specialize (I3 p d Hp).
           unfold o in I3. rewrite (@do_work_avail free free_one_slot) in I3.
           exact I3.
Qed.

End RunFacts.

(** No strategy that commits with InOrder.do_work and only reads the graph
    beats [d_prime].  On a well-formed graph without self-loops whose disks
    have at most as many free slots as their capacity, a run of [main] that
    ends reports a number of rounds that is at least the [d_prime] it
    reports, and every disk has at most rounds times availability edges. *)
Theorem rounds_at_least_d_prime (free : store -> disk -> store)
  (strategy : Type)
  (gen_edges :
     strategy -> graph -> store
     -> result (list edge * strategy * graph * store))
  (fuel : nat) (st : strategy) (g : graph) (s : store)
  (rounds : nat) (d_prime : Z) :
  (forall s d d', avail (free s d) d'
                  = avail s d' + (if Nat.eqb d d' then 1 else 0)) ->
  (forall st g s r, gen_edges st g s = Ok r -> snd (fst r) = g /\ snd r = s) ->
  MG.wf g ->
  (forall e, In e (MG.links g) -> fst e <> snd e) ->
  (forall d, In d (MG.nodes g) -> 0 < cv s d /\ avail s d <= cv s d) ->
  Simulator.main gen_edges (InOrder.do_work free) fuel st g s
  = Ok (Some (rounds, d_prime)) ->
  d_prime <= Z.of_nat rounds
  /\ forall d, In d (MG.nodes g) ->
       MG.degree g d <= Z.of_nat rounds * Z.max 0 (avail s d).
Proof.
  intros Hfree Hgen W NL Hcv M. unfold Simulator.main in M.
  destruct (Scheduler.max_d g s) as [m|err] eqn:D; [|discriminate].
  cbn [bind] in M.
  destruct (Simulator.loop gen_edges (InOrder.do_work free) fuel st g s)
    as [[[[ps g'] s']|]|err] eqn:L; cbn [bind option_map] in M;
    try discriminate.
  inversion M; subst. cbn [fst snd].
  destruct (@loop_run free Hfree strategy gen_edges Hgen fuel st g s ps g' s'
              W L) as [_ [P B]].
  assert (Deg : forall d, MG.degree g d
                          <= Z.of_nat (length ps) * Z.max 0 (avail s d)).
  { intros d. rewrite degree_sum.
    rewrite <- (sumZ_ext (fun e => ends_at d (norm_edge e)) (ends_at d))
      by (intros e _; apply ends_at_norm).
    rewrite <- sumZ_map, (sumZ_perm _ P), sumZ_map.
    rewrite (sumZ_ext _ (ends_at d)) by (intros e _; apply ends_at_norm).
    rewrite sumZ_concat. apply sumZ_bound. intros p Hp.
    rewrite ends_at_slots; [now apply B|].
    intros e He.
    assert (Hin : In (norm_edge e) (map norm_edge (concat ps))).
    { apply in_map. apply in_concat. eauto. }
    apply (Permutation_in _ (Permutation_sym P)) in Hin.
    apply in_map_iff in Hin as [e' [E' He']].
    apply (@norm_edge_loop e e'); [now symmetry|now apply NL]. }
  split; [|intros d _; apply Deg].
  assert (Hnz : forall d, In d (MG.nodes g) -> cv s d <> 0)
    by (intros d Hd; destruct (Hcv d Hd); lia).
  rewrite (max_d_nonzero g s Hnz) in D.
  apply py_max_In in D. apply in_map_iff in D as [d [<- Hd]].
  destruct (Hcv d Hd) as [C1 C2]. specialize (Deg d).
  pose proof (@ratio_le g s d C1) as Hr. unfold RankSpec.weight in Hr.
  assert (X : MG.degree g d <= Z.of_nat (length ps) * cv s d) by nia.
  assert (Y : - Z.of_nat (length ps) <= (- MG.degree g d) / cv s d).
  { apply Z.div_le_lower_bound; [exact C1|]. lia. }
  lia.
Qed.

Lemma rounds_at_least_d_prime_witness :
  exists rounds d_prime,
    Simulator.main Simulator.inorder_gen_edges
                   (InOrder.do_work Inputs.free_one)
                   3 tt Inputs.triangle (Inputs.uniform 1)
    = Ok (Some (rounds, d_prime))
    /\ d_prime <= Z.of_nat rounds.
Proof.
  exists 3%nat, 2. split; [vm_compute; reflexivity|].
  apply (@rounds_at_least_d_prime Inputs.free_one unit
           Simulator.inorder_gen_edges 3 tt Inputs.triangle
           (Inputs.uniform 1) 3 2 free_one_gives_one).
  - intros st g s r E. inversion E; subst. split; reflexivity.
  - exact triangle_wf.
  - intros e He. simpl in He.
    destruct He as [<-|[<-|[<-|[]]]]; simpl; lia.
  - intros d _. simpl. lia.
  - vm_compute. reflexivity.
Defined.

(** ** Greedy under the loop of the simulator *)

Section MatchingFacts.

Lemma remove_edge_nodes {A} `{EqDec A} (a a' : MG.t A) (u v : A) :
  MG.remove_edge a u v = Ok a' -> MG.nodes a' = MG.nodes a.
Proof.
  unfold MG.remove_edge.
  destruct (MG.remove_last (MG.joins u v) (MG.links a)); intros E;
    inversion E; reflexivity.
Qed.

(** removing a matching takes one edge out per element *)
Lemma remove_matching (q : list (node * node)) :
  forall a : agraph,
    MatchingSpec.matching a q ->
    MG.nodes (MG.remove_edges_from a q) = MG.nodes a
    /\ (length (MG.links (MG.remove_edges_from a q)) + length q
        = length (MG.links a))%nat
    /\ incl (MG.links (MG.remove_edges_from a q)) (MG.links a).
Proof.
  unfold MG.remove_edges_from.
  induction q as [|e q IH]; intros a [M1 M2]; cbn [fold_left].
  - split; [reflexivity|]. split; [cbn [length]; lia|apply incl_refl].
  - pose proof (M1 e (or_introl eq_refl)) as He. unfold MG.has_edge in He.
    destruct (@remove_last_some node (MG.joins (fst e) (snd e))
                (MG.links a) He) as [r R].
    assert (E : MG.remove_edge a (fst e) (snd e)
                = Ok (MG.mk (MG.nodes a) r))
      by (unfold MG.remove_edge; now rewrite R).
    rewrite E.
    destruct (@remove_last_perm node (MG.joins (fst e) (snd e))
                (MG.links a) r R) as [x [Jx P]].
    inversion M2 as [|? ? Hap M2']; subst.
    assert (M' : MatchingSpec.matching (MG.mk (MG.nodes a) r) q).
    { split; [|exact M2'].
      intros e' He'. specialize (M1 e' (or_intror He')).
      unfold MG.has_edge in *. cbn [MG.links].
      apply existsb_exists in M1 as [y [Hy Jy]].
      apply existsb_exists. exists y. split; [|exact Jy].
      apply (Permutation_in _ P) in Hy. destruct Hy as [<-|Hy]; [|exact Hy].
      exfalso. rewrite Forall_forall in Hap.
      destruct (Hap e' He') as [A1 [A2 [A3 A4]]].
      apply (proj1 (@joins_iff node _ _ _ x)) in Jx.
      apply (proj1 (@joins_iff node _ _ _ x)) in Jy.
      destruct Jx as [->| ->], Jy as [Ey|Ey]; inversion Ey; congruence. }
    destruct (IH _ M') as [I1 [I2 I3]]. cbn [MG.nodes MG.links] in *.
    split; [exact I1|]. split.
    + apply Permutation_length in P. cbn [length] in *. lia.
    + intros y Hy. apply I3 in Hy.
      apply (Permutation_in _ (Permutation_sym P)). now right.
Qed.

End MatchingFacts.

Section SplitShape.
Import FlattenAndColor.

Lemma alias_graph_stars_eq (g : graph) (k : nat) :
  AliasSpec.stars k (snd (alias_graph g k)) (MG.links (fst (alias_graph g k)))
  /\ map AliasSpec.org_edge (MG.links (fst (alias_graph g k)))
     = flat_map (MG.edges_of g) (MG.nodes g).
Proof.
  unfold alias_graph.
  destruct (@alias_fold g (MG.nodes g) MG.empty k k (Nat.le_refl k))
    as [I1 [I2 _]].
  { split; [intros e []|]. split; [constructor|intros e e' []]. }
  split; [exact I1|exact I2].
Qed.

(** the second endpoint of an edge reported at a node is an endpoint of a
    stored edge *)
Lemma reported_endpoint {A} `{EqDec A} (a : MG.t A) (d : A) (e : A * A) :
  In e (MG.edges_of a d) ->
  exists x, In x (MG.links a) /\ (snd e = fst x \/ snd e = snd x).
Proof.
  unfold MG.edges_of, MG.edges_at. intros Hin.
  apply in_flat_map in Hin as [nbr [Hn Hin]].
  destruct (mem nbr []); [destruct Hin|].
  apply repeat_spec in Hin. subst e. cbn [snd].
  apply (proj1 (nbrs_In (MG.links a) d nbr)) in Hn.
  apply existsb_exists in Hn as [x [Hx J]].
  apply (proj1 (joins_iff d nbr x)) in J. exists x. split; [exact Hx|].
  destruct J as [->| ->]; cbn [fst snd]; auto.
Qed.

Lemma clone_loop_snd (s : store) (a : agraph) (d : node) (n : nat) :
  forall st : list (node * node) * nat,
    (forall e, In e (fst st) ->
       exists d0 e0, In e0 (MG.edges_of a d0) /\ snd e = snd e0) ->
    forall e, In e (fst (clone_loop n a d st)) ->
      exists d0 e0, In e0 (MG.edges_of a d0) /\ snd e = snd e0.
Proof.
  induction n as [|n IH]; intros st P; cbn [clone_loop]; [exact P|].
  apply IH. cbn [fst]. intros e He.
  apply in_map_iff in He as [e0 [<- He0]]. exists d, e0. split; auto.
Qed.

Lemma split_fold_snd (s : store) (a : agraph) (ns : list node) :
  forall st : list (node * node) * nat,
    (forall e, In e (fst st) ->
       exists d0 e0, In e0 (MG.edges_of a d0) /\ snd e = snd e0) ->
    forall e,
      In e (fst (fold_left
                   (fun st d =>
                      if 1 <? cv s (org d)
                      then clone_loop (Z.to_nat (cv s (org d) - 2)) a d st
                      else st) ns st)) ->
      exists d0 e0, In e0 (MG.edges_of a d0) /\ snd e = snd e0.
Proof.
  induction ns as [|d ns IH]; intros st P; cbn [fold_left]; [exact P|].
  apply IH. destruct (1 <? cv s (org d)); [|exact P].
  now apply clone_loop_snd.
Qed.

(** the graph [split] returns has no self-loop *)
Lemma split_no_self_loop (g : graph) (s : store) (k : nat) :
  forall e, In e (MG.links (fst (split g s k))) -> fst e <> snd e.
Proof.
  destruct (alias_graph_stars_eq g k) as [[S1 _] _].
  unfold split. destruct (alias_graph g k) as [a k1]. cbn [fst snd] in S1.
  assert (P0 : (forall e1 e2 : node * node,
                   In e1 (fst (@nil (node * node), k1)) ->
                   In e2 (fst (@nil (node * node), k1)) -> fst e1 = fst e2)
               /\ (forall e : node * node,
                     In e (fst (@nil (node * node), k1)) ->
                     exists j x, fst e = Alias j (Disk x)
                                 /\ (k1 <= j < snd (@nil (node * node), k1))%nat
                                 /\ 2 < cv s x)
               /\ (k1 <= snd (@nil (node * node), k1))%nat).
  { cbn [fst snd]. split; [intros e1 e2 []|]. split; [intros e []|lia]. }
  pose proof (@split_fold_one s k1 a (MG.nodes a) ([], k1) P0) as P.
  cbv zeta in P.
  assert (Q0 : forall e : node * node,
             In e (fst (@nil (node * node), k1)) ->
             exists d0 e0, In e0 (MG.edges_of a d0) /\ snd e = snd e0)
    by (intros e []).
  pose proof (@split_fold_snd s a (MG.nodes a) ([], k1) Q0) as Q.
  destruct (fold_left _ (MG.nodes a) ([], k1)) as [ne k2].
  cbn [fst snd] in *. rewrite add_edges_from_links.
  cbn [MG.add_nodes_from fold_left].
  intros e He. apply in_app_or in He as [He|He].
  - destruct (S1 e He) as [i [j [d [v [-> [_ [B _]]]]]]].
    cbn [fst snd]. intros X. inversion X. lia.
  - destruct P as [_ [P2 _]].
    destruct (P2 e He) as [j [x [F [B _]]]].
    destruct (Q e He) as [d0 [e0 [He0 Sn]]].
    apply reported_endpoint in He0 as [y [Hy E]].
    destruct (S1 y Hy) as [i' [j' [d' [v' [-> [_ [B1 B2]]]]]]].
    cbn [fst snd] in E. rewrite F, Sn.
    destruct E as [->| ->]; intros X; inversion X; lia.
Qed.

End SplitShape.

Section GreedyLoop.
Variable maximal_matching : agraph -> list (node * node).
Hypothesis matching_ok : MatchingSpec.maximal maximal_matching.

(** the alias graph the next call will use *)
Lemma greedy_rounds (n : nat) :
  forall (st : option agraph * nat) (g : graph) (s : store) (a : agraph),
    a = fst (if FlattenAndColor.falsy (fst st)
             then FlattenAndColor.split g s (snd st)
             else (match fst st with Some x => x | None => MG.empty end,
                   snd st)) ->
    MG.edges g <> [] -> MG.nodes a <> [] ->
    (forall e, In e (MG.links a) -> fst e <> snd e) ->
    (length (MG.links a) < n)%nat ->
    exists ps,
      Simulator.loop (Simulator.greedy_gen_edges maximal_matching)
                     Simulator.greedy_do_work n st g s
      = Ok (Some (ps, MG.empty, s))
      /\ length (concat ps) = length (MG.links a)
      /\ (length ps <= S (length (MG.links a)))%nat.
Proof.
  induction n as [|n IH]; intros st g s a Ea NE Nn NL Hlen; [lia|].
  cbn [Simulator.loop]. destruct (MG.edges g) as [|e0 l0] eqn:E;
    [congruence|].
  unfold Simulator.greedy_gen_edges at 1. cbn [bind fst snd].
  unfold Simulator.greedy_do_work at 1. cbn [bind fst snd].
  unfold Greedy.gen_edges.
  destruct (if FlattenAndColor.falsy (fst st)
            then FlattenAndColor.split g s (snd st)
            else (match fst st with Some x => x | None => MG.empty end,
                  snd st)) as [a1 k1] eqn:Cur.
  cbn [fst snd] in Ea. subst a1. cbn [fst snd].
  destruct (matching_ok a) as [M Max].
  destruct (maximal_matching a) as [|x q] eqn:Q.
  - cbn [map Greedy.do_work fst snd].
    assert (L : MG.links a = []).
    { destruct (MG.links a) as [|y l] eqn:La; [reflexivity|].
      exfalso. apply Max; [|reflexivity].
      exists y. split; [now left|]. apply NL. now left. }
    assert (End : forall m st',
               Simulator.loop (Simulator.greedy_gen_edges maximal_matching)
                              Simulator.greedy_do_work m st'
                              (MG.clear g) s
               = Ok (Some ([], MG.empty, s)))
      by (intros [|m] st'; reflexivity).
    rewrite End. cbn [bind option_map fst snd].
    exists [[]]. split; [reflexivity|]. rewrite L. cbn. split; lia.
  - rewrite <- Q. rewrite <- Q in M.
    destruct (@remove_matching (maximal_matching a) a M) as [R1 [R2 R3]].
    assert (Qlen : (0 < length (maximal_matching a))%nat)
      by (rewrite Q; cbn; lia).
    assert (D : Greedy.do_work g
                  (map (fun e => (org (fst e), org (snd e)))
                       (maximal_matching a))
                = (g, map (fun e => (org (fst e), org (snd e)))
                          (maximal_matching a)))
      by (rewrite Q; reflexivity).
    rewrite D. cbn [fst snd].
    set (a' := MG.remove_edges_from a (maximal_matching a)) in *.
    destruct (IH (Some a', k1) g s a') as [ps [Lp [Lc Ln]]].
    + cbn [fst snd FlattenAndColor.falsy]. rewrite R1.
      destruct (MG.nodes a); [congruence|reflexivity].
    + rewrite E. discriminate.
    + now rewrite R1.
    + intros e He. apply NL. now apply R3.
    + lia.
    + rewrite Lp. cbn [bind option_map fst snd].
      eexists. split; [reflexivity|]. cbn [concat length].
      rewrite length_app, length_map, Lc. split; lia.
Qed.

Lemma split_has_nodes (g : graph) (s : store) (k : nat) :
  MG.wf g -> MG.edges g <> [] ->
  MG.nodes (fst (FlattenAndColor.split g s k)) <> [].
Proof.
  intros W NE.
  destruct (MG.links g) as [|[u v] l] eqn:L.
  - exfalso. apply NE. now apply no_links_no_edges.
  - assert (He : In (u, v) (MG.links g)) by (rewrite L; now left).
    assert (R : In (u, v) (flat_map (MG.edges_of g) (MG.nodes g))).
    { apply in_flat_map. exists u. split.
      - exact (proj1 (proj2 W _ He)).
      - now apply link_reported. }
    destruct (alias_graph_stars_eq g k) as [_ I2].
    rewrite <- I2 in R. apply in_map_iff in R as [x [_ Hx]].
    apply (@split_keeps_alias_links g s k) in Hx.
    destruct (@split_closed g s k x Hx) as [N1 _].
    intros Z. rewrite Z in N1. destruct N1.
Qed.

End GreedyLoop.

(** The loop of the simulator with Greedy ends when [nx.maximal_matching]
    returns maximal matchings.  It runs until the alias graph has no edge
    left, then one more round that prints nothing and clears the demand
    graph; no disk is touched.  The transfers printed over the whole run
    number exactly the edges of the alias graph that split returned, so (by
    the shape of the alias graph) an edge between two disks is printed once
    for each of its ends. *)
Theorem greedy_simulation_ends
  (maximal_matching : agraph -> list (node * node))
  (g : graph) (s : store) (k fuel : nat) :
  MatchingSpec.maximal maximal_matching ->
  MG.wf g -> MG.edges g <> [] ->
  (length (MG.links (fst (FlattenAndColor.split g s k))) < fuel)%nat ->
  exists ps,
    Simulator.loop (Simulator.greedy_gen_edges maximal_matching)
                   Simulator.greedy_do_work fuel (None, k) g s
    = Ok (Some (ps, MG.empty, s))
    /\ length (concat ps)
       = length (MG.links (fst (FlattenAndColor.split g s k)))
    /\ (length ps
        <= S (length (MG.links (fst (FlattenAndColor.split g s k)))))%nat.
Proof.
  intros Hmm W NE Hlen.
  apply (@greedy_rounds maximal_matching Hmm fuel (None, k) g s
           (fst (FlattenAndColor.split g s k))).
  - reflexivity.
  - exact NE.
  - now apply split_has_nodes.
  - apply split_no_self_loop.
  - exact Hlen.
Qed.

Section FirstFit.
Import Oracles.

Lemma first_fit_In (ls : list (node * node)) :
  forall used e,
    In e (first_fit ls used) ->
    In e ls /\ ~ In (fst e) used /\ ~ In (snd e) used.
Proof.
  induction ls as [|x ls IH]; intros used e He; [destruct He|].
  cbn [first_fit] in He.
  destruct (negb (eqb (fst x) (snd x)) && negb (mem (fst x) used)
            && negb (mem (snd x) used)) eqn:C.
  - apply andb_true_iff in C as [C C3]. apply andb_true_iff in C as [_ C2].
    apply negb_true_iff in C2, C3.
    destruct He as [<-|He].
    + split; [now left|]. split; now apply mem_notIn.
    + destruct (IH _ _ He) as [I1 [I2 I3]]. split; [now right|].
      split; intros X; [apply I2|apply I3]; right; right; exact X.
  - destruct (IH _ _ He) as [I1 I2]. split; [now right|exact I2].
Qed.

Lemma first_fit_apart (ls : list (node * node)) :
  forall used, ForallOrdPairs MatchingSpec.apart (first_fit ls used).
Proof.
  induction ls as [|x ls IH]; intros used; cbn [first_fit]; [constructor|].
  destruct (negb (eqb (fst x) (snd x)) && negb (mem (fst x) used)
            && negb (mem (snd x) used)); [|apply IH].
  constructor; [|apply IH]. apply Forall_forall. intros e He.
  destruct (first_fit_In _ _ _ He) as [_ [N1 N2]].
  unfold MatchingSpec.apart. cbn [In] in N1, N2.
  repeat split; intros X; [apply N1|apply N2|apply N1|apply N2]; auto.
Qed.

Lemma first_fit_nonempty (ls : list (node * node)) :
  forall used,
    (exists e, In e ls /\ fst e <> snd e
               /\ ~ In (fst e) used /\ ~ In (snd e) used) ->
    first_fit ls used <> [].
Proof.
  induction ls as [|x ls IH]; intros used [e [He [N [U1 U2]]]];
    [destruct He|].
  cbn [first_fit].
  destruct (negb (eqb (fst x) (snd x)) && negb (mem (fst x) used)
            && negb (mem (snd x) used)) eqn:C; [discriminate|].
  apply IH. exists e. split; [|auto].
  destruct He as [->|He]; [|exact He]. exfalso.
  apply (proj2 (eqb_neq (fst e) (snd e))) in N.
  apply (proj2 (mem_notIn (fst e) used)) in U1.
  apply (proj2 (mem_notIn (snd e) used)) in U2.
  rewrite N, U1, U2 in C. discriminate.
Qed.

Lemma first_fit_maximal : MatchingSpec.maximal first_fit_matching.
Proof.
  intros a. unfold first_fit_matching. split; [split|].
  - intros e He. destruct (first_fit_In _ _ _ He) as [Hin _].
    unfold MG.has_edge. apply existsb_exists. exists e. split; [exact Hin|].
    apply (proj2 (joins_iff (fst e) (snd e) e)). left. now destruct e.
  - apply first_fit_apart.
  - intros [e [He N]]. apply first_fit_nonempty. exists e.
    repeat split; auto.
Qed.

End FirstFit.

Lemma greedy_simulation_ends_witness :
  exists ps,
    Simulator.loop (Simulator.greedy_gen_edges Oracles.first_fit_matching)
                   Simulator.greedy_do_work 3 (None, O)
                   Inputs.one_edge (Inputs.uniform 1)
    = Ok (Some (ps, MG.empty, Inputs.uniform 1))
    /\ length (concat ps)
       = length (MG.links (fst (FlattenAndColor.split
                                  Inputs.one_edge (Inputs.uniform 1) 0)))
    /\ (length ps
        <= S (length (MG.links (fst (FlattenAndColor.split
                                       Inputs.one_edge
                                       (Inputs.uniform 1) 0)))))%nat.
Proof.
  apply (@greedy_simulation_ends Oracles.first_fit_matching Inputs.one_edge
           (Inputs.uniform 1) 0 3 first_fit_maximal).
  - split.
    + repeat constructor; simpl; intuition discriminate.
    + intros e He. simpl in He. destruct He as [<-|[]]; simpl; auto.
  - vm_compute. discriminate.
  - vm_compute. lia.
Defined.

(** ** The size of the alias graph *)

Section ReportCount.
Context {A : Type} `{EqDec A}.

Lemma joins_other (d x : A) (e : A * A) :
  MG.joins d x e = MG.incident d e && eqb x (MG.other d e).
Proof.
  unfold MG.joins, MG.incident, MG.other.
  destruct (eqb (fst e) d) eqn:E1; destruct (eqb (snd e) d) eqn:E2;
    destruct (eqb (fst e) x) eqn:E3; destruct (eqb (snd e) x) eqn:E4;
    cbn [andb orb];
    repeat match goal with
           | Hq : eqb _ _ = true |- _ => apply eqb_eq in Hq
           | Hq : eqb _ _ = false |- _ => apply eqb_neq in Hq
           end;
    try reflexivity;
    try (symmetry; apply eqb_eq; congruence);
    try (symmetry; apply eqb_neq; congruence);
    try congruence.
Qed.

Lemma mult_occurrences (ls : list (A * A)) (d x : A) :
  MG.mult ls d x
  = occurrences x (map (MG.other d) (filter (MG.incident d) ls)).
Proof.
  unfold MG.mult, occurrences.
  induction ls as [|e ls IH]; [reflexivity|].
  cbn [filter]. rewrite joins_other.
  destruct (MG.incident d e); cbn [andb map filter].
  - destruct (eqb x (MG.other d e)); cbn [length]; now rewrite IH.
  - exact IH.
Qed.

Lemma sumZ_indicator_gen (z : A) (l : list A) :
  NoDup l ->
  sumZ (fun x => if eqb x z then 1 else 0) l = if mem z l then 1 else 0.
Proof.
  induction 1 as [|x l Hx ND IH]; [reflexivity|].
  cbn [sumZ fold_right mem existsb].
  change (fold_right (fun x0 acc => (if eqb x0 z then 1 else 0) + acc) 0 l)
    with (sumZ (fun x0 => if eqb x0 z then 1 else 0) l).
  change (existsb (eqb z) l) with (mem z l).
  rewrite IH, (eqb_sym z x). destruct (eqb x z) eqn:E; cbn [orb]; [|lia].
  apply eqb_eq in E. subst z.
  rewrite (proj2 (mem_notIn x l) Hx). reflexivity.
Qed.

Lemma sum_occurrences (l L : list A) :
  NoDup l ->
  sumZ (fun x => Z.of_nat (occurrences x L)) l
  = Z.of_nat (length (filter (fun z => mem z l) L)).
Proof.
  intros ND. induction L as [|z L IH].
  - cbn [filter length]. rewrite (sumZ_ext _ (fun _ => 0)) by reflexivity.
    apply sumZ_zero.
  - rewrite (sumZ_ext _ (fun x => (if eqb x z then 1 else 0)
                                  + Z.of_nat (occurrences x L))).
    + rewrite sumZ_add, IH, sumZ_indicator_gen by exact ND.
      cbn [filter]. destruct (mem z l); cbn [length]; lia.
    + intros x _. unfold occurrences. cbn [filter].
      destruct (eqb x z); cbn [length]; lia.
Qed.

Lemma sum_dedup (L : list A) :
  sumZ (fun x => Z.of_nat (occurrences x L)) (dedup L)
  = Z.of_nat (length L).
Proof.
  rewrite sum_occurrences by apply dedup_NoDup.
  rewrite count_all; [reflexivity|].
  intros z Hz. apply mem_In. now apply dedup_In.
Qed.

Lemma length_flat_map_sum {X Y} (f : X -> list Y) (l : list X) :
  Z.of_nat (length (flat_map f l))
  = sumZ (fun x => Z.of_nat (length (f x))) l.
Proof.
  induction l as [|x l IH]; [reflexivity|].
  cbn [flat_map sumZ fold_right]. rewrite length_app, Nat2Z.inj_add.
  unfold sumZ in IH. now rewrite IH.
Qed.

(** a node is given one report for every stored edge that touches it *)
Lemma edges_of_length (g : MG.t A) (d : A) :
  length (MG.edges_of g d) = length (filter (MG.incident d) (MG.links g)).
Proof.
  apply Nat2Z.inj. unfold MG.edges_of, MG.edges_at.
  rewrite length_flat_map_sum.
  rewrite (sumZ_ext _ (fun x => Z.of_nat
                         (occurrences x (map (MG.other d)
                            (filter (MG.incident d) (MG.links g)))))).
  - unfold MG.nbrs. rewrite sum_dedup, length_map. reflexivity.
  - intros x _. cbn [mem existsb]. rewrite repeat_length.
    now rewrite mult_occurrences.
Qed.

End ReportCount.

Section AliasSize.

Lemma degree_incident (g : graph) (d : disk) :
  MG.degree g d
  = Z.of_nat (length (filter (MG.incident d) (MG.links g)))
    + Z.of_nat (length (filter (fun e => Nat.eqb (fst e) d
                                         && Nat.eqb (snd e) d)
                               (MG.links g))).
Proof.
  unfold MG.degree, MG.incident.
  induction (MG.links g) as [|e l IH]; [reflexivity|].
  cbn [fold_right filter]. rewrite IH.
  assert (E1 : @eqb disk _ (fst e) d = Nat.eqb (fst e) d) by reflexivity.
  assert (E2 : @eqb disk _ (snd e) d = Nat.eqb (snd e) d) by reflexivity.
  rewrite E1, E2.
  destruct (Nat.eqb (fst e) d), (Nat.eqb (snd e) d);
    cbn [orb andb length]; lia.
Qed.

Lemma loops_sum (ns : list disk) (ls : list edge) :
  NoDup ns -> (forall e, In e ls -> In (fst e) ns) ->
  sumZ (fun d => Z.of_nat (length (filter (fun e => Nat.eqb (fst e) d
                                                    && Nat.eqb (snd e) d)
                                          ls))) ns
  = Z.of_nat (length (filter (fun e => Nat.eqb (fst e) (snd e)) ls)).
Proof.
  intros ND. induction ls as [|e ls IH]; intros C.
  - cbn [filter length]. rewrite (sumZ_ext _ (fun _ => 0)) by reflexivity.
    apply sumZ_zero.
  - rewrite (sumZ_ext _
               (fun d => (if Nat.eqb (fst e) d
                          then (if Nat.eqb (fst e) (snd e) then 1 else 0)
                          else 0)
                         + Z.of_nat (length
                                       (filter (fun e => Nat.eqb (fst e) d
                                                         && Nat.eqb (snd e) d)
                                               ls)))).
    + rewrite sumZ_add, IH by (intros x Hx; apply C; now right).
      assert (S1 : sumZ (fun d => if Nat.eqb (fst e) d
                                  then (if Nat.eqb (fst e) (snd e)
                                        then 1 else 0)
                                  else 0) ns
                   = if Nat.eqb (fst e) (snd e) then 1 else 0).
      { destruct (Nat.eqb (fst e) (snd e)).
        - apply sumZ_indicator; [exact ND|]. apply C. now left.
        - rewrite (sumZ_ext _ (fun _ => 0)).
          + apply sumZ_zero.
          + intros d _. now destruct (Nat.eqb (fst e) d). }
      rewrite S1. cbn [filter].
      destruct (Nat.eqb (fst e) (snd e)); cbn [length]; lia.
    + intros d _. cbn [filter].
      destruct (Nat.eqb (fst e) d) eqn:E1.
      * apply Nat.eqb_eq in E1. subst d. cbn [andb].
        rewrite (Nat.eqb_sym (snd e) (fst e)).
        destruct (Nat.eqb (fst e) (snd e)); cbn [length]; lia.
      * cbn [andb]. lia.
Qed.

Lemma alias_graph_size (g : graph) (k : nat) :
  MG.wf g ->
  Z.of_nat (length (MG.links (fst (FlattenAndColor.alias_graph g k))))
  + Z.of_nat (length (filter (fun e => Nat.eqb (fst e) (snd e))
                             (MG.links g)))
  = 2 * Z.of_nat (length (MG.links g)).
Proof.
  intros W. destruct (alias_graph_stars_eq g k) as [_ I2].
  rewrite <- (length_map AliasSpec.org_edge), I2, length_flat_map_sum.
  rewrite (sumZ_ext _ (fun d => Z.of_nat
                                  (length (filter (MG.incident d)
                                                  (MG.links g)))))
    by (intros d _; now rewrite edges_of_length).
  rewrite <- (@loops_sum (MG.nodes g) (MG.links g) (proj1 W))
    by (intros e He; exact (proj1 (proj2 W e He))).
  rewrite <- sumZ_add, <- (handshake W).
  apply sumZ_ext. intros d _. symmetry. apply degree_incident.
Qed.

End AliasSize.

(** The alias graph has two edges for every edge of the demand graph that
    joins two different disks and one for every self-loop: the number of
    its edges is twice the number of demand edges less the number of
    self-loops.  With capacities of at most 2, so that split adds nothing,
    this is the number of transfer lines a run of Greedy prints. *)
Theorem alias_graph_counts_both_ends (g : graph) (s : store) (k : nat) :
  MG.wf g ->
  Z.of_nat (length (MG.links (fst (FlattenAndColor.alias_graph g k))))
  = 2 * Z.of_nat (length (MG.links g))
    - Z.of_nat (length (filter (fun e => Nat.eqb (fst e) (snd e))
                               (MG.links g)))
  /\ ((forall d, cv s d <= 2) ->
      Z.of_nat (length (MG.links (fst (FlattenAndColor.split g s k))))
      = 2 * Z.of_nat (length (MG.links g))
        - Z.of_nat (length (filter (fun e => Nat.eqb (fst e) (snd e))
                                   (MG.links g)))).
Proof.
  intros W. pose proof (@alias_graph_size g k W) as Sz.
  split; [lia|]. intros Hcv.
  assert (E : FlattenAndColor.split g s k = FlattenAndColor.alias_graph g k).
  { unfold FlattenAndColor.split.
    destruct (FlattenAndColor.alias_graph g k) as [a k1].
    rewrite (@split_fold_small s a (MG.nodes a) Hcv ([], k1)).
    reflexivity. }
  rewrite E. lia.
Qed.

Lemma alias_graph_counts_both_ends_witness :
  Z.of_nat (length (MG.links (fst (FlattenAndColor.alias_graph
                                     Inputs.triangle 0))))
  = 2 * Z.of_nat (length (MG.links Inputs.triangle))
    - Z.of_nat (length (filter (fun e : edge => Nat.eqb (fst e) (snd e))
                               (MG.links Inputs.triangle))).
Proof.
  exact (proj1 (@alias_graph_counts_both_ends Inputs.triangle
                  (Inputs.uniform 1) 0 triangle_wf)).
Defined.

(** ** FlattenAndColor.greedy_color: what the colours do guarantee *)

Section ColourFacts.
Import FlattenAndColor.

Lemma has_key_In (c : coloring) (e : node * node) :
  has_key c e = true <-> In e (map fst c).
Proof.
  unfold has_key. rewrite existsb_exists. split.
  - intros [kv [Hin E]]. apply eqb_eq in E. subst e. now apply in_map.
  - intros Hin. apply in_map_iff in Hin as [kv [<- Hin]].
    exists kv. split; [exact Hin|apply eqb_refl].
Qed.

Lemma reports_fst {A} `{EqDec A} (a : MG.t A) (d : A) (e : A * A) :
  In e (MG.edges_of a d) -> fst e = d.
Proof.
  unfold MG.edges_of, MG.edges_at. intros Hin.
  apply in_flat_map in Hin as [nbr [_ Hin]].
  destruct (mem nbr []); [destruct Hin|].
  apply repeat_spec in Hin. now subst.
Qed.

(** the loop over the edges reported at one node [d] *)
Lemma color_fold_inv (d : node) (es : list (node * node)) :
  forall (c : coloring) (n : nat),
    (forall e, In e es -> fst e = d) ->
    NoDup (map fst c) ->
    (forall key col, In (key, col) c -> fst key = d -> (col < n)%nat) ->
    (forall k1 k2 col, In (k1, col) c -> In (k2, col) c ->
                       fst k1 = fst k2 -> k1 = k2) ->
    NoDup (map fst (fst (fold_left color_edge es (c, n))))
    /\ (forall k1 k2 col,
          In (k1, col) (fst (fold_left color_edge es (c, n))) ->
          In (k2, col) (fst (fold_left color_edge es (c, n))) ->
          fst k1 = fst k2 -> k1 = k2)
    /\ (forall key col,
          In (key, col) (fst (fold_left color_edge es (c, n))) ->
          In (key, col) c \/ In key es).
Proof.
  induction es as [|e es IH]; intros c n Hd ND Lt Inj; cbn [fold_left].
  - cbn [fst]. split; [exact ND|]. split; [exact Inj|auto].
  - assert (Hd' : forall x, In x es -> fst x = d)
      by (intros x Hx; apply Hd; now right).
    destruct (has_key c e) eqn:K.
    + assert (CE : color_edge (c, n) e = (c, n))
        by (unfold color_edge; cbn [fst snd]; now rewrite K).
      rewrite CE.
      destruct (IH c n Hd' ND Lt Inj) as [I1 [I2 I3]].
      split; [exact I1|]. split; [exact I2|].
      intros key col Hin. destruct (I3 key col Hin); [now left|].
      right. now right.
    + assert (Ne : ~ In e (map fst c)).
      { intros X. apply has_key_In in X. congruence. }
      assert (Fe : fst e = d) by (apply Hd; now left).
      assert (CE : color_edge (c, n) e = (c ++ [(e, n)], S n))
        by (unfold color_edge; cbn [fst snd]; now rewrite K).
      rewrite CE.
      destruct (IH (c ++ [(e, n)]) (S n) Hd') as [I1 [I2 I3]].
      * rewrite map_app. cbn [map fst].
        apply NoDup_app; [exact ND|repeat constructor; intros []|].
        intros x Hx [<-|[]]. contradiction.
      * intros key col Hin Fk. apply in_app_or in Hin as [Hin|[X|[]]].
        -- specialize (Lt key col Hin Fk). lia.
        -- inversion X. lia.
      * intros k1 k2 col H1 H2 F.
        apply in_app_or in H1 as [H1|[X1|[]]];
          apply in_app_or in H2 as [H2|[X2|[]]].
        -- now apply (Inj k1 k2 col).
        -- inversion X2; subst. exfalso.
           assert (col < col)%nat by (apply (Lt k1 col H1); congruence).
           lia.
        -- inversion X1; subst. exfalso.
           assert (col < col)%nat by (apply (Lt k2 col H2); congruence).
           lia.
        -- congruence.
      * split; [exact I1|]. split; [exact I2|].
        intros key col Hin. destruct (I3 key col Hin) as [Hc|He].
        -- apply in_app_or in Hc as [Hc|[X|[]]]; [now left|].
           inversion X; subst. right. now left.
        -- right. now right.
Qed.

Lemma greedy_fold_inv (a : agraph) (ns : list node) :
  forall (done : list node) (c : coloring),
    NoDup ns -> (forall d, In d ns -> ~ In d done) ->
    NoDup (map fst c) ->
    (forall k1 k2 col, In (k1, col) c -> In (k2, col) c ->
                       fst k1 = fst k2 -> k1 = k2) ->
    (forall key col, In (key, col) c ->
                     In (fst key) done /\ In key (MG.edges_of a (fst key))) ->
    let r := fold_left (fun c d =>
                          fst (fold_left color_edge (MG.edges_of a d) (c, O)))
                       ns c in
    NoDup (map fst r)
    /\ (forall k1 k2 col, In (k1, col) r -> In (k2, col) r ->
                          fst k1 = fst k2 -> k1 = k2)
    /\ (forall key col, In (key, col) r ->
                        In (fst key) (done ++ ns)
                        /\ In key (MG.edges_of a (fst key))).
Proof.
  induction ns as [|d ns IH]; intros done c NDn Fresh ND Inj Prov;
    cbn [fold_left].
  - rewrite app_nil_r. auto.
  - inversion NDn as [|? ? Hd NDn']; subst.
    destruct (@color_fold_inv d (MG.edges_of a d) c O) as [I1 [I2 I3]].
    + intros e He. now apply reports_fst in He.
    + exact ND.
    + intros key col Hin Fk. exfalso.
      destruct (Prov key col Hin) as [Hdone _]. rewrite Fk in Hdone.
      apply (Fresh d (or_introl eq_refl) Hdone).
    + exact Inj.
    + destruct (IH (done ++ [d])
                   (fst (fold_left color_edge (MG.edges_of a d) (c, O))))
        as [J1 [J2 J3]].
      * exact NDn'.
      * intros x Hx Hin. apply in_app_or in Hin as [Hin|[<-|[]]].
        -- apply (Fresh x (or_intror Hx) Hin).
        -- contradiction.
      * exact I1.
      * exact I2.
      * intros key col Hin. destruct (I3 key col Hin) as [Hc|He].
        -- destruct (Prov key col Hc) as [P1 P2].
           split; [apply in_or_app; now left|exact P2].
        -- pose proof (reports_fst _ _ _ He) as F. rewrite F.
           split; [apply in_or_app; right; now left|exact He].
      * split; [exact J1|]. split; [exact J2|].
        intros key col Hin. destruct (J3 key col Hin) as [P1 P2].
        split; [|exact P2]. rewrite <- app_assoc in P1. exact P1.
Qed.

End ColourFacts.

(** What greedy_color does guarantee on a graph whose nodes are listed
    once: the dict has exactly one entry per directed pair (node,
    neighbour) that [graph.edges(d)] reports at a node [d] of the graph:
    every reported pair is a key, every key is a pair reported at its
    first endpoint, and no key occurs twice.  Two keys with the same first
    endpoint never get the same colour: the colours are proper around the
    node the edge was reported at, not around the other end. *)
Theorem greedy_color_proper_at_first_endpoint (a : agraph) :
  NoDup (MG.nodes a) ->
  NoDup (map fst (FlattenAndColor.greedy_color a))
  /\ (forall d e,
        In d (MG.nodes a) -> In e (MG.edges_of a d) ->
        exists col, In (e, col) (FlattenAndColor.greedy_color a))
  /\ (forall key col,
        In (key, col) (FlattenAndColor.greedy_color a) ->
        In (fst key) (MG.nodes a) /\ In key (MG.edges_of a (fst key)))
  /\ (forall k1 k2 col,
        In (k1, col) (FlattenAndColor.greedy_color a) ->
        In (k2, col) (FlattenAndColor.greedy_color a) ->
        fst k1 = fst k2 -> k1 = k2).
Proof.
  intros ND.
  assert (I : NoDup (map fst (FlattenAndColor.greedy_color a))
              /\ (forall k1 k2 col,
                    In (k1, col) (FlattenAndColor.greedy_color a) ->
                    In (k2, col) (FlattenAndColor.greedy_color a) ->
                    fst k1 = fst k2 -> k1 = k2)
              /\ (forall key col,
                    In (key, col) (FlattenAndColor.greedy_color a) ->
                    In (fst key) (MG.nodes a)
                    /\ In key (MG.edges_of a (fst key)))).
  { unfold FlattenAndColor.greedy_color.
    apply (@greedy_fold_inv a (MG.nodes a) [] []).
    - exact ND.
    - intros d _ [].
    - constructor.
    - intros k1 k2 col [].
    - intros key col []. }
  destruct I as [I1 [I2 I3]].
  split; [exact I1|]. split; [|split; [exact I3|exact I2]].
  intros d e Hd He. exact (@greedy_color_keys a d e Hd He).
Qed.

Lemma greedy_color_proper_at_first_endpoint_witness :
  FlattenAndColor.greedy_color
    (MG.mk [Disk 0; Disk 1; Disk 2] [(Disk 0, Disk 1); (Disk 0, Disk 2)])
  = [((Disk 0, Disk 1), 0%nat); ((Disk 0, Disk 2), 1%nat);
     ((Disk 1, Disk 0), 0%nat); ((Disk 2, Disk 0), 0%nat)]
  /\ NoDup (map fst (FlattenAndColor.greedy_color
                       (MG.mk [Disk 0; Disk 1; Disk 2]
                              [(Disk 0, Disk 1); (Disk 0, Disk 2)])))
  /\ (forall d e,
        In d [Disk 0; Disk 1; Disk 2] ->
        In e (MG.edges_of (MG.mk [Disk 0; Disk 1; Disk 2]
                                 [(Disk 0, Disk 1); (Disk 0, Disk 2)]) d) ->
        exists col,
          In (e, col)
             (FlattenAndColor.greedy_color
                (MG.mk [Disk 0; Disk 1; Disk 2]
                       [(Disk 0, Disk 1); (Disk 0, Disk 2)])))
  /\ (forall k1 k2 col,
        In (k1, col)
           (FlattenAndColor.greedy_color
              (MG.mk [Disk 0; Disk 1; Disk 2]
                     [(Disk 0, Disk 1); (Disk 0, Disk 2)])) ->
        In (k2, col)
           (FlattenAndColor.greedy_color
              (MG.mk [Disk 0; Disk 1; Disk 2]
                     [(Disk 0, Disk 1); (Disk 0, Disk 2)])) ->
        fst k1 = fst k2 -> k1 = k2).
Proof.
  split; [reflexivity|].
  assert (ND : NoDup (MG.nodes (MG.mk [Disk 0; Disk 1; Disk 2]
                                      [(Disk 0, Disk 1); (Disk 0, Disk 2)]))).
  { cbn [MG.nodes]. constructor.
    - intros [X|[X|[]]]; discriminate.
    - constructor.
      + intros [X|[]]; discriminate.
      + constructor; [intros []|constructor]. }
  destruct (@greedy_color_proper_at_first_endpoint
              (MG.mk [Disk 0; Disk 1; Disk 2]
                     [(Disk 0, Disk 1); (Disk 0, Disk 2)]) ND)
    as [K1 [K2 [_ K4]]].
  split; [exact K1|]. split; [exact K2|exact K4].
Defined.

(** ** simulator.py: generate_disks *)

Section SetupFacts.
Import Setup.
Variable randint : nat -> Z -> Z -> Z.

Lemma mapM_length {X Y} (f : X -> result Y) (l : list X) :
  forall ys, mapM f l = Ok ys -> length ys = length l.
Proof.
  induction l as [|x l IH]; intros ys E; cbn [mapM] in E.
  - inversion E. reflexivity.
  - destruct (f x) as [y|err]; cbn [bind] in E; [|discriminate].
    destruct (mapM f l) as [ys'|err]; cbn [bind] in E; [|discriminate].
    inversion E. cbn [length]. now rewrite (IH ys' eq_refl).
Qed.

Lemma mapM_all {X Y} (f : X -> result Y) (P : Y -> Prop) (l : list X) :
  (forall x, In x l -> exists y, f x = Ok y /\ P y) ->
  exists ys, mapM f l = Ok ys /\ forall y, In y ys -> P y.
Proof.
  induction l as [|x l IH]; intros Hf; cbn [mapM].
  - exists []. split; [reflexivity|intros y []].
  - destruct (Hf x (or_introl eq_refl)) as [y [Ey Py]].
    destruct (IH (fun z Hz => Hf z (or_intror Hz))) as [ys [Eys Pys]].
    rewrite Ey, Eys. cbn [bind]. exists (y :: ys). split; [reflexivity|].
    intros z [<-|Hz]; auto.
Qed.

Lemma mapM_first_raises {X Y} (f : X -> result Y) (e : error) (l : list X) :
  l <> [] -> (forall x, In x l -> f x = Raise e) -> mapM f l = Raise e.
Proof.
  destruct l as [|x l]; intros N Hf; [congruence|].
  cbn [mapM]. now rewrite (Hf x (or_introl eq_refl)).
Qed.

Lemma seq_nonempty (n : Z) : 0 < n -> seq 0 (Z.to_nat n) <> [].
Proof.
  intros Hn. destruct (Z.to_nat n) eqn:E; [lia|]. discriminate.
Qed.

End SetupFacts.

(** generate_disks makes as many disks as asked, and the capacity argument
    of each depends on the first option that is given and not zero.  With
    [rand_cv] it is a number from 1 to rand_cv, odd or even; with
    [static_cv] it is that number; with [even_cv] it is even and between 2
    and even_cv, and when even_cv is 1 (or less) the first draw raises
    ValueError on the empty range; with no option, or only zeros, every
    disk gets capacity 1.  The [even_cv] cases are stated for an even_cv
    between -2^53 and 2^53, where the float quotient [even_cv / 2] of the
    source is exact. *)
Theorem generate_disks_capacities (randint : nat -> Z -> Z -> Z) (n : Z)
  (rand_cv static_cv even_cv : option Z) :
  (forall i a b, a <= b -> a <= randint i a b <= b) ->
  (forall ds,
      Setup.generate_disks randint n rand_cv static_cv even_cv = Ok ds ->
      length ds = Z.to_nat n)
  /\ (Setup.truthy rand_cv = true ->
      (1 <= Setup.value rand_cv ->
       exists ds,
         Setup.generate_disks randint n rand_cv static_cv even_cv = Ok ds
         /\ forall c, In c ds -> 1 <= c <= Setup.value rand_cv)
      /\ (Setup.value rand_cv < 1 -> 0 < n ->
          Setup.generate_disks randint n rand_cv static_cv even_cv
          = Raise ValueError))
  /\ (Setup.truthy rand_cv = false -> Setup.truthy static_cv = true ->
      exists ds,
        Setup.generate_disks randint n rand_cv static_cv even_cv = Ok ds
        /\ forall c, In c ds -> c = Setup.value static_cv)
  /\ (Setup.truthy rand_cv = false -> Setup.truthy static_cv = false ->
      Setup.truthy even_cv = true ->
      (2 <= Setup.value even_cv <= Exact.bound ->
       exists ds,
         Setup.generate_disks randint n rand_cv static_cv even_cv = Ok ds
         /\ forall c, In c ds ->
              c mod 2 = 0 /\ 2 <= c <= Setup.value even_cv)
      /\ (- Exact.bound <= Setup.value even_cv < 2 -> 0 < n ->
          Setup.generate_disks randint n rand_cv static_cv even_cv
          = Raise ValueError))
  /\ (Setup.truthy rand_cv = false -> Setup.truthy static_cv = false ->
      Setup.truthy even_cv = false ->
      exists ds,
        Setup.generate_disks randint n rand_cv static_cv even_cv = Ok ds
        /\ forall c, In c ds -> c = 1).
Proof.
  intros Hr. unfold Setup.generate_disks.
  split; [|split; [|split; [|split]]].
  - intros ds E. apply mapM_length in E. now rewrite length_seq in E.
  - intros T. split.
    + intros V. apply mapM_all. intros i _.
      unfold Setup.new_disk, Setup.py_randint. rewrite T.
      destruct (Setup.value rand_cv <? 1) eqn:L;
        [apply Z.ltb_lt in L; lia|].
      eexists. split; [reflexivity|]. now apply Hr.
    + intros V Hn. apply mapM_first_raises; [now apply seq_nonempty|].
      intros i _. unfold Setup.new_disk, Setup.py_randint. rewrite T.
      destruct (Setup.value rand_cv <? 1) eqn:L; [reflexivity|].
      apply Z.ltb_ge in L. lia.
  - intros T1 T2. apply mapM_all. intros i _.
    unfold Setup.new_disk. rewrite T1, T2. eauto.
  - intros T1 T2 T3. split.
    + intros V. apply mapM_all. intros i _.
      unfold Setup.new_disk, Setup.py_randint. rewrite T1, T2, T3.
      assert (H1 : 1 <= Setup.value even_cv / 2)
        by (apply Z.div_le_lower_bound; lia).
      destruct (Setup.value even_cv / 2 <? 1) eqn:L;
        [apply Z.ltb_lt in L; lia|].
      cbn [bind]. eexists. split; [reflexivity|].
      pose proof (Hr i 1 (Setup.value even_cv / 2) H1) as [R1 R2].
      pose proof (Z.mul_div_le (Setup.value even_cv) 2 ltac:(lia)).
      split; [apply Z.mod_mul; lia|lia].
    + intros V Hn. apply mapM_first_raises; [now apply seq_nonempty|].
      intros i _. unfold Setup.new_disk, Setup.py_randint.
      rewrite T1, T2, T3.
      assert (H1 : Setup.value even_cv / 2 < 1)
        by (apply Z.div_lt_upper_bound; lia).
      destruct (Setup.value even_cv / 2 <? 1) eqn:L; [reflexivity|].
      apply Z.ltb_ge in L. lia.
  - intros T1 T2 T3. apply mapM_all. intros i _.
    unfold Setup.new_disk. rewrite T1, T2, T3. eauto.
Qed.

(** with the draws 1, 2, 1, ... : [--even_cv 5] gives the capacities 2, 4
    and 2, [--rand_cv 3] the capacities 1, 3 and 1, [--even_cv 1] raises,
    and no option gives capacity 1 *)
Lemma generate_disks_capacities_witness :
  Setup.generate_disks (fun i a b => if Nat.even i then a else b)
                       3 None None (Some 5)
  = Ok [2; 4; 2]
  /\ (exists ds,
        Setup.generate_disks (fun i a b => if Nat.even i then a else b)
                             3 None None (Some 5) = Ok ds
        /\ forall c, In c ds -> c mod 2 = 0 /\ 2 <= c <= 5)
  /\ Setup.generate_disks (fun i a b => if Nat.even i then a else b)
                          3 (Some 3) None None
     = Ok [1; 3; 1]
  /\ (exists ds,
        Setup.generate_disks (fun i a b => if Nat.even i then a else b)
                             3 (Some 3) None None = Ok ds
        /\ forall c, In c ds -> 1 <= c <= 3)
  /\ Setup.generate_disks (fun i a b => if Nat.even i then a else b)
                          3 None (Some 0) (Some 1)
     = Raise ValueError
  /\ exists ds,
       Setup.generate_disks (fun i a b => if Nat.even i then a else b)
                            3 None (Some 0) None = Ok ds
       /\ forall c, In c ds -> c = 1.
Proof.
  assert (Hr : forall (i : nat) (a b : Z),
             a <= b -> a <= (if Nat.even i then a else b) <= b)
    by (intros i a b L; destruct (Nat.even i); lia).
  split; [reflexivity|]. split.
  { apply (proj1 (proj1 (proj2 (proj2 (proj2
             (@generate_disks_capacities
                (fun i a b => if Nat.even i then a else b) 3
                None None (Some 5) Hr))))
             eq_refl eq_refl eq_refl)).
    cbn [Setup.value]. unfold Exact.bound. lia. }
  split; [reflexivity|]. split.
  { apply (proj1 (proj1 (proj2
             (@generate_disks_capacities
                (fun i a b => if Nat.even i then a else b) 3
                (Some 3) None None Hr))
             eq_refl)).
    cbn [Setup.value]. lia. }
  split.
  - apply (proj2 (proj1 (proj2 (proj2 (proj2
             (@generate_disks_capacities
                (fun i a b => if Nat.even i then a else b) 3
                None (Some 0) (Some 1) Hr))))
             eq_refl eq_refl eq_refl));
      [cbn [Setup.value]; unfold Exact.bound; lia|reflexivity].
  - apply (proj2 (proj2 (proj2 (proj2
             (@generate_disks_capacities
                (fun i a b => if Nat.even i then a else b) 3
                None (Some 0) None Hr))))); reflexivity.
Defined.

(** ** Bipartite under [main] *)

(** [main] with Bipartite stops with ZeroDivisionError in its first round
    as soon as one disk of the graph has capacity 1, which is the capacity
    generate_disks gives when no option is set: [d_prime] is computed, the
    loop is entered, and the relaxation inside gen_edges takes that
    capacity to zero before max_d divides by it. *)
Theorem bipartite_main_needs_capacity_two
  (eulerian_circuit : graph -> result (list edge))
  (maximum_flow : DiGraph.t -> flow_dict)
  (free : store -> disk -> store) (fuel : nat)
  (g : graph) (s : store) (d : disk) :
  In d (MG.nodes g) -> cv s d = 1 ->
  (forall x, In x (MG.nodes g) -> cv s x <> 0) ->
  MG.edges g <> [] -> (0 < fuel)%nat ->
  Simulator.main (Bipartite.gen_edges eulerian_circuit maximum_flow)
                 (InOrder.do_work free) fuel Bipartite.init g s
  = Raise ZeroDivisionError.
Proof.
  intros Hd Hc Hnz NE Hf. unfold Simulator.main.
  rewrite (max_d_nonzero g s Hnz).
  destruct (map (Scheduler.ratio g s) (MG.nodes g)) as [|w ws] eqn:M.
  { destruct (MG.nodes g); [destruct Hd|discriminate]. }
  cbn [py_max bind].
  destruct fuel as [|n]; [lia|]. cbn [Simulator.loop].
  destruct (MG.edges g) as [|e l]; [congruence|].
  assert (Hz : cv (Bipartite.relax g s) d = 0)
    by (rewrite relax_cv by assumption; rewrite Hc; reflexivity).
  assert (G : Bipartite.gen_edges eulerian_circuit maximum_flow
                                  Bipartite.init g s
              = Raise ZeroDivisionError).
  { unfold Bipartite.gen_edges, Bipartite.prepare, Bipartite.normalize.
    cbn [Bipartite.normalized Bipartite.init negb].
    now rewrite (max_d_zero g _ d Hd Hz). }
  rewrite G. reflexivity.
Qed.

Lemma bipartite_main_needs_capacity_two_witness :
  Simulator.main (Bipartite.gen_edges (fun _ => Ok []) (fun _ => []))
                 (InOrder.do_work Inputs.free_one) 1 Bipartite.init
                 Inputs.one_edge (Inputs.uniform 1)
  = Raise ZeroDivisionError.
Proof.
  apply (@bipartite_main_needs_capacity_two (fun _ => Ok []) (fun _ => [])
           Inputs.free_one 1 Inputs.one_edge (Inputs.uniform 1) 0%nat).
  - simpl. auto.
  - reflexivity.
  - intros x _. simpl. discriminate.
  - vm_compute. discriminate.
  - lia.
Defined.
